(** * spacelift-io/flows-app-anthropic: the turn orchestration of the
      "Generate message" block

    A shallow embedding of [blocks/utils.ts] and of the handlers of
    [blocks/generateMessage.ts] ([onEvent], [onTimer], [onInternalMessage]),
    followed by the handlers of [blocks/toolDefinition.ts], of
    [blocks/remoteMcpServer.ts] and of the app.

    - JavaScript strings are sequences of UTF-16 code units: [list N].
    - The numbers of a configuration are rationals: the code compares them
      and hands them on, and does no arithmetic on them.
    - A plain object used as a record is the [gmap] of its own properties,
      read and written through [getProperty] and [setProperty], which know
      the properties every object inherits.
    - The block's key-value store is a [gmap] from keys to entries.
    - Asynchronous functions are computations over an explicit [World]
      (key-value store, scheduled timers, the outbound effects issued so far)
      that either return or throw; the world reached so far is kept when they
      throw.
    - The model API is an oracle: the outcome of the n-th request. *)

From Stdlib Require Import NArith Ascii String DecimalNat QArith Qround.
From stdpp Require Import gmap list fin_maps.

Local Open Scope N_scope.
Local Open Scope list_scope.

(** ** JavaScript strings *)

(** One UTF-16 code unit. *)
Abbreviation codeunit := N (only parsing).

(** A JavaScript string, as the sequence of its code units. *)
Abbreviation jsstring := (list N) (only parsing).

Fixpoint js (s : string) : jsstring :=
  match s with
  | EmptyString => []
  | String a r => N_of_ascii a :: js r
  end.

Global Arguments js _ : simpl never.

(** A template literal: the concatenation of its parts. *)
Definition template (parts : list jsstring) : jsstring := concat parts.
Global Arguments template _ : simpl never.

(** [String(n)] for a non-negative integer [n]: its decimal digits. *)
Fixpoint uint_units (d : Decimal.uint) : jsstring :=
  match d with
  | Decimal.Nil => []
  | Decimal.D0 r => 48 :: uint_units r
  | Decimal.D1 r => 49 :: uint_units r
  | Decimal.D2 r => 50 :: uint_units r
  | Decimal.D3 r => 51 :: uint_units r
  | Decimal.D4 r => 52 :: uint_units r
  | Decimal.D5 r => 53 :: uint_units r
  | Decimal.D6 r => 54 :: uint_units r
  | Decimal.D7 r => 55 :: uint_units r
  | Decimal.D8 r => 56 :: uint_units r
  | Decimal.D9 r => 57 :: uint_units r
  end.

Definition decimal (n : nat) : jsstring := uint_units (Nat.to_uint n).
Global Arguments decimal _ : simpl never.

Definition is_digit (c : codeunit) : bool := (48 <=? c) && (c <=? 57).

(** [s.startsWith(p)] *)
Fixpoint startsWith (p s : jsstring) : bool :=
  match p, s with
  | [], _ => true
  | _ :: _, [] => false
  | a :: p', b :: s' => (a =? b) && startsWith p' s'
  end.

(** [s.includes(p)] *)
Fixpoint includes (p s : jsstring) : bool :=
  startsWith p s ||
  match s with
  | [] => false
  | _ :: s' => includes p s'
  end.

(** ** JavaScript numbers *)

(** A number of the configuration. The configuration is JSON: its numbers
    are finite, whole or not, of either sign. *)
Abbreviation number := Q (only parsing).

(** A counter of the code ([retryCount]) as a number. *)
Definition of_nat (n : nat) : number := inject_Z (Z.of_nat n).

(** [x >= y] *)
Definition ge (x y : number) : bool := Qle_bool y x.

(** [Boolean(x)]: every number but zero is truthy. *)
Definition truthy_number (x : number) : bool := negb (Qeq_bool x 0%Q).

(** How many of the counts 0, 1, 2, ... are below [x]: [x] rounded up, none
    when [x] is zero or negative. For a whole [n], [n < x] holds exactly when
    [n] is below [attempts x]. *)
Definition attempts (x : number) : nat := Z.to_nat (Qceiling x).

(** ** Plain objects used as records

    [toolResults] of [loadToolResults] is an object created by [{}], written
    by [acc[key] = value] and read by [toolResults[key]], with strings for
    values. *)

(** The names of the properties of [Object.prototype] (ECMAScript 20.1.3 and
    B.2.2), which every such object inherits. *)
Definition objectPrototype : list jsstring :=
  [js "constructor"; js "hasOwnProperty"; js "isPrototypeOf";
   js "propertyIsEnumerable"; js "toLocaleString"; js "toString";
   js "valueOf"; js "__proto__"; js "__defineGetter__";
   js "__defineSetter__"; js "__lookupGetter__"; js "__lookupSetter__"].

(** What reading a property gives when it is not [undefined]: the string of
    an own property, or what [Object.prototype] has under the name (a
    function; the prototype itself under [__proto__]). *)
Inductive Property :=
| Own (value : jsstring)
| Inherited (name : jsstring).

(** [record[key]], [None] for [undefined]: the own property when there is
    one, the inherited one otherwise. *)
Definition getProperty (record : gmap jsstring jsstring) (key : jsstring)
  : option Property :=
  match record !! key with
  | Some value => Some (Own value)
  | None =>
      if bool_decide (key ∈ objectPrototype) then Some (Inherited key)
      else None
  end.

(** [record[key] = value] for a string [value]: an own property is created
    or overwritten, except under [__proto__], where the assignment goes to
    the setter of [Object.prototype], which ignores a value that is not an
    object. *)
Definition setProperty (record : gmap jsstring jsstring)
           (key value : jsstring) : gmap jsstring jsstring :=
  if bool_decide (key = js "__proto__") then record
  else <[key := value]> record.

(** ** The regular expressions of [cleanToolName] *)

(** The class [\s] of a regular expression without the [u] flag, which is
    also what [String.prototype.trim] strips: WhiteSpace and LineTerminator. *)
Definition is_space (c : codeunit) : bool :=
  ((9 <=? c) && (c <=? 13)) || (c =? 32) || (c =? 160) || (c =? 5760)
  || ((8192 <=? c) && (c <=? 8202)) || (c =? 8232) || (c =? 8233)
  || (c =? 8239) || (c =? 8287) || (c =? 12288) || (c =? 65279).

Definition underscore : codeunit := 95.
Definition hyphen : codeunit := 45.

(** The class [[a-z0-9_-]]. *)
Definition is_name_char (c : codeunit) : bool :=
  ((97 <=? c) && (c <=? 122)) || is_digit c || (c =? underscore)
  || (c =? hyphen).

(** The class [[_-]]. *)
Definition is_sep (c : codeunit) : bool := (c =? underscore) || (c =? hyphen).

Fixpoint dropWhile (P : codeunit -> bool) (s : jsstring) : jsstring :=
  match s with
  | [] => []
  | c :: r => if P c then dropWhile P r else s
  end.

Definition dropWhileEnd (P : codeunit -> bool) (s : jsstring) : jsstring :=
  rev (dropWhile P (rev s)).

(** [s.trim()] *)
Definition trim (s : jsstring) : jsstring :=
  dropWhileEnd is_space (dropWhile is_space s).

(** The maximal runs of [s], each tagged with whether its code units are in
    the class [P]. *)
Definition runs (P : codeunit -> bool) (s : jsstring)
  : list (bool * jsstring) :=
  fold_right
    (fun c acc =>
       match acc with
       | (b, g) :: rest =>
           if Bool.eqb (P c) b then (b, c :: g) :: rest
           else (P c, [c]) :: acc
       | [] => [(P c, [c])]
       end)
    [] s.

(** [s.replace(/[P]{least,}/g, rep)]: a greedy quantifier on one class
    matches exactly the maximal runs of the class that are long enough. *)
Definition replace_runs (P : codeunit -> bool) (least : nat)
           (rep : jsstring) (s : jsstring) : jsstring :=
  concat
    (map (fun '(b, g) =>
            if b && (least <=? length g)%nat then rep else g)
         (runs P s)).

(** [s.replace(/[^P]/g, rep)] for a one-unit [rep]. *)
Definition replace_outside (P : codeunit -> bool) (rep : codeunit)
           (s : jsstring) : jsstring :=
  map (fun c => if P c then c else rep) s.

(** [s.replace(/^[P]+|[P]+$/g, "")] *)
Definition strip_ends (P : codeunit -> bool) (s : jsstring) : jsstring :=
  dropWhileEnd P (dropWhile P s).

(** [s.slice(0, n)] *)
Definition slice0 (n : nat) (s : jsstring) : jsstring := take n s.

(** Lower-casing of the ASCII letters only: what [toLowerCase] does on ASCII
    text. *)
Definition ascii_lower (s : jsstring) : jsstring :=
  map (fun c => if (65 <=? c) && (c <=? 90) then c + 32 else c) s.

(** ** Data model *)

(** A JSON value the code treats as opaque (a schema, the input of a tool
    call), as its serialisation. *)
Abbreviation Json := (list N) (only parsing).

(** [interface ToolDefinition] *)
Record ToolDefinition := {
  td_blockId : jsstring;
  td_name : jsstring;
  td_description : jsstring;
  td_schema : Json }.

(** [interface MCPServer] *)
Record MCPServer := {
  mcp_name : jsstring;
  mcp_url : jsstring;
  mcp_authorizationToken : option jsstring;
  mcp_allowedTools : option (list jsstring) }.

(** [Anthropic.Tool] *)
Record Tool := {
  tool_name : jsstring;
  tool_description : jsstring;
  tool_input_schema : Json }.

Inductive Role := user | assistant.

(** The content blocks of messages, by their [type]. *)
Inductive Block :=
| BText (text : jsstring)
| BToolUse (id name : jsstring) (input : Json)
| BThinking (thinking : jsstring)
| BToolResult (tool_use_id : jsstring) (content : Property)
| BOther (type : jsstring).

(** [BetaMessageParam.content]: a string or an array of blocks. *)
Inductive Content :=
| CString (s : jsstring)
| CBlocks (blocks : list Block).

(** [BetaMessageParam] *)
Record MessageParam := { role : Role; content : Content }.

(** [stop_reason]: the two the code names, and every other one. *)
Inductive StopReason := end_turn | tool_use | other_stop (reason : jsstring).

(** [BetaMessage], the fields the code reads. *)
Record Message := {
  msg_role : Role;
  msg_content : list Block;
  stop_reason : StopReason;
  input_tokens : nat;
  output_tokens : nat }.

(** [force: boolean | string] *)
Inductive Force := ForceBool (b : bool) | ForceName (name : jsstring).

(** The request settings that [executeTurn], [handleModelResponse],
    [continueTurn] and [CallState] hand on unchanged, grouped. [maxTokens],
    [maxRetries], [thinkingBudget] and [temperature] are numbers of the
    configuration; the tokens an answer reports and the turns are counted in
    natural numbers. *)
Record Settings := {
  toolDefinitions : list ToolDefinition;
  force : Force;
  model : jsstring;
  maxTokens : number;
  mcpServers : list MCPServer;
  systemPrompt : option jsstring;
  maxRetries : number;
  schema : option Json;
  thinking : option bool;
  thinkingBudget : option number;
  temperature : option number }.

(** [interface CallState] *)
Record CallState := {
  cs_messages : list MessageParam;
  cs_toolCallIds : list jsstring;
  cs_pendingId : jsstring;
  cs_turn : nat;
  cs_originalEventId : jsstring;
  cs_settings : Settings }.

(** [Error], by its message. *)
Record Error := { message : jsstring }.

(** *** The model API *)

Inductive ToolChoice :=
| ChoiceTool (name : jsstring) (disable_parallel_tool_use : bool)
| ChoiceAny (disable_parallel_tool_use : bool)
| ChoiceAuto (disable_parallel_tool_use : bool).

(** The body of [client.beta.messages.stream]. *)
Record ApiRequest := {
  req_apiKey : jsstring;
  req_max_tokens : number;
  req_temperature : option number;
  req_system : option jsstring;
  req_model : jsstring;
  req_messages : list MessageParam;
  req_tools : list Tool;
  (** [budget_tokens] of [thinking], when it is enabled *)
  req_thinking : option number;
  req_mcp_servers : option (list MCPServer);
  req_tool_choice : option ToolChoice }.

(** The events of a stream that [syncPendingEventWithStream] looks at:
    [content_block_start] by the type of its block, and all others. *)
Inductive StreamEvent :=
| SMcpToolUse (name server_name id : jsstring)
| SMcpToolResult (tool_use_id : jsstring)
| SText
| SThinking
| SOtherBlock
| SOtherEvent.

(** What one request does: the events streamed, then the final message or an
    error. *)
Record ApiOutcome := {
  streamed : list StreamEvent;
  final : Error + Message }.

(** *** The key-value store, timers and outbound effects *)

(** The values the block stores. *)
Inductive KvValue :=
| VCallState (cs : CallState)
| VToolResult (toolCallId : jsstring) (result : jsstring)
| VTimerId (id : nat)
| VTrue.

(** A stored entry with its time to live in seconds, when it has one. Time
    does not pass in the model: no entry expires. *)
Record KvEntry := { kv_value : KvValue; kv_ttl : option nat }.

(** What the block sends out. *)
Inductive Effect :=
| CreatePending (pendingId statusDescription : jsstring)
| UpdatePending (pendingId statusDescription : jsstring)
| CancelPending (pendingId reason : jsstring)
| Emit (text : option jsstring) (object : option Json)
       (inputTokens outputTokens : nat) (complete parentEventId : jsstring)
| SendToBlocks (blockId eventId : jsstring) (parameters : Json)
               (toolCallId : jsstring) (blockIds : list (option jsstring))
| ApiCall (request : ApiRequest)
| Sleep (ms : N).

Record World := {
  kv : gmap jsstring KvEntry;
  (** the scheduled timers, each with the [eventId] of its payload *)
  timers : gmap nat jsstring;
  (** the source of fresh timer and pending-event identifiers *)
  next_id : nat;
  (** the number of requests sent to the model API *)
  api_calls : nat;
  (** the outbound effects, oldest first *)
  effects : list Effect }.

(** ** Computations that may throw *)

Inductive Result (A : Type) :=
| Return (a : A)
| Throw (e : Error).
Arguments Return {A} a.
Arguments Throw {A} e.

Definition M (A : Type) : Type := World -> Result A * World.

Definition ret {A} (a : A) : M A := fun w => (Return a, w).

Definition throw {A} (e : Error) : M A := fun w => (Throw e, w).

Definition bind {A B} (m : M A) (f : A -> M B) : M B :=
  fun w =>
    match m w with
    | (Return a, w') => f a w'
    | (Throw e, w') => (Throw e, w')
    end.

(** [try { a = await m } catch (e) { handler e }], then [k a] outside of the
    [try]. *)
Definition try_catch {A B} (m : M A) (k : A -> M B) (handler : Error -> M B)
  : M B :=
  fun w =>
    match m w with
    | (Return a, w') => k a w'
    | (Throw e, w') => handler e w'
    end.

Declare Scope js_scope.
Delimit Scope js_scope with js_m.
Notation "x <- m ;; k" := (bind m (fun x => k))
  (at level 100, m at next level, right associativity) : js_scope.
Notation "m ;;; k" := (bind m (fun _ => k))
  (at level 100, right associativity) : js_scope.
Local Open Scope js_scope.

Definition when (b : bool) (m : M unit) : M unit := if b then m else ret tt.

Fixpoint forEach {A} (l : list A) (f : A -> M unit) : M unit :=
  match l with
  | [] => ret tt
  | a :: r => f a ;;; forEach r f
  end.

(** ** The host: what the repository calls and does not define *)

Class Host := {
  (** [String.prototype.toLowerCase], the Unicode case mapping of the
      engine *)
  toLowerCase : jsstring -> jsstring;
  (** [new Validator().validate(input, schema)] of the jsonschema package:
      whether [errors] is empty, or the error that [validate] throws (a
      schema that it cannot resolve) *)
  validate : Json -> Json -> Error + bool;
  (** the outcome of the n-th request sent to the model API *)
  api : nat -> ApiOutcome }.

(** *** The SDK of the platform: [kv.block], [timers], [events], [messaging]

    The calls of the SDK are taken not to fail. *)

(** [kv.block.get(key)], the [value] of the answer *)
Definition kv_get (key : jsstring) : M (option KvValue) :=
  fun w => (Return (kv_value <$> kv w !! key), w).

(** [kv.block.set({key, value, ttl})] *)
Definition kv_set (key : jsstring) (value : KvValue) (ttl : option nat)
  : M unit :=
  fun w =>
    (Return tt,
     {| kv := <[key := {| kv_value := value; kv_ttl := ttl |}]> (kv w);
        timers := timers w; next_id := next_id w; api_calls := api_calls w;
        effects := effects w |}).

(** [kv.block.delete([key])] *)
Definition kv_delete (key : jsstring) : M unit :=
  fun w =>
    (Return tt,
     {| kv := delete key (kv w);
        timers := timers w; next_id := next_id w; api_calls := api_calls w;
        effects := effects w |}).

(** The pairs of the store whose key starts with [keyPrefix]. *)
Definition pairsWithPrefix (keyPrefix : jsstring)
           (store : gmap jsstring KvEntry) : list (jsstring * KvValue) :=
  omap (fun '(k, e) =>
          if startsWith keyPrefix k then Some (k, kv_value e) else None)
       (map_to_list store).

(** [kv.block.list({keyPrefix})], the [pairs] of the answer: every pair
    under the prefix, in the order the store lists them. *)
Definition kv_list (keyPrefix : jsstring) : M (list (jsstring * KvValue)) :=
  fun w => (Return (pairsWithPrefix keyPrefix (kv w)), w).

(** [timers.set(seconds, {inputPayload: {eventId}})]: schedules a timer of
    its own and answers its identifier. *)
Definition timers_set (seconds : nat) (eventId : jsstring) : M nat :=
  fun w =>
    (Return (next_id w),
     {| kv := kv w;
        timers := <[next_id w := eventId]> (timers w);
        next_id := S (next_id w); api_calls := api_calls w;
        effects := effects w |}).

(** [timers.unset(id)] *)
Definition timers_unset (id : nat) : M unit :=
  fun w =>
    (Return tt,
     {| kv := kv w; timers := delete id (timers w);
        next_id := next_id w; api_calls := api_calls w;
        effects := effects w |}).

(** The world with one more effect issued. *)
Definition issued (e : Effect) (w : World) : World :=
  {| kv := kv w; timers := timers w; next_id := next_id w;
     api_calls := api_calls w; effects := effects w ++ [e] |}.

Definition perform (e : Effect) : M unit :=
  fun w => (Return tt, issued e w).

(** [events.createPending({statusDescription})] *)
Definition events_createPending (statusDescription : jsstring)
  : M jsstring :=
  fun w =>
    let pendingId := template [js "pending-"; decimal (next_id w)] in
    (Return pendingId,
     {| kv := kv w; timers := timers w; next_id := S (next_id w);
        api_calls := api_calls w;
        effects := effects w ++ [CreatePending pendingId statusDescription] |}).

Definition events_updatePending (pendingId statusDescription : jsstring)
  : M unit := perform (UpdatePending pendingId statusDescription).

Definition events_cancelPending (pendingId reason : jsstring) : M unit :=
  perform (CancelPending pendingId reason).

(** [new Promise((resolve) => setTimeout(resolve, delay))] *)
Definition sleep (ms : N) : M unit := perform (Sleep ms).

(** ** [blocks/utils.ts] *)

Section Utils.
Context `{Host}.

(** [`"${s}"`] *)
Definition quoted (s : jsstring) : jsstring := template [[34]; s; [34]].

(** [parts.join(sep)] *)
Fixpoint join (sep : jsstring) (parts : list jsstring) : jsstring :=
  match parts with
  | [] => []
  | [p] => p
  | p :: rest => p ++ sep ++ join sep rest
  end.

(** [`${record[key]}`]: a missing property prints as [undefined]. *)
Definition property_text (record : gmap jsstring jsstring) (key : jsstring)
  : jsstring := default (js "undefined") (record !! key).

Definition is_tool_use (b : Block) : bool :=
  match b with BToolUse _ _ _ => true | _ => false end.

Definition block_name (b : Block) : jsstring :=
  match b with BToolUse _ name _ => name | _ => [] end.

Definition block_id (b : Block) : jsstring :=
  match b with BToolUse id _ _ => id | _ => [] end.

Definition block_input (b : Block) : Json :=
  match b with BToolUse _ _ input => input | _ => [] end.

Definition joinToolNames (toolCalls : list Block)
           (toolNames : gmap jsstring jsstring) : jsstring :=
  match toolCalls with
  | [] => []
  | [toolCall] => quoted (property_text toolNames (block_name toolCall))
  | _ =>
      template
        [join (js ", ")
           (map (fun toolCall =>
                   quoted (property_text toolNames (block_name toolCall)))
                (removelast toolCalls));
         js " and ";
         quoted
           (property_text toolNames
              (block_name (List.last toolCalls (BOther []))))]
  end.

(** The parameters of [streamMessage]; the optional ones are absent in the
    call of [generateObject]. *)
Record StreamParams := {
  sp_apiKey : jsstring;
  sp_model : jsstring;
  sp_maxTokens : number;
  sp_temperature : option number;
  sp_messages : list MessageParam;
  sp_systemPrompt : option jsstring;
  sp_tools : list Tool;
  sp_mcpServers : list MCPServer;
  sp_force : Force;
  sp_thinking : option bool;
  sp_thinkingBudget : option number }.

Definition stream_request (params : StreamParams) : ApiRequest :=
  let tools := sp_tools params in
  let has_tools := (0 <? length tools)%nat in
  let shouldCallSpecificTool :=
    has_tools && match sp_force params with ForceName _ => true | _ => false end in
  let shouldCallAnyTool :=
    has_tools && match sp_force params with ForceBool true => true | _ => false end in
  let hasMCPServers := (0 <? length (sp_mcpServers params))%nat in
  {| req_apiKey := sp_apiKey params;
     req_max_tokens := sp_maxTokens params;
     req_temperature := sp_temperature params;
     req_system := sp_systemPrompt params;
     req_model := sp_model params;
     req_messages := sp_messages params;
     req_tools := tools;
     req_thinking :=
       match sp_thinking params, sp_thinkingBudget params with
       | Some true, Some budget =>
           if truthy_number budget then Some budget else None
       | _, _ => None
       end;
     req_mcp_servers :=
       if hasMCPServers then Some (sp_mcpServers params) else None;
     req_tool_choice :=
       if has_tools then
         match sp_force params with
         | ForceName name => Some (ChoiceTool name hasMCPServers)
         | ForceBool true => Some (ChoiceAny hasMCPServers)
         | ForceBool false => Some (ChoiceAuto hasMCPServers)
         end
       else None |}.

(** The world with one more request sent to the model API. *)
Definition sent (request : ApiRequest) (w : World) : World :=
  {| kv := kv w; timers := timers w; next_id := next_id w;
     api_calls := S (api_calls w);
     effects := effects w ++ [ApiCall request] |}.

(** [streamMessage]: sends the request; the stream it answers is the outcome
    the API has for this request. *)
Definition streamMessage (params : StreamParams) : M ApiOutcome :=
  fun w => (Return (api (api_calls w)), sent (stream_request params) w).

(** [stream.finalMessage()] *)
Definition finalMessage (stream : ApiOutcome) : M Message :=
  match final stream with
  | inr message => ret message
  | inl e => throw e
  end.

Record AppConfig := {
  anthropicApiKey : option jsstring;
  defaultModel : option jsstring }.

Record InputConfig := {
  ic_model : option jsstring;
  ic_prompt : jsstring;
  ic_maxTokens : number;
  ic_systemPrompt : option jsstring;
  ic_force : Force;
  ic_thinking : option bool;
  ic_thinkingBudget : option number;
  ic_schema : option Json;
  ic_maxRetries : option number;
  ic_temperature : option number;
  ic_toolDefinitions : option (list ToolDefinition);
  ic_mcpServers : option (list MCPServer) }.

(** A string is truthy when it is not empty. *)
Definition truthy_string (s : option jsstring) : bool :=
  match s with Some (_ :: _) => true | _ => false end.

(** [validateConfig]: the API key, the prompt and the settings, or the error
    thrown. *)
Definition validateConfig (appConfig : AppConfig) (inputConfig : InputConfig)
  : Error + (jsstring * jsstring * Settings) :=
  if negb (truthy_string (anthropicApiKey appConfig)) then
    inl {| message := js "Anthropic API key is required" |}
  else
    let model :=
      match ic_model inputConfig with
      | Some m => Some m
      | None => defaultModel appConfig
      end in
    if negb (truthy_string model) then
      inl {| message := js "Model is required" |}
    else if
      match ic_thinking inputConfig with
      | Some true =>
          match ic_thinkingBudget inputConfig with
          | Some budget =>
              negb (truthy_number budget)
              || ge budget (ic_maxTokens inputConfig)
          | None => true
          end
      | _ => false
      end
    then
      inl {| message :=
               js "You need to set thinking budget to a value less than max tokens" |}
    else
      inr (default [] (anthropicApiKey appConfig),
           ic_prompt inputConfig,
           {| toolDefinitions := default [] (ic_toolDefinitions inputConfig);
              force := ic_force inputConfig;
              model := default [] model;
              maxTokens := ic_maxTokens inputConfig;
              mcpServers := default [] (ic_mcpServers inputConfig);
              systemPrompt := ic_systemPrompt inputConfig;
              maxRetries := default 1%Q (ic_maxRetries inputConfig);
              schema := ic_schema inputConfig;
              thinking := ic_thinking inputConfig;
              thinkingBudget := ic_thinkingBudget inputConfig;
              temperature := ic_temperature inputConfig |}).

Definition cleanToolName (name : jsstring) : jsstring :=
  slice0 64
    (strip_ends is_sep
       (replace_runs is_sep 2 [underscore]
          (replace_outside is_name_char underscore
             (replace_runs is_space 1 [underscore]
                (toLowerCase (trim name)))))).

(** [processToolDefinitions]: [tools], [toolNames] and [toolBlockIds]; a
    later definition with the same cleaned name overwrites the entries of an
    earlier one. *)
Fixpoint processToolDefinitions_from
         (tools : list Tool) (toolNames toolBlockIds : gmap jsstring jsstring)
         (toolDefinitions : list ToolDefinition)
  : list Tool * gmap jsstring jsstring * gmap jsstring jsstring :=
  match toolDefinitions with
  | [] => (tools, toolNames, toolBlockIds)
  | toolDefinition :: rest =>
      let cleanedName := cleanToolName (td_name toolDefinition) in
      processToolDefinitions_from
        (tools ++ [{| tool_name := cleanedName;
                      tool_description := td_description toolDefinition;
                      tool_input_schema := td_schema toolDefinition |}])
        (<[cleanedName := td_name toolDefinition]> toolNames)
        (<[cleanedName := td_blockId toolDefinition]> toolBlockIds)
        rest
  end.

Definition processToolDefinitions (toolDefinitions : list ToolDefinition) :=
  processToolDefinitions_from [] ∅ ∅ toolDefinitions.

(** The tool the stream last announced, in [syncPendingEventWithStream]. *)
Record LastTool := {
  lt_name : jsstring;
  lt_serverName : jsstring;
  lt_id : jsstring }.

Fixpoint syncPendingEvents (pendingId : jsstring) (lastTool : option LastTool)
         (events : list StreamEvent) : M unit :=
  match events with
  | [] => ret tt
  | event :: rest =>
      match event with
      | SMcpToolUse name server_name id =>
          events_updatePending pendingId
            (template [js "Calling "; quoted name; js " on ";
                       quoted server_name]) ;;;
          syncPendingEvents pendingId
            (Some {| lt_name := name; lt_serverName := server_name;
                     lt_id := id |})
            rest
      | SMcpToolResult tool_use_id =>
          when
            match lastTool with
            | Some t => bool_decide (lt_id t = tool_use_id)
            | None => false
            end
            (events_updatePending pendingId
               (template
                  [js "Received result of ";
                   quoted (from_option lt_name [] lastTool);
                   js " from ";
                   quoted (from_option lt_serverName [] lastTool)])) ;;;
          syncPendingEvents pendingId lastTool rest
      | SText =>
          events_updatePending pendingId (js "Processing...") ;;;
          syncPendingEvents pendingId lastTool rest
      | SThinking =>
          events_updatePending pendingId (js "Thinking...") ;;;
          syncPendingEvents pendingId lastTool rest
      | SOtherBlock | SOtherEvent =>
          syncPendingEvents pendingId lastTool rest
      end
  end.

(** [syncPendingEventWithStream]: a stream that fails rejects the iteration
    after the events it delivered. *)
Definition syncPendingEventWithStream (pendingId : jsstring)
           (stream : ApiOutcome) : M unit :=
  syncPendingEvents pendingId None (streamed stream) ;;;
  match final stream with
  | inl e => throw e
  | inr _ => ret tt
  end.

Definition emitResult (pendingId : jsstring) (text : option jsstring)
           (object : option Json) (inputTokens outputTokens : nat)
           (parentEventId : jsstring) : M unit :=
  perform (Emit text object inputTokens outputTokens pendingId parentEventId).

(** [msg.content] without its [thinking] blocks, when it is an array *)
Definition withoutThinking (msg : MessageParam) : MessageParam :=
  {| role := role msg;
     content :=
       match content msg with
       | CBlocks blocks =>
           CBlocks
             (List.filter
                (fun block =>
                   match block with BThinking _ => false | _ => true end)
                blocks)
       | CString s => CString s
       end |}.

(** The parameters of [generateObject] that stay the same over its loop. *)
Record ObjectParams := {
  op_apiKey : jsstring;
  op_model : jsstring;
  op_maxTokens : number;
  op_messages : list MessageParam;
  op_schema : Json;
  op_maxRetries : number;
  op_pendingId : jsstring;
  op_parentEventId : jsstring }.

(** What follows the loop of [generateObject]. *)
Definition generateObject_failed (params : ObjectParams)
           (lastError : option Error) : M unit :=
  events_cancelPending (op_pendingId params)
    match lastError with
    | Some e => template [js "Object generation failed: "; message e]
    | None => js "Failed to generate object"
    end ;;;
  match lastError with
  | Some e => throw e
  | None => ret tt
  end.

(** The input of the first [tool_use] block when the message stopped for
    tool use and the input validates against the schema; the error when the
    validator throws. *)
Definition validObject (params : ObjectParams) (message : Message)
  : Error + option Json :=
  match stop_reason message with
  | tool_use =>
      match List.find is_tool_use (msg_content message) with
      | Some toolCall =>
          match validate (block_input toolCall) (op_schema params) with
          | inl error => inl error
          | inr true => inr (Some (block_input toolCall))
          | inr false => inr None
          end
      | None => inr None
      end
  | _ => inr None
  end.

(** The request of an attempt of [generateObject]: the messages without
    their thinking blocks, the one tool [json] and its use forced. *)
Definition objectStreamParams (params : ObjectParams) : StreamParams :=
  {| sp_apiKey := op_apiKey params;
     sp_model := op_model params;
     sp_maxTokens := op_maxTokens params;
     sp_temperature := None;
     sp_messages := map withoutThinking (op_messages params);
     sp_systemPrompt := None;
     sp_tools :=
       [{| tool_name := js "json";
           tool_description := js "Respond with a JSON object.";
           tool_input_schema := op_schema params |}];
     sp_mcpServers := [];
     sp_force := ForceName (js "json");
     sp_thinking := None;
     sp_thinkingBudget := None |}.

Definition objectStatus (retryCount : nat) : jsstring :=
  if (retryCount =? 0)%nat then js "Generating object..."
  else template [js "Generating object... (retry ";
                 decimal (retryCount + 1); js ")"].

(** The loop of [generateObject], with [remaining] the number of iterations
    that [retryCount < maxRetries] still allows, [attempts maxRetries] at the
    start. What the [try] block throws goes to [caught]: the error of the
    request, with the tokens as they were, or the error of the validator,
    with the tokens of the answer already added. *)
Fixpoint generateObject_loop (finalText : jsstring) (params : ObjectParams)
         (remaining : nat) (retryCount inputTokens outputTokens : nat)
         (lastError : option Error) : M unit :=
  match remaining with
  | O => generateObject_failed params lastError
  | S remaining' =>
      let caught (error : Error) (inputTokens outputTokens : nat) : M unit :=
        let retryCount := S retryCount in
        if ge (of_nat retryCount) (op_maxRetries params)
        then generateObject_failed params (Some error)
        else generateObject_loop finalText params remaining'
               retryCount inputTokens outputTokens (Some error) in
      try_catch
        (events_updatePending (op_pendingId params)
           (objectStatus retryCount) ;;;
         stream <- streamMessage (objectStreamParams params) ;;
         finalMessage stream)
        (fun message =>
           let inputTokens := (inputTokens + input_tokens message)%nat in
           let outputTokens := (outputTokens + output_tokens message)%nat in
           match validObject params message with
           | inr (Some object) =>
               emitResult (op_pendingId params) (Some finalText) (Some object)
                 inputTokens outputTokens (op_parentEventId params)
           | inr None =>
               generateObject_loop finalText params remaining'
                 (S retryCount) inputTokens outputTokens lastError
           | inl error => caught error inputTokens outputTokens
           end)
        (fun error => caught error inputTokens outputTokens)
  end.

Definition generateObject (finalText : jsstring) (params : ObjectParams)
           (inputTokens outputTokens : nat) : M unit :=
  generateObject_loop finalText params (attempts (op_maxRetries params)) 0
    inputTokens outputTokens None.

(** *** The keys of the store *)

Definition callKey (eventId : jsstring) : jsstring :=
  template [js "call-"; eventId].

Definition resultPrefix (eventId : jsstring) (turn : nat) : jsstring :=
  template [js "result-"; eventId; js "-"; decimal turn; js "-"].

Definition resultKey (eventId : jsstring) (turn : nat)
           (toolCallId : jsstring) : jsstring :=
  template [js "result-"; eventId; js "-"; decimal turn; js "-"; toolCallId].

Definition timerKey (eventId : jsstring) : jsstring :=
  template [js "timer-"; eventId].

Definition lockKey (eventId : jsstring) : jsstring :=
  template [js "lock-"; eventId].

(** *** The durable turn store *)

Definition storeCallState (eventId : jsstring) (state : CallState) : M unit :=
  kv_set (callKey eventId) (VCallState state) None.

(** [loadCallState]. Only [storeCallState] writes under a [call-] key, so a
    value of another shape is not found there; it is treated as absent. *)
Definition loadCallState (eventId : jsstring) : M CallState :=
  value <- kv_get (callKey eventId) ;;
  match value with
  | Some (VCallState state) => ret state
  | _ => throw {| message := js "Call state not found" |}
  end.

Definition deleteCallState (eventId : jsstring) : M unit :=
  kv_delete (callKey eventId).

(** [storeToolResult]. The payload is a string: the tool block serialises
    what is not one before it sends the message. *)
Definition storeToolResult (eventId toolCallId result : jsstring)
           (turn : nat) : M unit :=
  kv_set (resultKey eventId turn toolCallId) (VToolResult toolCallId result)
         (Some (60 * 5)%nat).

(** The [reduce] of [loadToolResults]: each pair sets the property
    [value.toolCallId] of the accumulator, a plain object. Only
    [storeToolResult] writes under a [result-] key; a value of another shape
    would set no property that [typeof] sees, and is skipped. *)
Definition collectResults (pairs : list (jsstring * KvValue))
  : gmap jsstring jsstring :=
  foldl (fun acc pair =>
           match snd pair with
           | VToolResult toolCallId result => setProperty acc toolCallId result
           | _ => acc
           end)
        ∅ pairs.

(** [typeof toolResults[toolCallId] !== "undefined"] *)
Definition hasResult (toolResults : gmap jsstring jsstring)
           (toolCallId : jsstring) : bool :=
  bool_decide (is_Some (getProperty toolResults toolCallId)).

Definition loadToolResults (eventId : jsstring) (turn : nat)
           (toolCallIds : list jsstring)
  : M (bool * gmap jsstring jsstring) :=
  pairs <- kv_list (resultPrefix eventId turn) ;;
  let toolResults := collectResults pairs in
  let haveAllResults := forallb (hasResult toolResults) toolCallIds in
  ret (haveAllResults, toolResults).

(** *** Timeouts *)

Definition setTimeoutTimer (eventId : jsstring) : M unit :=
  id <- timers_set (60 * 2) eventId ;;
  kv_set (timerKey eventId) (VTimerId id) None.

(** [clearTimeoutTimer]: a timer identifier is a truthy value. *)
Definition clearTimeoutTimer (eventId : jsstring) : M unit :=
  value <- kv_get (timerKey eventId) ;;
  match value with
  | Some (VTimerId id) => timers_unset id
  | _ => ret tt
  end.

(** *** The race guard *)

(** [isTimerLocked]: every value the block stores is truthy. *)
Definition isTimerLocked (eventId : jsstring) : M bool :=
  value <- kv_get (lockKey eventId) ;;
  ret (bool_decide (is_Some value)).

Definition setTimerLock (eventId : jsstring) : M unit :=
  kv_set (lockKey eventId) VTrue (Some (60 * 5)%nat).

Definition clearTimerLock (eventId : jsstring) : M unit :=
  kv_delete (lockKey eventId).

(** *** The turn executor *)

(** The parameters of [executeTurn] and [handleModelResponse]. *)
Record TurnParams := {
  tp_pendingId : jsstring;
  tp_eventId : jsstring;
  tp_blockId : jsstring;
  tp_messages : list MessageParam;
  tp_turn : nat;
  tp_apiKey : jsstring;
  tp_settings : Settings }.

Definition is_text (b : Block) : bool :=
  match b with BText _ => true | _ => false end.

(** [message.content.findLast((c) => c.type === "text")?.text], when it is
    truthy *)
Definition lastText (message : Message) : option jsstring :=
  match List.find is_text (rev (msg_content message)) with
  | Some (BText (c :: text)) => Some (c :: text)
  | _ => None
  end.

Definition handleModelResponse (message : Message) (params : TurnParams)
  : M unit :=
  let settings := tp_settings params in
  let '(_, toolNames, toolBlockIds) :=
    processToolDefinitions (toolDefinitions settings) in
  match stop_reason message with
  | end_turn =>
      match lastText message with
      | None => throw {| message := js "Model did not respond with text" |}
      | Some text =>
          match schema settings with
          | Some schema =>
              generateObject text
                {| op_apiKey := tp_apiKey params;
                   op_model := model settings;
                   op_maxTokens := maxTokens settings;
                   op_messages :=
                     tp_messages params
                     ++ [{| role := msg_role message;
                            content := CBlocks (msg_content message) |}];
                   op_schema := schema;
                   op_maxRetries := maxRetries settings;
                   op_pendingId := tp_pendingId params;
                   op_parentEventId := tp_eventId params |}
                (input_tokens message) (output_tokens message)
          | None =>
              emitResult (tp_pendingId params) (Some text) None
                (input_tokens message) (output_tokens message)
                (tp_eventId params)
          end
      end
  | tool_use =>
      let toolCalls := List.filter is_tool_use (msg_content message) in
      let toolCallNames := joinToolNames toolCalls toolNames in
      events_updatePending (tp_pendingId params)
        (if (length toolCalls =? 1)%nat
         then template [js "Calling tool: "; toolCallNames]
         else template [js "Calling tools: "; toolCallNames]) ;;;
      forEach toolCalls
        (fun toolCall =>
           perform
             (SendToBlocks (tp_blockId params) (tp_eventId params)
                (block_input toolCall) (block_id toolCall)
                [toolBlockIds !! block_name toolCall])) ;;;
      storeCallState (tp_eventId params)
        {| cs_messages :=
             tp_messages params
             ++ [{| role := msg_role message;
                    content := CBlocks (msg_content message) |}];
           cs_toolCallIds := map block_id toolCalls;
           cs_pendingId := tp_pendingId params;
           cs_turn := tp_turn params + 1;
           cs_originalEventId := tp_eventId params;
           cs_settings := settings |} ;;;
      setTimeoutTimer (tp_eventId params)
  | other_stop _ =>
      events_cancelPending (tp_pendingId params)
        (js "Unexpected response from model") ;;;
      deleteCallState (tp_eventId params)
  end.

(** [isRetryable] of the [catch] of [executeTurn] *)
Definition isRetryable (lastError : Error) : bool :=
  let errorMessage := toLowerCase (message lastError) in
  includes (js "overloaded") errorMessage
  || includes (js "rate limit") errorMessage
  || includes (js "timeout") errorMessage
  || includes (js "502") errorMessage
  || includes (js "503") errorMessage
  || includes (js "504") errorMessage.

(** [Math.min(1000 * Math.pow(2, retryCount - 1), 10000)] *)
Definition backoffDelay (retryCount : nat) : N :=
  N.min (1000 * 2 ^ N.of_nat (retryCount - 1)) 10000.

(** What follows the loop of [executeTurn]. *)
Definition executeTurn_failed (params : TurnParams)
           (lastError : option Error) : M unit :=
  events_cancelPending (tp_pendingId params)
    (template
       [js "API call failed: ";
        match lastError with
        | Some {| message := c :: m |} => c :: m
        | _ => js "Unknown error"
        end]) ;;;
  deleteCallState (tp_eventId params) ;;;
  throw (default {| message := js "Unknown error" |} lastError).

(** The request of an attempt of [executeTurn]. *)
Definition turnStreamParams (params : TurnParams) : StreamParams :=
  let settings := tp_settings params in
  let '(tools, _, _) := processToolDefinitions (toolDefinitions settings) in
  {| sp_apiKey := tp_apiKey params;
     sp_model := model settings;
     sp_maxTokens := maxTokens settings;
     sp_temperature := temperature settings;
     sp_messages := tp_messages params;
     sp_systemPrompt := systemPrompt settings;
     sp_tools := tools;
     sp_mcpServers := mcpServers settings;
     sp_force := force settings;
     sp_thinking := thinking settings;
     sp_thinkingBudget := thinkingBudget settings |}.

Definition retryStatus (retryCount : nat) : jsstring :=
  template [js "Retrying API call... (attempt ";
            decimal (retryCount + 1); js ")"].

(** The loop of [executeTurn], with [remaining] the number of iterations
    that [retryCount < maxRetries] still allows, [attempts maxRetries] at the
    start. [handleModelResponse] is returned without [await]: what it throws
    is not caught by the loop. *)
Fixpoint executeTurn_loop (params : TurnParams) (remaining : nat)
         (retryCount : nat) (lastError : option Error) : M unit :=
  match remaining with
  | O => executeTurn_failed params lastError
  | S remaining' =>
      try_catch
        (when (0 <? retryCount)%nat
           (events_updatePending (tp_pendingId params)
              (retryStatus retryCount)) ;;;
         stream <- streamMessage (turnStreamParams params) ;;
         syncPendingEventWithStream (tp_pendingId params) stream ;;;
         finalMessage stream)
        (fun message => handleModelResponse message params)
        (fun error =>
           let retryCount := S retryCount in
           if negb (isRetryable error)
              || ge (of_nat retryCount) (maxRetries (tp_settings params))
           then executeTurn_failed params (Some error)
           else
             sleep (backoffDelay retryCount) ;;;
             executeTurn_loop params remaining' retryCount (Some error))
  end.

Definition executeTurn (params : TurnParams) : M unit :=
  executeTurn_loop params (attempts (maxRetries (tp_settings params))) 0
    None.

(** [continueTurn]: a tool call whose result reads as [undefined] gets no
    block. *)
Definition continueTurn (params : TurnParams) (toolCallIds : list jsstring)
           (toolResults : gmap jsstring jsstring) : M unit :=
  events_updatePending (tp_pendingId params)
    (template [js "Received results from tool";
               if (length toolCallIds =? 1)%nat then [] else js "s";
               js "..."]) ;;;
  let nextMessages :=
    tp_messages params
    ++ [{| role := user;
           content :=
             CBlocks
               (omap (fun id => BToolResult id <$> getProperty toolResults id)
                     toolCallIds) |}] in
  executeTurn
    {| tp_pendingId := tp_pendingId params;
       tp_eventId := tp_eventId params;
       tp_blockId := tp_blockId params;
       tp_messages := nextMessages;
       tp_turn := tp_turn params;
       tp_apiKey := tp_apiKey params;
       tp_settings := tp_settings params |}.

End Utils.

(** ** [blocks/generateMessage.ts]: the handlers of the block *)

Section GenerateMessage.
Context `{Host}.

(** What [onEvent] reads of its input. *)
Record EventInput := {
  ev_appConfig : AppConfig;
  ev_inputConfig : InputConfig;
  ev_id : jsstring;
  ev_blockId : jsstring }.

Definition onEvent (input : EventInput) : M unit :=
  match validateConfig (ev_appConfig input) (ev_inputConfig input) with
  | inl e => throw e
  | inr (apiKey, prompt, settings) =>
      pendingId <- events_createPending (js "Calling Anthropic model...") ;;
      executeTurn
        {| tp_pendingId := pendingId;
           tp_eventId := ev_id input;
           tp_blockId := ev_blockId input;
           tp_messages := [{| role := user; content := CString prompt |}];
           tp_turn := 0;
           tp_apiKey := apiKey;
           tp_settings := settings |}
  end.

(** What [onTimer] reads of its input: [input.timer.payload.eventId],
    [input.app.config.anthropicApiKey] and [input.block.id]. *)
Record TimerInput := {
  ti_eventId : jsstring;
  ti_apiKey : jsstring;
  ti_blockId : jsstring }.

(** The parameters of [continueTurn] that the two handlers build from the
    stored call state. *)
Definition resumeParams (state : CallState) (eventId apiKey blockId : jsstring)
  : TurnParams :=
  {| tp_pendingId := cs_pendingId state;
     tp_eventId := eventId;
     tp_blockId := blockId;
     tp_messages := cs_messages state;
     tp_turn := cs_turn state;
     tp_apiKey := apiKey;
     tp_settings := cs_settings state |}.

Definition onTimer (input : TimerInput) : M unit :=
  let eventId := ti_eventId input in
  setTimerLock eventId ;;;
  state <- loadCallState eventId ;;
  loaded <- loadToolResults eventId (cs_turn state) (cs_toolCallIds state) ;;
  let '(haveAllResults, toolResults) := loaded in
  if negb haveAllResults then
    clearTimerLock eventId ;;;
    events_cancelPending (cs_pendingId state) (js "Timeout")
  else
    continueTurn
      (resumeParams state eventId (ti_apiKey input) (ti_blockId input))
      (cs_toolCallIds state) toolResults ;;;
    clearTimerLock eventId.

(** What [onInternalMessage] reads of its input: the body of the message,
    [input.app.config.anthropicApiKey] and [input.block.id]. *)
Record MessageInput := {
  mi_result : jsstring;
  mi_eventId : jsstring;
  mi_toolCallId : jsstring;
  mi_apiKey : jsstring;
  mi_blockId : jsstring }.

Definition onInternalMessage (input : MessageInput) : M unit :=
  let eventId := mi_eventId input in
  locked <- isTimerLocked eventId ;;
  if locked then ret tt
  else
    state <- loadCallState eventId ;;
    clearTimeoutTimer eventId ;;;
    storeToolResult eventId (mi_toolCallId input) (mi_result input)
      (cs_turn state) ;;;
    loaded <- loadToolResults eventId (cs_turn state) (cs_toolCallIds state) ;;
    let '(haveAllResults, toolResults) := loaded in
    if negb haveAllResults then setTimeoutTimer eventId
    else
      continueTurn
        (resumeParams state eventId (mi_apiKey input) (mi_blockId input))
        (cs_toolCallIds state) toolResults.

(** *** Handlers that overlap

    The handlers are asynchronous: one that waits at an [await] lets another
    run. A [Task] is a handler under way, cut at its calls of the SDK; a turn
    ([continueTurn], [executeTurn]) is taken in one piece, so that every
    order of steps of tasks is an order in which the code can run. *)

Inductive Task :=
| Finished (result : Result unit)
| Await {A : Type} (call : M A) (rest : A -> Task).

(** The task run to its end, no other in between. *)
Fixpoint alone (task : Task) : M unit :=
  match task with
  | Finished result => fun w => (result, w)
  | Await call rest =>
      fun w =>
        match call w with
        | (Return a, w') => alone (rest a) w'
        | (Throw e, w') => (Throw e, w')
        end
  end.

(** The task run up to its next [await]. *)
Definition advance (task : Task) (w : World) : Task * World :=
  match task with
  | Finished _ => (task, w)
  | Await call rest =>
      match call w with
      | (Return a, w') => (rest a, w')
      | (Throw e, w') => (Finished (Throw e), w')
      end
  end.

(** [onInternalMessage], await by await: [isTimerLocked], [loadCallState],
    the two calls of [clearTimeoutTimer], [storeToolResult],
    [loadToolResults], then the two calls of [setTimeoutTimer] or the turn. *)
Definition onInternalMessage_task (input : MessageInput) : Task :=
  let eventId := mi_eventId input in
  Await (kv_get (lockKey eventId)) (fun value =>
  if bool_decide (is_Some value) then Finished (Return tt) else
  Await (kv_get (callKey eventId)) (fun value =>
  match value with
  | Some (VCallState state) =>
      Await (kv_get (timerKey eventId)) (fun value =>
      Await (match value with
             | Some (VTimerId id) => timers_unset id
             | _ => ret tt
             end) (fun _ =>
      Await (storeToolResult eventId (mi_toolCallId input) (mi_result input)
               (cs_turn state)) (fun _ =>
      Await (loadToolResults eventId (cs_turn state) (cs_toolCallIds state))
            (fun loaded =>
      let '(haveAllResults, toolResults) := loaded in
      if negb haveAllResults then
        Await (timers_set (60 * 2) eventId) (fun id =>
        Await (kv_set (timerKey eventId) (VTimerId id) None) (fun _ =>
        Finished (Return tt)))
      else
        Await (continueTurn
                 (resumeParams state eventId (mi_apiKey input)
                               (mi_blockId input))
                 (cs_toolCallIds state) toolResults) (fun _ =>
        Finished (Return tt))))))
  | _ => Finished (Throw {| message := js "Call state not found" |})
  end)).

(** [onTimer], await by await. *)
Definition onTimer_task (input : TimerInput) : Task :=
  let eventId := ti_eventId input in
  Await (setTimerLock eventId) (fun _ =>
  Await (kv_get (callKey eventId)) (fun value =>
  match value with
  | Some (VCallState state) =>
      Await (loadToolResults eventId (cs_turn state) (cs_toolCallIds state))
            (fun loaded =>
      let '(haveAllResults, toolResults) := loaded in
      if negb haveAllResults then
        Await (clearTimerLock eventId) (fun _ =>
        Await (events_cancelPending (cs_pendingId state) (js "Timeout"))
              (fun _ => Finished (Return tt)))
      else
        Await (continueTurn
                 (resumeParams state eventId (ti_apiKey input)
                               (ti_blockId input))
                 (cs_toolCallIds state) toolResults) (fun _ =>
        Await (clearTimerLock eventId) (fun _ => Finished (Return tt))))
  | _ => Finished (Throw {| message := js "Call state not found" |})
  end)).

(** [onEvent], await by await. *)
Definition onEvent_task (input : EventInput) : Task :=
  match validateConfig (ev_appConfig input) (ev_inputConfig input) with
  | inl e => Finished (Throw e)
  | inr (apiKey, prompt, settings) =>
      Await (events_createPending (js "Calling Anthropic model..."))
            (fun pendingId =>
      Await (executeTurn
               {| tp_pendingId := pendingId;
                  tp_eventId := ev_id input;
                  tp_blockId := ev_blockId input;
                  tp_messages := [{| role := user; content := CString prompt |}];
                  tp_turn := 0;
                  tp_apiKey := apiKey;
                  tp_settings := settings |}) (fun _ =>
      Finished (Return tt)))
  end.

(** The handlers under way on the block, and the world they share. *)
Record Running := { world : World; tasks : list Task }.

(** The task at position [i] runs up to its next [await]. *)
Definition resumed (i : nat) (r : Running) : Running :=
  match tasks r !! i with
  | Some task =>
      let '(task', w') := advance task (world r) in
      {| world := w'; tasks := <[i := task']> (tasks r) |}
  | None => r
  end.

(** The tasks run in the given order of positions. *)
Definition interleaved (order : list nat) (r : Running) : Running :=
  foldl (fun r i => resumed i r) r order.

End GenerateMessage.

(** ** [blocks/toolDefinition.ts]: the block of a custom tool *)

Module ToolDefinitionBlock.

(** What the block stores for a call: where its result goes. *)
Record Execution := {
  ex_eventId : jsstring;
  ex_toolCallId : jsstring;
  ex_blockId : jsstring }.

Record ExecutionEntry := { ex_value : Execution; ex_ttl : option nat }.

(** What the block sends out. *)
Inductive ToolEffect :=
| EmitCall (executionKey : jsstring) (parameters : Json)
           (parentEventId : jsstring)
| SendResult (result eventId toolCallId : jsstring)
             (blockIds : list jsstring)
| EmitResult (result : jsstring).

(** The store of the block, the number of UUIDs drawn and the effects
    issued, oldest first. *)
Record ToolWorld := {
  tool_kv : gmap jsstring ExecutionEntry;
  uuids_drawn : nat;
  tool_effects : list ToolEffect }.

(** [randomUUID] of [node:crypto]: the n-th identifier it gives. *)
Class Crypto := { randomUUID : nat -> jsstring }.

(** The body of the message a caller sends for a tool call. *)
Record CallBody := {
  cb_eventId : jsstring;
  cb_toolCallId : jsstring;
  cb_parameters : Json;
  cb_blockId : jsstring }.

(** [config.result]: a string, or another value, by its serialisation. *)
Inductive ResultValue :=
| ResultString (s : jsstring)
| ResultOther (serialised : Json).

(** What [onEvent] of the input [processResult] reads: the configured
    result and, when the event is an echo, the [executionKey] of its body. *)
Record ResultInput := {
  ri_result : ResultValue;
  ri_echo : option jsstring }.

(** What [onSync] reads: the block and the schema configured. *)
Record ToolSyncInput := {
  ts_blockId : jsstring;
  ts_name : jsstring;
  ts_description : jsstring;
  ts_schema : Json }.

Definition executionKeyOf (executionId : jsstring) : jsstring :=
  template [js "execution_"; executionId].

(** [typeof config.result === "string" ? config.result :
    JSON.stringify(config.result)] *)
Definition resultText (value : ResultValue) : jsstring :=
  match value with
  | ResultString s => s
  | ResultOther serialised => serialised
  end.

Section Handlers.
Context `{Crypto}.

(** [inputs.processResult.onEvent] *)
Definition onEvent (input : ResultInput) (w : ToolWorld)
  : Result unit * ToolWorld :=
  match ri_echo input with
  | Some executionKey =>
      match tool_kv w !! executionKey with
      | Some entry =>
          let value := ex_value entry in
          let result := resultText (ri_result input) in
          (Return tt,
           {| tool_kv := tool_kv w; uuids_drawn := uuids_drawn w;
              tool_effects :=
                tool_effects w
                ++ [SendResult result (ex_eventId value)
                      (ex_toolCallId value) [ex_blockId value];
                    EmitResult result] |})
      | None => (Return tt, w)
      end
  | None =>
      (Throw {| message := js "This block should not be called directly" |},
       w)
  end.

(** [onSync]: the block is ready, and signals its definition. *)
Definition onSync (input : ToolSyncInput) : ToolDefinition :=
  {| td_blockId := ts_blockId input;
     td_name := ts_name input;
     td_description := ts_description input;
     td_schema := ts_schema input |}.

Definition onInternalMessage (body : CallBody) (w : ToolWorld)
  : Result unit * ToolWorld :=
  let executionId := randomUUID (uuids_drawn w) in
  let executionKey := executionKeyOf executionId in
  (Return tt,
   {| tool_kv :=
        <[executionKey :=
            {| ex_value := {| ex_eventId := cb_eventId body;
                              ex_toolCallId := cb_toolCallId body;
                              ex_blockId := cb_blockId body |};
               ex_ttl := Some (60 * 60)%nat |}]> (tool_kv w);
      uuids_drawn := S (uuids_drawn w);
      tool_effects :=
        tool_effects w
        ++ [EmitCall executionKey (cb_parameters body) (cb_eventId body)] |}).

End Handlers.

End ToolDefinitionBlock.

(** ** [blocks/remoteMcpServer.ts]: the block of a remote MCP server *)

Module RemoteMcpServer.

Inductive Transport := StreamableHTTP | SSE.

(** A tool the server lists. *)
Record McpTool := {
  mt_name : jsstring;
  mt_description : option jsstring }.

(** The network and the MCP client: whether [new URL(url)] parses, whether
    [client.connect] over a transport resolves, and what [client.listTools]
    answers over it ([None] when it rejects). The imports of the client
    modules are taken not to fail. *)
Class Network := {
  parses : jsstring -> bool;
  connects : Transport -> jsstring -> bool;
  listTools : Transport -> jsstring -> option (list McpTool) }.

(** What [onSync] reads: the name of the block and its configuration. *)
Record McpSyncInput := {
  ms_name : jsstring;
  ms_url : jsstring;
  ms_authorizationToken : option jsstring;
  ms_allowedTools : option (list jsstring) }.

(** What [onSync] answers: [ready] with the signals [definition] and
    [availableTools], or [failed] with a description. *)
Inductive SyncResult :=
| Ready (definition : MCPServer) (availableTools : list McpTool)
| Failed (customStatusDescription : jsstring).

Section Handlers.
Context `{Network}.

(** The transport the client is connected over: streamable HTTP, SSE when
    that connection fails. *)
Definition connected (url : jsstring) : option Transport :=
  if connects StreamableHTTP url then Some StreamableHTTP
  else if connects SSE url then Some SSE
  else None.

Definition onSync (input : McpSyncInput) : SyncResult :=
  if negb (parses (ms_url input)) then Failed (js "Failed to connect")
  else
    match connected (ms_url input) with
    | None => Failed (js "Failed to connect")
    | Some transport =>
        match listTools transport (ms_url input) with
        | None => Failed (js "Failed to connect")
        | Some tools =>
            let toolNames := map mt_name tools in
            match
              List.find
                (fun toolName => negb (bool_decide (toolName ∈ toolNames)))
                (default [] (ms_allowedTools input))
            with
            | Some toolName =>
                Failed (template [js "Tool "; [34]; toolName; [34];
                                  js " not found"])
            | None =>
                Ready {| mcp_name := ms_name input;
                         mcp_url := ms_url input;
                         mcp_authorizationToken :=
                           ms_authorizationToken input;
                         mcp_allowedTools := ms_allowedTools input |}
                      tools
            end
        end
    end.

End Handlers.

End RemoteMcpServer.

(** ** [main.ts]: the app *)

Module App.

(** [client.messages.countTokens] with an API key, for a model: the
    [input_tokens] of the answer, [None] when the call rejects. *)
Class TokenCounter := { countTokens : jsstring -> jsstring -> option Z }.

Inductive SyncStatus :=
| Ready
| Failed (customStatusDescription : jsstring).

Section Handlers.
Context `{TokenCounter}.

(** The model [onSync] counts tokens for:
    [defaultModel ?? "claude-3-5-sonnet-20241022"]. *)
Definition checkedModel (config : AppConfig) : jsstring :=
  default (js "claude-3-5-sonnet-20241022") (defaultModel config).

(** [onSync]: the status, and the calls of [countTokens] made, each with its
    API key and model. *)
Definition onSync (config : AppConfig)
  : SyncStatus * list (jsstring * jsstring) :=
  match anthropicApiKey config with
  | Some (c :: key) =>
      let apiKey := c :: key in
      (match countTokens apiKey (checkedModel config) with
       | Some inputTokens =>
           if (inputTokens <=? 0)%Z
           then Failed (js "API key validation failed")
           else Ready
       | None => Failed (js "API key validation failed")
       end,
       [(apiKey, checkedModel config)])
  | _ => (Failed (js "Anthropic API Key is required."), [])
  end.

End Handlers.

End App.

(** * Vocabulary of the properties *)

(** [m] run from any world ends in a world related to it by [R], whether it
    returns or throws. *)
Definition preserves {A} (R : World -> World -> Prop) (m : M A) : Prop :=
  forall w, R w (snd (m w)).

(** The two stores agree on the keys in [K]. *)
Definition kv_same_on (K : jsstring -> Prop) (w w' : World) : Prop :=
  forall k, K k -> kv w' !! k = kv w !! k.

(** A fragment with this payload is stored for the tool call under the key
    of the pair ([eventId], [turn]). *)
Definition stored_fragment (eventId : jsstring) (turn : nat)
           (toolCallId result : jsstring) (w : World) : Prop :=
  exists ttl,
    kv w !! resultKey eventId turn toolCallId
    = Some {| kv_value := VToolResult toolCallId result; kv_ttl := ttl |}.

(** Every fragment listed under the prefix of ([eventId], [turn]) sits at the
    key [storeToolResult] gives it for that pair: no key written for another
    event is listed with them. *)
Definition fragments_keyed (eventId : jsstring) (turn : nat) (w : World)
  : Prop :=
  forall key toolCallId result ttl,
    kv w !! key
    = Some {| kv_value := VToolResult toolCallId result; kv_ttl := ttl |} ->
    startsWith (resultPrefix eventId turn) key = true ->
    key = resultKey eventId turn toolCallId.

(** The entry [setTimerLock] writes. *)
Definition lockEntry : KvEntry :=
  {| kv_value := VTrue; kv_ttl := Some 300%nat |}.

(** ** The requests to come *)

(** The outcomes of the next [n] requests sent from the world [w]. *)
Definition next_outcomes `{Host} (w : World) (n : nat) : list ApiOutcome :=
  map (fun k => api (api_calls w + k)) (seq 0 n).

(** The tokens an outcome is billed: those of its message, none when the
    request failed. *)
Definition outcome_input_tokens (o : ApiOutcome) : nat :=
  match final o with inr m => input_tokens m | inl _ => 0%nat end.

Definition outcome_output_tokens (o : ApiOutcome) : nat :=
  match final o with inr m => output_tokens m | inl _ => 0%nat end.

(** What an attempt of [generateObject] comes to, by the outcome of its
    request: an object that validates, an answer without one, or an error,
    that of the request or the one the validator throws. *)
Inductive Attempt :=
| Valid (object : Json)
| Invalid
| Failed (error : Error).

Definition attempt `{Host} (params : ObjectParams) (o : ApiOutcome)
  : Attempt :=
  match final o with
  | inl e => Failed e
  | inr m =>
      match validObject params m with
      | inl e => Failed e
      | inr (Some object) => Valid object
      | inr None => Invalid
      end
  end.

Definition attempt_error `{Host} (params : ObjectParams) (o : ApiOutcome)
  : option Error :=
  match attempt params o with Failed e => Some e | _ => None end.

(** The first outcome that carries a valid object, with its position. *)
Fixpoint first_valid `{Host} (params : ObjectParams) (os : list ApiOutcome)
  : option (nat * Json) :=
  match os with
  | [] => None
  | o :: rest =>
      match attempt params o with
      | Valid object => Some (0%nat, object)
      | _ =>
          match first_valid params rest with
          | Some (j, object) => Some (S j, object)
          | None => None
          end
      end
  end.

(** The error of the last attempt that failed, [earlier] when none did. *)
Definition last_error_from `{Host} (params : ObjectParams)
           (earlier : option Error) (os : list ApiOutcome) : option Error :=
  match last (omap (attempt_error params) os) with
  | Some e => Some e
  | None => earlier
  end.

(** The reason [generateObject] cancels the pending event with. *)
Definition objectFailureReason (lastError : option Error) : jsstring :=
  match lastError with
  | Some e => template [js "Object generation failed: "; message e]
  | None => js "Failed to generate object"
  end.

(** One attempt of [generateObject]: the status update and the request. *)
Definition objectAttempted (params : ObjectParams) (retryCount : nat)
           (w : World) : World :=
  sent (stream_request (objectStreamParams params))
       (issued (UpdatePending (op_pendingId params) (objectStatus retryCount))
               w).

(** ** The retries of a turn *)

(** The words that make an error one to retry: the message of the error, in
    lower case, holds one of them. *)
Definition retriedWords : list jsstring :=
  [js "overloaded"; js "rate limit"; js "timeout"; js "502"; js "503";
   js "504"].

(** The delays slept, oldest first. *)
Definition sleeps (es : list Effect) : list N :=
  omap (fun e => match e with Sleep ms => Some ms | _ => None end) es.

(** Nothing changed but status updates of pending events. *)
Definition quiet (w w' : World) : Prop :=
  kv w' = kv w /\ timers w' = timers w /\ next_id w' = next_id w
  /\ api_calls w' = api_calls w /\ sleeps (effects w') = sleeps (effects w).

(** One attempt of [executeTurn] up to the end of its stream: the status
    update of a retry, the request, the status updates of the stream. *)
Definition turnAttempted `{Host} (params : TurnParams) (retryCount : nat)
           (w : World) : World :=
  let w0 :=
    if (0 <? retryCount)%nat
    then issued (UpdatePending (tp_pendingId params) (retryStatus retryCount))
                w
    else w in
  snd (syncPendingEvents (tp_pendingId params) None
         (streamed (api (api_calls w0)))
         (sent (stream_request (turnStreamParams params)) w0)).

(** The message [executeTurn] cancels the pending event with. *)
Definition apiFailureReason (lastError : option Error) : jsstring :=
  template
    [js "API call failed: ";
     match lastError with
     | Some {| message := c :: m |} => c :: m
     | _ => js "Unknown error"
     end].

(** The world [executeTurn] leaves when it gives up. *)
Definition turnFailed (params : TurnParams) (lastError : option Error)
           (w : World) : World :=
  snd (deleteCallState (tp_eventId params)
         (issued (CancelPending (tp_pendingId params)
                    (apiFailureReason lastError)) w)).

(** ** Deliveries of a tool result *)

(** The two stores hold the same under every key that starts with
    [result-]. *)
Definition same_fragments (w w' : World) : Prop :=
  kv_same_on (fun k => startsWith (js "result-") k = true) w w'.

(** The world in which [onInternalMessage] aggregates: the timeout of the
    event cleared and the result stored under the turn of the call state. *)
Definition delivered (input : MessageInput) (state : CallState) (w : World)
  : World :=
  snd (storeToolResult (mi_eventId input) (mi_toolCallId input)
         (mi_result input) (cs_turn state)
         (snd (clearTimeoutTimer (mi_eventId input) w))).

(** ** Timeouts *)

(** Nothing changed among the timers and the timeout handles; identifiers
    may have been drawn. *)
Definition timers_kept (w w' : World) : Prop :=
  timers w' = timers w /\ (next_id w <= next_id w')%nat
  /\ forall eventId, kv w' !! timerKey eventId = kv w !! timerKey eventId.

(** Every scheduled timer is the one the handle of its event names, and its
    identifier has been drawn. *)
Definition timers_wf (w : World) : Prop :=
  (forall id eventId,
     timers w !! id = Some eventId ->
     kv_value <$> kv w !! timerKey eventId = Some (VTimerId id))
  /\ (forall id, is_Some (timers w !! id) -> (id < next_id w)%nat).

(** The same, and no timer is scheduled for [eventId]. *)
Definition timers_wf_without (eventId : jsstring) (w : World) : Prop :=
  timers_wf w /\ forall id, timers w !! id <> Some eventId.

(** [m], run from a world in [P], returns in a world in [Q] or throws in a
    world in [X]. *)
Definition triple {A} (P : World -> Prop) (m : M A) (Q X : World -> Prop)
  : Prop :=
  forall w, P w ->
            match m w with
            | (Return _, w') => Q w'
            | (Throw _, w') => X w'
            end.

(** The world when the timer [id] fires: the timer is no longer scheduled. *)
Definition fired (id : nat) (w : World) : World :=
  {| kv := kv w; timers := delete id (timers w); next_id := next_id w;
     api_calls := api_calls w; effects := effects w |}.

(** A handler run from its start to its end with no other handler under
    way: for an event whose identifier no timer carries, for a message, for
    a scheduled timer that fires. Handlers that overlap are those of
    [interleaved]. *)
Inductive handled `{Host} : World -> World -> Prop :=
| handled_event input w :
    (forall id, timers w !! id <> Some (ev_id input)) ->
    handled w (snd (onEvent input w))
| handled_message input w :
    handled w (snd (onInternalMessage input w))
| handled_timer id eventId apiKey blockId w :
    timers w !! id = Some eventId ->
    handled w (snd (onTimer {| ti_eventId := eventId; ti_apiKey := apiKey;
                               ti_blockId := blockId |}
                            (fired id w))).


(** * Scenarios

    Concrete hosts and worlds on which the handlers are run. *)

Definition empty_world : World :=
  {| kv := ∅; timers := ∅; next_id := 0; api_calls := 0; effects := [] |}.

(** An answer of the model: one streamed text block, then the message. *)
Definition answer (blocks : list Block) (stop : StopReason)
           (inputTokens outputTokens : nat) : ApiOutcome :=
  {| streamed := [SText];
     final := inr {| msg_role := assistant; msg_content := blocks;
                     stop_reason := stop; input_tokens := inputTokens;
                     output_tokens := outputTokens |} |}.

(** A request that fails with the given message. *)
Definition failure (text : string) : ApiOutcome :=
  {| streamed := []; final := inl {| message := js text |} |}.

(** A host whose API answers the requests with [script], in order, and
    with [rest] from then on; an input validates when it contains the text of
    the schema, and the validator throws on a schema with a reference. *)
Definition scripted (script : list ApiOutcome) (rest : ApiOutcome) : Host :=
  {| toLowerCase := ascii_lower;
     validate :=
       fun input schema =>
         if includes (js "$ref") schema
         then inl {| message := js "no such schema" |}
         else inr (includes schema input);
     api := fun n => nth n script rest |}.

Definition lookupTool : ToolDefinition :=
  {| td_blockId := js "block-lookup"; td_name := js "Lookup";
     td_description := js "Looks a value up"; td_schema := js "{}" |}.

Definition plainSettings (retries : nat) (schema : option Json) : Settings :=
  {| toolDefinitions := [lookupTool]; force := ForceBool false;
     model := js "claude"; maxTokens := 100%Q; mcpServers := [];
     systemPrompt := None; maxRetries := of_nat retries; schema := schema;
     thinking := None; thinkingBudget := None; temperature := None |}.

(** The call state of a turn of event [e1] suspended on the tool call
    [toolu_1]. *)
Definition suspended (retries : nat) (schema : option Json) : CallState :=
  {| cs_messages :=
       [{| role := user; content := CString (js "Hello") |};
        {| role := assistant;
           content := CBlocks [BToolUse (js "toolu_1") (js "lookup") (js "{}")] |}];
     cs_toolCallIds := [js "toolu_1"];
     cs_pendingId := js "pending-0";
     cs_turn := 1;
     cs_originalEventId := js "e1";
     cs_settings := plainSettings retries schema |}.

Definition with_kv (entries : list (jsstring * KvEntry)) : World :=
  {| kv := list_to_map entries; timers := ∅; next_id := 1; api_calls := 0;
     effects := [] |}.

(** The world of a turn of [e1] suspended on [toolu_1], the result not yet
    in. *)
Definition waiting_world (retries : nat) (schema : option Json) : World :=
  with_kv
    [(js "call-e1",
      {| kv_value := VCallState (suspended retries schema); kv_ttl := None |})].

(** The same with the result of [toolu_1] stored. *)
Definition complete_world (retries : nat) (schema : option Json) : World :=
  with_kv
    [(js "call-e1",
      {| kv_value := VCallState (suspended retries schema); kv_ttl := None |});
     (js "result-e1-1-toolu_1",
      {| kv_value := VToolResult (js "toolu_1") (js "42");
         kv_ttl := Some 300%nat |})].

Definition timer_e1 : TimerInput :=
  {| ti_eventId := js "e1"; ti_apiKey := js "sk-ant-key";
     ti_blockId := js "block-generate" |}.

(** The result of a tool call of [e1] as it comes in. *)
Definition result_for (toolCallId result : string) : MessageInput :=
  {| mi_result := js result; mi_eventId := js "e1";
     mi_toolCallId := js toolCallId; mi_apiKey := js "sk-ant-key";
     mi_blockId := js "block-generate" |}.

Definition result_e1 (result : string) : MessageInput :=
  result_for "toolu_1" result.

(** A first turn of event [e1], with [retries] attempts allowed. *)
Definition firstTurn (retries : nat) : TurnParams :=
  {| tp_pendingId := js "pending-0"; tp_eventId := js "e1";
     tp_blockId := js "block-generate";
     tp_messages := [{| role := user; content := CString (js "Hello") |}];
     tp_turn := 0; tp_apiKey := js "sk-ant-key";
     tp_settings := plainSettings retries None |}.

(** An event [e1] with the prompt "Hello" and the tool [Lookup]. *)
Definition twoToolsEvent : EventInput :=
  {| ev_appConfig := {| anthropicApiKey := Some (js "sk-ant-key");
                        defaultModel := Some (js "claude") |};
     ev_inputConfig :=
       {| ic_model := None; ic_prompt := js "Hello"; ic_maxTokens := 100%Q;
          ic_systemPrompt := None; ic_force := ForceBool false;
          ic_thinking := None; ic_thinkingBudget := None; ic_schema := None;
          ic_maxRetries := None; ic_temperature := None;
          ic_toolDefinitions := Some [lookupTool]; ic_mcpServers := None |};
     ev_id := js "e1";
     ev_blockId := js "block-generate" |}.

(** The extraction of an object with the field [name]. *)
Definition extraction (retries : number) : ObjectParams :=
  {| op_apiKey := js "sk-ant-key"; op_model := js "claude";
     op_maxTokens := 100%Q;
     op_messages := [{| role := user; content := CString (js "Who?") |}];
     op_schema := js "name"; op_maxRetries := retries;
     op_pendingId := js "pending-0"; op_parentEventId := js "e1" |}.

(** The same with two attempts allowed. *)
Definition personParams : ObjectParams := extraction 2%Q.

(** The resumed turn of [e1]. *)
Definition resumedTurn (retries : nat) : TurnParams :=
  resumeParams (suspended retries None) (js "e1") (js "sk-ant-key")
               (js "block-generate").

(** * Vocabulary of the further properties *)

(** ** Tool names *)

(** Two neighbours of [s] are both in the class [P]. *)
Fixpoint adjacent (P : codeunit -> bool) (s : jsstring) : bool :=
  match s with
  | [] => false
  | a :: r =>
      match r with
      | [] => false
      | b :: _ => (P a && P b) || adjacent P r
      end
  end.

(** The class [[a-z0-9]]. *)
Definition is_alnum (c : codeunit) : bool :=
  ((97 <=? c) && (c <=? 122)) || is_digit c.

(** What [runs] answers: runs that are not empty, each within or without
    the class as its tag says, neighbours with different tags. *)
Fixpoint runs_wf (P : codeunit -> bool) (rs : list (bool * jsstring)) : Prop :=
  match rs with
  | [] => True
  | (b, g) :: rest =>
      g <> [] /\ Forall (fun c => P c = b) g
      /\ match rest with
         | (b', _) :: _ => b' = negb b
         | [] => True
         end
      /\ runs_wf P rest
  end.

(** The tool [processToolDefinitions] pushes for a definition. *)
Definition toolOf `{Host} (toolDefinition : ToolDefinition) : Tool :=
  {| tool_name := cleanToolName (td_name toolDefinition);
     tool_description := td_description toolDefinition;
     tool_input_schema := td_schema toolDefinition |}.

(** The definitions whose name cleans to [cleanedName], in their order. *)
Definition definitionsNamed `{Host} (cleanedName : jsstring)
           (toolDefinitions : list ToolDefinition) : list ToolDefinition :=
  List.filter
    (fun toolDefinition =>
       bool_decide (cleanToolName (td_name toolDefinition) = cleanedName))
    toolDefinitions.

(** [inputConfig.model ?? appConfig.defaultModel] *)
Definition configuredModel (appConfig : AppConfig) (inputConfig : InputConfig)
  : option (jsstring) :=
  match ic_model inputConfig with
  | Some m => Some m
  | None => defaultModel appConfig
  end.

(** Thinking is asked for with a budget that is not zero and is below the
    maximum of tokens, or not asked for. A negative budget is such a one. *)
Definition thinkingWithinBudget (inputConfig : InputConfig) : Prop :=
  ic_thinking inputConfig = Some true ->
  exists budget,
    ic_thinkingBudget inputConfig = Some budget
    /\ ~ (budget == 0)%Q /\ (budget < ic_maxTokens inputConfig)%Q.

(** ** Effects *)

(** From [w] to [w'] effects were issued, all of them in [I]; none of the
    earlier ones was taken back. *)
Definition issues (I : Effect -> Prop) (w w' : World) : Prop :=
  exists es, effects w' = effects w ++ es /\ Forall I es.

(** The message has a [thinking] block. *)
Definition has_thinking (msg : MessageParam) : bool :=
  match content msg with
  | CBlocks blocks =>
      existsb (fun block =>
                 match block with BThinking _ => true | _ => false end)
              blocks
  | CString _ => false
  end.

(** The parameters [handleModelResponse] hands to [generateObject] after
    the answer [message]. *)
Definition objectParamsOf (params : TurnParams) (schema : jsstring)
           (message : Message) : ObjectParams :=
  {| op_apiKey := tp_apiKey params;
     op_model := model (tp_settings params);
     op_maxTokens := maxTokens (tp_settings params);
     op_messages :=
       tp_messages params
       ++ [{| role := msg_role message;
              content := CBlocks (msg_content message) |}];
     op_schema := schema;
     op_maxRetries := maxRetries (tp_settings params);
     op_pendingId := tp_pendingId params;
     op_parentEventId := tp_eventId params |}.

(** A name the API takes for a tool, but for its being empty: at most 64
    code units of [[a-z0-9_-]]. *)
Definition nameAllowed (name : jsstring) : Prop :=
  (length name <= 64)%nat /\ Forall (fun c => is_name_char c = true) name.

(** The events of a stream that always set a status: the start of an MCP
    tool use, of a text and of a thinking block. *)
Definition announces (event : StreamEvent) : bool :=
  match event with
  | SMcpToolUse _ _ _ | SText | SThinking => true
  | _ => false
  end.

(** Whether a tool choice disables parallel tool use. *)
Definition parallelDisabled (choice : ToolChoice) : bool :=
  match choice with
  | ChoiceTool _ disabled | ChoiceAny disabled | ChoiceAuto disabled =>
      disabled
  end.

(** What a request of a turn has of the turn's parameters, whether it is the
    request of the turn or one of [generateObject]. *)
Definition turnRequest (params : TurnParams) (request : ApiRequest) : Prop :=
  req_apiKey request = tp_apiKey params
  /\ req_model request = model (tp_settings params)
  /\ req_max_tokens request = maxTokens (tp_settings params)
  /\ Forall (fun tool => nameAllowed (tool_name tool)) (req_tools request)
  /\ (req_tool_choice request = None <-> req_tools request = [])
  /\ req_mcp_servers request <> Some []
  /\ (forall choice,
        req_tool_choice request = Some choice ->
        parallelDisabled choice
        = bool_decide (is_Some (req_mcp_servers request)))
  /\ (forall budget,
        req_thinking request = Some budget ->
        thinking (tp_settings params) = Some true
        /\ thinkingBudget (tp_settings params) = Some budget
        /\ ~ (budget == 0)%Q).

(** The effects of a turn: on its own pending event, event and block, with
    requests of its own settings, and sleeps of ten seconds at most. An
    object is emitted when a schema is set, and validates against it. *)
Definition turnEffect `{Host} (params : TurnParams) (e : Effect) : Prop :=
  match e with
  | CreatePending _ _ => False
  | UpdatePending pendingId _ | CancelPending pendingId _ =>
      pendingId = tp_pendingId params
  | Emit text object _ _ complete parentEventId =>
      complete = tp_pendingId params /\ parentEventId = tp_eventId params
      /\ is_Some text
      /\ match object with
         | Some object =>
             exists schema',
               schema (tp_settings params) = Some schema'
               /\ validate object schema' = inr true
         | None => schema (tp_settings params) = None
         end
  | SendToBlocks blockId eventId _ _ _ =>
      blockId = tp_blockId params /\ eventId = tp_eventId params
  | ApiCall request => turnRequest params request
  | Sleep ms => ms <= 10000
  end.

(** The effects of [generateObject]: on its pending event; requests that
    force the tool [json], with no system prompt, temperature, thinking or
    MCP server, and no [thinking] block in their messages; an emit of the
    text it was given with an object that validates. *)
Definition objectEffect `{Host} (finalText : jsstring) (params : ObjectParams)
           (e : Effect) : Prop :=
  match e with
  | UpdatePending pendingId _ | CancelPending pendingId _ =>
      pendingId = op_pendingId params
  | Emit text object _ _ complete parentEventId =>
      text = Some finalText
      /\ (exists object', object = Some object'
                          /\ validate object' (op_schema params) = inr true)
      /\ complete = op_pendingId params
      /\ parentEventId = op_parentEventId params
  | ApiCall request =>
      req_tools request
      = [{| tool_name := js "json";
            tool_description := js "Respond with a JSON object.";
            tool_input_schema := op_schema params |}]
      /\ req_tool_choice request = Some (ChoiceTool (js "json") false)
      /\ req_system request = None /\ req_temperature request = None
      /\ req_thinking request = None /\ req_mcp_servers request = None
      /\ map role (req_messages request) = map role (op_messages params)
      /\ Forall (fun msg => has_thinking msg = false) (req_messages request)
  | _ => False
  end.

(** ** Turns *)

(** The call state [handleModelResponse] stores when the answer [message]
    asks for tools. *)
Definition suspendedState (params : TurnParams) (message : Message)
  : CallState :=
  {| cs_messages :=
       tp_messages params
       ++ [{| role := msg_role message;
              content := CBlocks (msg_content message) |}];
     cs_toolCallIds :=
       map block_id (List.filter is_tool_use (msg_content message));
     cs_pendingId := tp_pendingId params;
     cs_turn := tp_turn params + 1;
     cs_originalEventId := tp_eventId params;
     cs_settings := tp_settings params |}.

(** The status [handleModelResponse] sets when the answer [message] asks
    for tools. *)
Definition callingStatus `{Host} (params : TurnParams) (message : Message)
  : jsstring :=
  let toolCalls := List.filter is_tool_use (msg_content message) in
  let toolCallNames :=
    joinToolNames toolCalls
      (snd (fst (processToolDefinitions
                   (toolDefinitions (tp_settings params))))) in
  if (length toolCalls =? 1)%nat
  then template [js "Calling tool: "; toolCallNames]
  else template [js "Calling tools: "; toolCallNames].


(** The message [handleModelResponse] sends for a tool call: to the block of
    the last definition whose name cleans to the name called, to no block
    when there is none. *)
Definition toolMessage `{Host} (params : TurnParams) (toolCall : Block)
  : Effect :=
  SendToBlocks (tp_blockId params) (tp_eventId params) (block_input toolCall)
    (block_id toolCall)
    [td_blockId
       <$> last (definitionsNamed (block_name toolCall)
                   (toolDefinitions (tp_settings params)))].

(** The turn with one more message. *)
Definition withMessage (params : TurnParams) (msg : MessageParam)
  : TurnParams :=
  {| tp_pendingId := tp_pendingId params;
     tp_eventId := tp_eventId params;
     tp_blockId := tp_blockId params;
     tp_messages := tp_messages params ++ [msg];
     tp_turn := tp_turn params;
     tp_apiKey := tp_apiKey params;
     tp_settings := tp_settings params |}.

(** The status [continueTurn] sets. *)
Definition resultsStatus (toolCallIds : list jsstring) : jsstring :=
  template [js "Received results from tool";
            if (length toolCallIds =? 1)%nat then [] else js "s";
            js "..."].

(** The pending event of the turn is settled in [w]: completed by the emit
    issued last, cancelled by the cancellation issued last, or waited for by
    a stored call state of the next turn with a timeout scheduled. *)
Definition settled (params : TurnParams) (w : World) : Prop :=
  (exists text object inputTokens outputTokens,
     last (effects w)
     = Some (Emit text object inputTokens outputTokens (tp_pendingId params)
                  (tp_eventId params)))
  \/ (exists reason,
        last (effects w) = Some (CancelPending (tp_pendingId params) reason))
  \/ (exists state id,
        kv_value <$> kv w !! callKey (tp_eventId params)
        = Some (VCallState state)
        /\ cs_pendingId state = tp_pendingId params
        /\ cs_turn state = (tp_turn params + 1)%nat
        /\ kv_value <$> kv w !! timerKey (tp_eventId params)
           = Some (VTimerId id)
        /\ timers w !! id = Some (tp_eventId params)).

(** The requests [generateObject] may add to those of a turn. *)
Definition objectRetries (settings : Settings) : nat :=
  match schema settings with
  | Some _ => attempts (maxRetries settings)
  | None => 0
  end.

(** The turn [onEvent] starts for a valid configuration. *)
Definition startedTurn (input : EventInput) (pendingId apiKey : jsstring)
           (settings : Settings) : TurnParams :=
  {| tp_pendingId := pendingId;
     tp_eventId := ev_id input;
     tp_blockId := ev_blockId input;
     tp_messages :=
       [{| role := user;
           content := CString (ic_prompt (ev_inputConfig input)) |}];
     tp_turn := 0;
     tp_apiKey := apiKey;
     tp_settings := settings |}.

(** No fragment for the tool call is listed under the prefix of
    ([eventId], [turn]). *)
Definition awaited (eventId : jsstring) (turn : nat) (toolCallId : jsstring)
           (w : World) : Prop :=
  forall key result ttl,
    kv w !! key
    = Some {| kv_value := VToolResult toolCallId result; kv_ttl := ttl |} ->
    startsWith (resultPrefix eventId turn) key = false.

(** ** Tool blocks *)

(** The body of the message that a [SendToBlocks] of the generate block
    carries to a tool block. *)
Definition callBodyOf (e : Effect) : option ToolDefinitionBlock.CallBody :=
  match e with
  | SendToBlocks blockId eventId parameters toolCallId _ =>
      Some {| ToolDefinitionBlock.cb_eventId := eventId;
              ToolDefinitionBlock.cb_toolCallId := toolCallId;
              ToolDefinitionBlock.cb_parameters := parameters;
              ToolDefinitionBlock.cb_blockId := blockId |}
  | _ => None
  end.

(** What [onInternalMessage] of the generate block reads when the message
    that a [SendResult] of a tool block carries comes in. *)
Definition deliveryOf (e : ToolDefinitionBlock.ToolEffect)
           (apiKey blockId : jsstring) : option MessageInput :=
  match e with
  | ToolDefinitionBlock.SendResult result eventId toolCallId _ =>
      Some {| mi_result := result; mi_eventId := eventId;
              mi_toolCallId := toolCallId; mi_apiKey := apiKey;
              mi_blockId := blockId |}
  | _ => None
  end.

(** The tool block after the calls [bodies], in their order. *)
Definition afterCalls `{ToolDefinitionBlock.Crypto}
           (bodies : list ToolDefinitionBlock.CallBody)
           (w : ToolDefinitionBlock.ToolWorld)
  : ToolDefinitionBlock.ToolWorld :=
  foldl (fun w body => snd (ToolDefinitionBlock.onInternalMessage body w))
        w bodies.

(** * Further scenarios *)

(** The call of the tool [Lookup] by the model. *)
Definition lookupCall : Block :=
  BToolUse (js "toolu_1") (js "lookup") (js "{}").

(** An answer of the model that asks for [Lookup]. *)
Definition toolAnswer : Message :=
  {| msg_role := assistant;
     msg_content := [BText (js "Let me look."); lookupCall];
     stop_reason := tool_use; input_tokens := 3; output_tokens := 5 |}.

(** An answer of the model that ends the turn with no content. *)
Definition emptyAnswer : Message :=
  {| msg_role := assistant; msg_content := []; stop_reason := end_turn;
     input_tokens := 3; output_tokens := 0 |}.

(** The call state of a turn of [e1] suspended on two tool calls. *)
Definition suspendedOnTwo : CallState :=
  {| cs_messages := cs_messages (suspended 1 None);
     cs_toolCallIds := [js "toolu_1"; js "toolu_2"];
     cs_pendingId := js "pending-0";
     cs_turn := 1;
     cs_originalEventId := js "e1";
     cs_settings := plainSettings 1 None |}.

Definition waiting_for_two : World :=
  with_kv
    [(js "call-e1",
      {| kv_value := VCallState suspendedOnTwo; kv_ttl := None |})].

(** An app configuration without an API key. *)
Definition keylessEvent : EventInput :=
  {| ev_appConfig := {| anthropicApiKey := None;
                        defaultModel := Some (js "claude") |};
     ev_inputConfig := ev_inputConfig twoToolsEvent;
     ev_id := js "e1";
     ev_blockId := js "block-generate" |}.

(** UUIDs that count up. *)
Definition countingUUIDs : ToolDefinitionBlock.Crypto :=
  {| ToolDefinitionBlock.randomUUID := decimal |}.

Definition empty_tool_world : ToolDefinitionBlock.ToolWorld :=
  {| ToolDefinitionBlock.tool_kv := ∅;
     ToolDefinitionBlock.uuids_drawn := 0;
     ToolDefinitionBlock.tool_effects := [] |}.

(** The call of [toolu_1] as it comes in at the tool block, and another. *)
Definition lookupBody : ToolDefinitionBlock.CallBody :=
  {| ToolDefinitionBlock.cb_eventId := js "e1";
     ToolDefinitionBlock.cb_toolCallId := js "toolu_1";
     ToolDefinitionBlock.cb_parameters := js "{}";
     ToolDefinitionBlock.cb_blockId := js "block-generate" |}.

Definition otherBody : ToolDefinitionBlock.CallBody :=
  {| ToolDefinitionBlock.cb_eventId := js "e2";
     ToolDefinitionBlock.cb_toolCallId := js "toolu_9";
     ToolDefinitionBlock.cb_parameters := js "{}";
     ToolDefinitionBlock.cb_blockId := js "block-other" |}.

(** A server that lists the tool [search] over streamable HTTP. *)
Definition searchServer : RemoteMcpServer.Network :=
  {| RemoteMcpServer.parses := fun _ => true;
     RemoteMcpServer.connects :=
       fun transport _ =>
         match transport with
         | RemoteMcpServer.StreamableHTTP => true
         | RemoteMcpServer.SSE => false
         end;
     RemoteMcpServer.listTools :=
       fun _ _ =>
         Some [{| RemoteMcpServer.mt_name := js "search";
                  RemoteMcpServer.mt_description := None |}] |}.

(** A block that allows the tools [search] and [fetch] of it. *)
Definition searchAndFetch : RemoteMcpServer.McpSyncInput :=
  {| RemoteMcpServer.ms_name := js "Search";
     RemoteMcpServer.ms_url := js "https://mcp.example.com";
     RemoteMcpServer.ms_authorizationToken := None;
     RemoteMcpServer.ms_allowedTools := Some [js "search"; js "fetch"] |}.

(** * Properties *)

(** ** Strings *)

Lemma Forall_dropWhile (Q : N -> Prop) P (s : list N) :
  Forall Q s -> Forall Q (dropWhile P s).
Proof.
  induction 1 as [|c r Hc Hr IH]; simpl; [constructor|].
  destruct (P c); [exact IH | by constructor].
Qed.

Lemma Forall_dropWhileEnd (Q : N -> Prop) P (s : list N) :
  Forall Q s -> Forall Q (dropWhileEnd P s).
Proof.
  intros Hs. unfold dropWhileEnd.
  apply Forall_rev, Forall_dropWhile, Forall_rev, Hs.
Qed.

Lemma Forall_runs (Q : N -> Prop) P (s : list N) :
  Forall Q s -> Forall (fun run => Forall Q (snd run)) (runs P s).
Proof.
  induction 1 as [|c r Hc Hr IH]; simpl; [constructor|].
  fold (runs P r). destruct (runs P r) as [|[b g] rest] eqn:E.
  - repeat constructor. exact Hc.
  - apply Forall_cons in IH as [Hg Hrest]. simpl in Hg.
    destruct (Bool.eqb (P c) b).
    + constructor; [simpl; by constructor | exact Hrest].
    + constructor; [simpl; by repeat constructor |].
      constructor; assumption.
Qed.

Lemma Forall_replace_runs (Q : N -> Prop) P least rep (s : list N) :
  Forall Q rep -> Forall Q s -> Forall Q (replace_runs P least rep s).
Proof.
  intros Hrep Hs. unfold replace_runs.
  apply Forall_concat, Forall_fmap.
  eapply Forall_impl; [apply (Forall_runs Q P s Hs)|].
  intros [b g] Hg. simpl in *.
  destruct (b && (least <=? length g)%nat); assumption.
Qed.

Lemma Forall_replace_outside P rep (s : list N) :
  P rep = true ->
  Forall (fun c => P c = true) (replace_outside P rep s).
Proof.
  intros Hrep. unfold replace_outside. apply Forall_fmap, Forall_true.
  intros c. simpl. destruct (P c) eqn:E; assumption.
Qed.

Lemma is_name_char_spec c :
  is_name_char c = true <->
  97 <= c <= 122 \/ 48 <= c <= 57 \/ c = 95 \/ c = 45.
Proof.
  unfold is_name_char, is_digit, underscore, hyphen.
  rewrite !orb_true_iff, !andb_true_iff, !N.leb_le, !N.eqb_eq. tauto.
Qed.

Lemma startsWith_app p s : startsWith p s = true <-> exists r, s = p ++ r.
Proof.
  revert s. induction p as [|a p IH]; intros s; simpl.
  - split; [eauto|done].
  - destruct s as [|b s].
    + split; [done | intros [r Hr]; discriminate].
    + rewrite andb_true_iff, N.eqb_eq, IH. split.
      * intros [-> [r ->]]. by exists r.
      * intros [r Hr]. injection Hr as -> ->. eauto.
Qed.

Lemma uint_units_digits d : Forall (fun c => is_digit c = true) (uint_units d).
Proof. induction d; simpl; constructor; done. Qed.

Lemma uint_units_inj d d' : uint_units d = uint_units d' -> d = d'.
Proof.
  revert d'. induction d; intros d'; destruct d'; simpl; try discriminate;
    try reflexivity; intros E; injection E as E; f_equal; by apply IHd.
Qed.

Lemma decimal_inj n n' : decimal n = decimal n' -> n = n'.
Proof.
  intros E. apply uint_units_inj in E.
  rewrite <- (Unsigned.of_to n), <- (Unsigned.of_to n'). by rewrite E.
Qed.

(** Two digit strings followed by a hyphen: when one text starts with the
    other, the digit strings are the same. *)
Lemma digits_hyphen_prefix (ds ds' x y : list N) :
  Forall (fun c => is_digit c = true) ds ->
  Forall (fun c => is_digit c = true) ds' ->
  ds ++ 45 :: x = ds' ++ 45 :: y -> ds = ds'.
Proof.
  intros Hds. revert ds'. induction Hds as [|c ds Hc Hds IH]; intros ds' Hds' E.
  - destruct Hds' as [|c' ds' Hc' Hds']; [done|].
    simpl in E. injection E as <- _. discriminate.
  - destruct Hds' as [|c' ds' Hc' Hds'].
    + simpl in E. injection E as -> _. discriminate.
    + simpl in E. injection E as -> E. f_equal. by apply IH.
Qed.

Lemma resultKey_prefix eventId turn toolCallId :
  resultKey eventId turn toolCallId = resultPrefix eventId turn ++ toolCallId.
Proof.
  unfold resultKey, resultPrefix, template. cbn [concat].
  rewrite !app_nil_r. by rewrite <- !app_assoc.
Qed.

(** A key of one turn of an event is not listed under the prefix of another
    turn of the same event. *)
Lemma resultKey_other_turn eventId turn turn' toolCallId :
  startsWith (resultPrefix eventId turn) (resultKey eventId turn' toolCallId)
  = true -> turn' = turn.
Proof.
  rewrite startsWith_app. intros [r E].
  unfold resultKey, resultPrefix, template in E. cbn [concat] in E.
  rewrite !app_nil_r in E. rewrite <- !app_assoc in E.
  do 2 apply app_inv_head in E.
  change (js "-") with [45] in E. cbn [app] in E. injection E as E.
  apply decimal_inj.
  eapply digits_hyphen_prefix; [apply uint_units_digits.. | exact E].
Qed.

(** ** Numbers *)

(** A count is below a number exactly when it is below the number rounded
    up: the loops run [attempts maxRetries] times at most. *)
Lemma attempts_lt (n : nat) (x : Q) :
  (n < attempts x)%nat <-> (of_nat n < x)%Q.
Proof.
  unfold attempts, of_nat. split.
  - intros Hn.
    assert (Hz : (Z.of_nat n <= Qceiling x - 1)%Z) by lia.
    rewrite Zle_Qle in Hz.
    eapply Qle_lt_trans; [exact Hz | apply Qceiling_lt].
  - intros Hn.
    assert (Hz : (Z.of_nat n < Qceiling x)%Z).
    { rewrite Zlt_Qlt. eapply Qlt_le_trans; [exact Hn | apply Qle_ceiling]. }
    lia.
Qed.

Lemma ge_of_nat (n : nat) (x : Q) :
  ge (of_nat n) x = (attempts x <=? n)%nat.
Proof.
  unfold ge. destruct (Nat.leb_spec (attempts x) n) as [Hle|Hlt].
  - apply Qle_bool_iff. apply Qnot_lt_le. intros Hn%attempts_lt. lia.
  - apply attempts_lt in Hlt. apply not_true_is_false.
    intros Hle%Qle_bool_iff. by apply (Qlt_not_le _ _ Hlt).
Qed.

Lemma attempts_of_nat (n : nat) : attempts (of_nat n) = n.
Proof.
  unfold attempts, of_nat. rewrite Qceiling_Z. apply Nat2Z.id.
Qed.

Lemma attempts_whole (x : Q) (n : nat) : (x == of_nat n)%Q -> attempts x = n.
Proof.
  intros Hx. unfold attempts. rewrite (Qceiling_comp _ _ Hx).
  apply attempts_of_nat.
Qed.

Lemma attempts_pos (x : Q) : (0 < attempts x)%nat <-> (0 < x)%Q.
Proof. apply (attempts_lt 0). Qed.

Lemma truthy_number_spec (x : Q) : truthy_number x = true <-> ~ (x == 0)%Q.
Proof.
  unfold truthy_number. rewrite negb_true_iff.
  split.
  - intros Hx Hz. apply Qeq_bool_iff in Hz. congruence.
  - intros Hx. apply not_true_is_false. intros Hz%Qeq_bool_iff. by apply Hx.
Qed.

(** ** Plain objects *)

Lemma proto_inherited : js "__proto__" ∈ objectPrototype.
Proof. unfold objectPrototype. set_solver. Qed.

(** A name that no object inherits reads as the own property, if any. *)
Lemma getProperty_own (record : gmap jsstring jsstring) (key : jsstring) :
  key ∉ objectPrototype -> getProperty record key = Own <$> record !! key.
Proof.
  intros Hkey. unfold getProperty. destruct (record !! key); [done|].
  by rewrite bool_decide_eq_false_2.
Qed.

(** A name that every object inherits never reads as [undefined]. *)
Lemma getProperty_inherited (record : gmap jsstring jsstring)
      (key : jsstring) :
  key ∈ objectPrototype -> is_Some (getProperty record key).
Proof.
  intros Hkey. unfold getProperty. destruct (record !! key); [by eexists|].
  rewrite bool_decide_eq_true_2 by done. by eexists.
Qed.

Lemma getProperty_Own (record : gmap jsstring jsstring) (key value : jsstring) :
  getProperty record key = Some (Own value) <-> record !! key = Some value.
Proof.
  unfold getProperty. destruct (record !! key) as [v|].
  - split; intros [= ->]; done.
  - destruct (bool_decide _); split; done.
Qed.

Lemma setProperty_lookup (record : gmap jsstring jsstring)
      (key value key' : jsstring) :
  setProperty record key value !! key'
  = if bool_decide (key = key' /\ key <> js "__proto__") then Some value
    else record !! key'.
Proof.
  unfold setProperty.
  destruct (bool_decide_reflect (key = js "__proto__")) as [->|Hne].
  - rewrite bool_decide_eq_false_2; [done|]. by intros [_ ?].
  - destruct (decide (key = key')) as [->|Hne'].
    + rewrite lookup_insert_eq. by rewrite bool_decide_eq_true_2.
    + rewrite lookup_insert_ne by done.
      rewrite bool_decide_eq_false_2; [done|]. by intros [? _].
Qed.

(** What the accumulator never has: an own property [__proto__]. *)
Lemma setProperty_proto (record : gmap jsstring jsstring) (key value : jsstring) :
  record !! js "__proto__" = None ->
  setProperty record key value !! js "__proto__" = None.
Proof.
  intros Hnone. rewrite setProperty_lookup.
  rewrite bool_decide_eq_false_2; [done|]. by intros [-> ?].
Qed.

(** ** Running computations *)

Lemma bind_run {A B} (m : M A) (f : A -> M B) w :
  bind m f w =
  match m w with
  | (Return a, w') => f a w'
  | (Throw e, w') => (Throw e, w')
  end.
Proof. reflexivity. Qed.

Lemma try_catch_run {A B} (m : M A) (k : A -> M B) handler w :
  try_catch m k handler w =
  match m w with
  | (Return a, w') => k a w'
  | (Throw e, w') => handler e w'
  end.
Proof. reflexivity. Qed.

(** ** Frame rules *)

Section Frames.
Context {R : World -> World -> Prop} `{!PreOrder R}.

Lemma preserves_ret {A} (a : A) : preserves R (ret a).
Proof. intros w. simpl. reflexivity. Qed.

Lemma preserves_throw {A} e : preserves R (@throw A e).
Proof. intros w. simpl. reflexivity. Qed.

Lemma preserves_bind {A B} (m : M A) (f : A -> M B) :
  preserves R m -> (forall a, preserves R (f a)) -> preserves R (bind m f).
Proof.
  intros Hm Hf w. unfold bind. specialize (Hm w).
  destruct (m w) as [[a|e] w']; simpl in *; [|exact Hm].
  etransitivity; [exact Hm | apply Hf].
Qed.

Lemma preserves_try_catch {A B} (m : M A) (k : A -> M B) handler :
  preserves R m -> (forall a, preserves R (k a)) ->
  (forall e, preserves R (handler e)) -> preserves R (try_catch m k handler).
Proof.
  intros Hm Hk Hh w. unfold try_catch. specialize (Hm w).
  destruct (m w) as [[a|e] w']; simpl in *;
    (etransitivity; [exact Hm | first [apply Hk | apply Hh]]).
Qed.

Lemma preserves_when b m : preserves R m -> preserves R (when b m).
Proof. destruct b; [done | intros _; apply preserves_ret]. Qed.

Lemma preserves_forEach {A} (l : list A) f :
  (forall a, preserves R (f a)) -> preserves R (forEach l f).
Proof.
  intros Hf. induction l as [|a l IH]; simpl; [apply preserves_ret|].
  apply preserves_bind; [apply Hf | intros _; exact IH].
Qed.

End Frames.

Global Instance kv_same_on_preorder K : PreOrder (kv_same_on K).
Proof.
  split; [intros w k _; reflexivity|].
  intros w1 w2 w3 H12 H23 k Hk. rewrite (H23 k Hk). apply (H12 k Hk).
Qed.

Section Properties.
Context `{Host}.

(** *** What each call of the SDK leaves in place *)

Lemma kv_set_same_on (K : jsstring -> Prop) key value ttl :
  ~ K key -> preserves (kv_same_on K) (kv_set key value ttl).
Proof.
  intros HK w k Hk. simpl. apply lookup_insert_ne. by intros ->.
Qed.

Lemma kv_delete_same_on (K : jsstring -> Prop) key :
  ~ K key -> preserves (kv_same_on K) (kv_delete key).
Proof.
  intros HK w k Hk. simpl. apply lookup_delete_ne. by intros ->.
Qed.

Lemma keeps_kv_same_on {A} (K : jsstring -> Prop) (m : M A) :
  (forall w, kv (snd (m w)) = kv w) -> preserves (kv_same_on K) m.
Proof. intros Hm w k _. by rewrite Hm. Qed.

Lemma kv_get_same_on K key : preserves (kv_same_on K) (kv_get key).
Proof. by apply keeps_kv_same_on. Qed.

Lemma kv_list_same_on K keyPrefix :
  preserves (kv_same_on K) (kv_list keyPrefix).
Proof. by apply keeps_kv_same_on. Qed.

Lemma timers_set_same_on K seconds eventId :
  preserves (kv_same_on K) (timers_set seconds eventId).
Proof. by apply keeps_kv_same_on. Qed.

Lemma timers_unset_same_on K id : preserves (kv_same_on K) (timers_unset id).
Proof. by apply keeps_kv_same_on. Qed.

Lemma perform_same_on K e : preserves (kv_same_on K) (perform e).
Proof. by apply keeps_kv_same_on. Qed.

Lemma streamMessage_same_on K params :
  preserves (kv_same_on K) (streamMessage params).
Proof. by apply keeps_kv_same_on. Qed.

Lemma finalMessage_same_on K stream :
  preserves (kv_same_on K) (finalMessage stream).
Proof.
  unfold finalMessage. destruct (final stream);
    [apply preserves_throw | apply preserves_ret].
Qed.

Lemma events_createPending_same_on K status :
  preserves (kv_same_on K) (events_createPending status).
Proof. by apply keeps_kv_same_on. Qed.

(** Splits a computation along its binds and its case distinctions, for a
    relation that every step preserves. *)
Ltac frame_step :=
  first
    [ apply preserves_ret
    | apply preserves_throw
    | apply preserves_bind; [|intros ?]
    | apply preserves_try_catch; [|intros ?|intros ?]
    | apply preserves_when
    | apply preserves_forEach; intros ?
    | apply kv_get_same_on
    | apply kv_list_same_on
    | apply timers_set_same_on
    | apply timers_unset_same_on
    | apply perform_same_on
    | apply streamMessage_same_on
    | apply finalMessage_same_on
    | apply events_createPending_same_on
    | match goal with
      | |- preserves _ (match ?x with _ => _ end) => destruct x
      | |- preserves _ (let '(_, _) := ?x in _) => destruct x
      end ].

Lemma syncPendingEvents_same_on K pendingId lastTool events :
  preserves (kv_same_on K) (syncPendingEvents pendingId lastTool events).
Proof.
  revert lastTool. induction events as [|event rest IH]; intros lastTool;
    simpl; [apply preserves_ret|].
  destruct event; unfold events_updatePending; repeat frame_step; apply IH.
Qed.

Lemma syncPendingEventWithStream_same_on K pendingId stream :
  preserves (kv_same_on K) (syncPendingEventWithStream pendingId stream).
Proof.
  unfold syncPendingEventWithStream.
  apply preserves_bind; [apply syncPendingEvents_same_on|intros _].
  repeat frame_step.
Qed.

Lemma generateObject_failed_same_on K params lastError :
  preserves (kv_same_on K) (generateObject_failed params lastError).
Proof.
  unfold generateObject_failed, events_cancelPending. repeat frame_step.
Qed.

Lemma generateObject_loop_same_on K finalText params remaining retryCount
      inputTokens outputTokens lastError :
  preserves (kv_same_on K)
            (generateObject_loop finalText params remaining retryCount
                                 inputTokens outputTokens lastError).
Proof.
  revert retryCount inputTokens outputTokens lastError.
  induction remaining as [|remaining IH];
    intros retryCount inputTokens outputTokens lastError; simpl.
  - apply generateObject_failed_same_on.
  - unfold events_updatePending, emitResult.
    repeat first [ apply IH | apply generateObject_failed_same_on
                 | frame_step ].
Qed.

(** C10. For every name, [cleanToolName] answers a string of at most 64 code
    units, each of them a lower-case ASCII letter, a digit, an underscore or
    a hyphen. The empty string is possible. *)
Theorem cleanToolName_charset_and_length (name : jsstring) :
  (length (cleanToolName name) <= 64)%nat /\
  Forall (fun c => 97 <= c <= 122 \/ 48 <= c <= 57 \/ c = 95 \/ c = 45)
         (cleanToolName name).
Proof.
  unfold cleanToolName, slice0, strip_ends. split.
  - rewrite length_take. lia.
  - eapply Forall_impl; [|intros c Hc; apply is_name_char_spec, Hc].
    apply Forall_take, Forall_dropWhileEnd, Forall_dropWhile.
    apply Forall_replace_runs; [by repeat constructor|].
    by apply Forall_replace_outside.
Qed.

(** *** A turn writes its own call state and timeout handle only *)

Lemma setTimeoutTimer_same_on (K : jsstring -> Prop) eventId :
  ~ K (timerKey eventId) -> preserves (kv_same_on K) (setTimeoutTimer eventId).
Proof.
  intros HK. unfold setTimeoutTimer.
  repeat first [ apply kv_set_same_on; assumption | frame_step ].
Qed.

Lemma clearTimeoutTimer_same_on (K : jsstring -> Prop) eventId :
  preserves (kv_same_on K) (clearTimeoutTimer eventId).
Proof. unfold clearTimeoutTimer. repeat frame_step. Qed.

Lemma handleModelResponse_same_on (K : jsstring -> Prop) message params :
  ~ K (callKey (tp_eventId params)) -> ~ K (timerKey (tp_eventId params)) ->
  preserves (kv_same_on K) (handleModelResponse message params).
Proof.
  intros Hcall Htimer. unfold handleModelResponse.
  destruct (processToolDefinitions _) as [[tools toolNames] toolBlockIds].
  unfold events_updatePending, events_cancelPending, emitResult,
    storeCallState, deleteCallState, generateObject.
  repeat first [ apply generateObject_loop_same_on
               | apply setTimeoutTimer_same_on; assumption
               | apply kv_set_same_on; assumption
               | apply kv_delete_same_on; assumption
               | frame_step ].
Qed.

Lemma executeTurn_failed_same_on (K : jsstring -> Prop) params lastError :
  ~ K (callKey (tp_eventId params)) ->
  preserves (kv_same_on K) (executeTurn_failed params lastError).
Proof.
  intros Hcall. unfold executeTurn_failed, events_cancelPending, deleteCallState.
  repeat first [ apply kv_delete_same_on; assumption | frame_step ].
Qed.

Lemma executeTurn_loop_same_on (K : jsstring -> Prop) params remaining
      retryCount lastError :
  ~ K (callKey (tp_eventId params)) -> ~ K (timerKey (tp_eventId params)) ->
  preserves (kv_same_on K)
            (executeTurn_loop params remaining retryCount lastError).
Proof.
  intros Hcall Htimer. revert retryCount lastError.
  induction remaining as [|remaining IH]; intros retryCount lastError; simpl.
  - by apply executeTurn_failed_same_on.
  - unfold events_updatePending, sleep.
    repeat first [ apply IH
                 | apply executeTurn_failed_same_on; assumption
                 | apply handleModelResponse_same_on; assumption
                 | apply syncPendingEventWithStream_same_on
                 | frame_step ].
Qed.

Lemma continueTurn_same_on (K : jsstring -> Prop) params toolCallIds
      toolResults :
  ~ K (callKey (tp_eventId params)) -> ~ K (timerKey (tp_eventId params)) ->
  preserves (kv_same_on K) (continueTurn params toolCallIds toolResults).
Proof.
  intros Hcall Htimer. unfold continueTurn, events_updatePending, executeTurn.
  apply preserves_bind; [apply perform_same_on|intros _].
  by apply executeTurn_loop_same_on.
Qed.

(** The keys of the four families differ. *)
Lemma lockKey_not_callKey e e' : lockKey e <> callKey e'.
Proof. discriminate. Qed.

Lemma lockKey_not_timerKey e e' : lockKey e <> timerKey e'.
Proof. discriminate. Qed.

Lemma resultKey_not_callKey e t i e' : resultKey e t i <> callKey e'.
Proof. discriminate. Qed.

Lemma resultKey_not_timerKey e t i e' : resultKey e t i <> timerKey e'.
Proof. discriminate. Qed.

Lemma resultKey_not_lockKey e t i e' : resultKey e t i <> lockKey e'.
Proof. discriminate. Qed.

Lemma callKey_not_timerKey e e' : callKey e <> timerKey e'.
Proof. discriminate. Qed.

Lemma callKey_inj e e' : callKey e = callKey e' -> e = e'.
Proof.
  unfold callKey, template. cbn [concat]. rewrite !app_nil_r.
  apply app_inv_head.
Qed.

Lemma timerKey_inj e e' : timerKey e = timerKey e' -> e = e'.
Proof.
  unfold timerKey, template. cbn [concat]. rewrite !app_nil_r.
  apply app_inv_head.
Qed.

Lemma lockKey_inj e e' : lockKey e = lockKey e' -> e = e'.
Proof.
  unfold lockKey, template. cbn [concat]. rewrite !app_nil_r.
  apply app_inv_head.
Qed.


(** ** The result aggregator *)

Lemma elem_of_pairsWithPrefix (keyPrefix : jsstring)
      (store : gmap jsstring KvEntry) (k : jsstring) (v : KvValue) :
  (k, v) ∈ pairsWithPrefix keyPrefix store <->
  startsWith keyPrefix k = true /\
  exists ttl, store !! k = Some {| kv_value := v; kv_ttl := ttl |}.
Proof.
  unfold pairsWithPrefix. rewrite list_elem_of_omap. split.
  - intros [[k' e] [Hin Hk]]. apply elem_of_map_to_list in Hin.
    destruct (startsWith keyPrefix k') eqn:E; [|done].
    injection Hk as -> <-. split; [done|]. exists (kv_ttl e). by destruct e.
  - intros [Hk [ttl Hs]]. exists (k, {| kv_value := v; kv_ttl := ttl |}).
    split; [by apply elem_of_map_to_list|]. by rewrite Hk.
Qed.

Lemma collectResults_snoc pairs pair :
  collectResults (pairs ++ [pair]) =
  match snd pair with
  | VToolResult toolCallId result =>
      setProperty (collectResults pairs) toolCallId result
  | _ => collectResults pairs
  end.
Proof. unfold collectResults. by rewrite foldl_app. Qed.

(** What the accumulator holds for a tool call was the payload of a pair. *)
Lemma collectResults_Some (pairs : list (jsstring * KvValue))
      (id result : jsstring) :
  collectResults pairs !! id = Some result ->
  exists k, (k, VToolResult id result) ∈ pairs.
Proof.
  induction pairs as [|[k v] pairs IH] using rev_ind; [done|].
  rewrite collectResults_snoc. simpl. setoid_rewrite elem_of_app.
  destruct v as [|id' result'| |];
    try (intros Hl; destruct (IH Hl) as [k' Hk']; eauto).
  rewrite setProperty_lookup.
  destruct (bool_decide_reflect (id' = id /\ id' <> js "__proto__"))
    as [[-> _]|_].
  - intros [= ->]. exists k. right. set_solver.
  - intros Hl; destruct (IH Hl) as [k' Hk']; eauto.
Qed.

(** The accumulator has no own property [__proto__]. *)
Lemma collectResults_proto (pairs : list (jsstring * KvValue)) :
  collectResults pairs !! js "__proto__" = None.
Proof.
  induction pairs as [|[k v] pairs IH] using rev_ind; [done|].
  rewrite collectResults_snoc. simpl.
  destruct v as [|id' result'| |]; try done. by apply setProperty_proto.
Qed.

(** A pair for a tool call leaves a payload for it in the accumulator,
    unless the call is named [__proto__]. *)
Lemma collectResults_is_Some (pairs : list (jsstring * KvValue))
      (k id result : jsstring) :
  id <> js "__proto__" ->
  (k, VToolResult id result) ∈ pairs -> is_Some (collectResults pairs !! id).
Proof.
  intros Hid.
  induction pairs as [|[k' v] pairs IH] using rev_ind; [by intros ?%elem_of_nil|].
  rewrite collectResults_snoc, elem_of_app. simpl. intros [Hin|Hin].
  - specialize (IH Hin). destruct v as [|id' result'| |]; try done.
    rewrite setProperty_lookup. by destruct (bool_decide _).
  - apply list_elem_of_singleton in Hin. injection Hin as <- <-.
    rewrite setProperty_lookup. rewrite bool_decide_eq_true_2 by done. eauto.
Qed.

Lemma loadToolResults_run eventId turn toolCallIds w :
  loadToolResults eventId turn toolCallIds w =
  (Return
     (forallb
        (hasResult
           (collectResults
              (pairsWithPrefix (resultPrefix eventId turn) (kv w))))
        toolCallIds,
      collectResults (pairsWithPrefix (resultPrefix eventId turn) (kv w))),
   w).
Proof. reflexivity. Qed.

Lemma startsWith_resultKey eventId turn toolCallId :
  startsWith (resultPrefix eventId turn) (resultKey eventId turn toolCallId)
  = true.
Proof. apply startsWith_app. eexists. apply resultKey_prefix. Qed.

(** Under [fragments_keyed], the own properties of the aggregate are
    exactly the fragments stored for the pair, but for a fragment of a tool
    call named [__proto__], which leaves none. *)
Lemma collected_iff_stored eventId turn w id result :
  fragments_keyed eventId turn w ->
  collectResults (pairsWithPrefix (resultPrefix eventId turn) (kv w)) !! id
  = Some result <->
  id <> js "__proto__" /\ stored_fragment eventId turn id result w.
Proof.
  intros Hkeyed. split.
  - intros Hl. split.
    { intros ->. by rewrite collectResults_proto in Hl. }
    apply collectResults_Some in Hl as [k Hin].
    apply elem_of_pairsWithPrefix in Hin as [Hk [ttl Hs]].
    rewrite (Hkeyed _ _ _ _ Hs Hk) in Hs. by exists ttl.
  - intros [Hid [ttl Hs]].
    assert (Hin : (resultKey eventId turn id, VToolResult id result)
                  ∈ pairsWithPrefix (resultPrefix eventId turn) (kv w)).
    { apply elem_of_pairsWithPrefix.
      split; [apply startsWith_resultKey | by exists ttl]. }
    destruct (collectResults_is_Some _ _ _ _ Hid Hin) as [result' Hl].
    rewrite Hl. f_equal.
    apply collectResults_Some in Hl as [k Hk].
    apply elem_of_pairsWithPrefix in Hk as [Hk [ttl' Hs']].
    rewrite (Hkeyed _ _ _ _ Hs' Hk) in Hs'. congruence.
Qed.

(** What the aggregate reads for an identifier, under [fragments_keyed]: the
    payload stored for the pair; without one, what every object inherits
    under the name. *)
Lemma hasResult_iff_stored eventId turn w id :
  fragments_keyed eventId turn w ->
  hasResult (collectResults (pairsWithPrefix (resultPrefix eventId turn) (kv w)))
            id = true
  <-> id ∈ objectPrototype
      \/ exists result, stored_fragment eventId turn id result w.
Proof.
  intros Hkeyed. unfold hasResult. rewrite bool_decide_eq_true.
  destruct (decide (id ∈ objectPrototype)) as [Hin|Hout].
  - split; [by left | intros _; by apply getProperty_inherited].
  - rewrite getProperty_own by done. rewrite fmap_is_Some. split.
    + intros [result Hl]. right. exists result.
      by apply (collected_iff_stored eventId turn w) in Hl as [_ ?].
    + intros [?|[result Hs]]; [done|]. exists result.
      apply collected_iff_stored; [done|]. split; [|done].
      intros ->. apply Hout, proto_inherited.
Qed.

Lemma storeToolResult_kv eventId toolCallId result turn w :
  kv (snd (storeToolResult eventId toolCallId result turn w)) =
  <[resultKey eventId turn toolCallId :=
      {| kv_value := VToolResult toolCallId result;
         kv_ttl := Some 300%nat |}]> (kv w).
Proof. reflexivity. Qed.

(** Storing a fragment for the same event, under any turn, keeps the
    fragments of a pair at their keys. *)
Lemma storeToolResult_fragments_keyed eventId turn turn' toolCallId result w :
  fragments_keyed eventId turn w ->
  fragments_keyed eventId turn
    (snd (storeToolResult eventId toolCallId result turn' w)).
Proof.
  intros Hkeyed key id r ttl. rewrite storeToolResult_kv.
  destruct (decide (key = resultKey eventId turn' toolCallId)) as [->|Hne].
  - rewrite lookup_insert_eq. intros [= <- <- <-] Hk.
    by rewrite (resultKey_other_turn _ _ _ _ Hk).
  - rewrite lookup_insert_ne by done. apply Hkeyed.
Qed.

Lemma resultKey_inj_turn eventId turn turn' id id' :
  resultKey eventId turn id = resultKey eventId turn' id' -> turn = turn'.
Proof.
  intros E. apply (resultKey_other_turn eventId turn' turn id).
  rewrite E. apply startsWith_resultKey.
Qed.

Lemma resultKey_inj_id eventId turn id id' :
  resultKey eventId turn id = resultKey eventId turn id' -> id = id'.
Proof. rewrite !resultKey_prefix. apply app_inv_head. Qed.

Lemma fragments_keyed_without_fragments eventId turn w :
  (forall key toolCallId result ttl,
     kv w !! key
     <> Some {| kv_value := VToolResult toolCallId result; kv_ttl := ttl |}) ->
  fragments_keyed eventId turn w.
Proof. intros Hnone key id r ttl Hs. by destruct (Hnone _ _ _ _ Hs). Qed.

(** A fragment of another event whose identifier is as long as [eventId]
    is not listed under the prefixes of [eventId]. *)
Lemma storeToolResult_other_event_keyed eventId turn eventId' turn'
      toolCallId result w :
  length eventId' = length eventId -> eventId' <> eventId ->
  fragments_keyed eventId turn w ->
  fragments_keyed eventId turn
    (snd (storeToolResult eventId' toolCallId result turn' w)).
Proof.
  intros Hlen Hne Hkeyed key id r ttl. rewrite storeToolResult_kv.
  destruct (decide (key = resultKey eventId' turn' toolCallId)) as [->|Hk].
  - rewrite lookup_insert_eq. intros _ [rest E]%startsWith_app.
    unfold resultKey, resultPrefix, template in E. cbn [concat] in E.
    rewrite !app_nil_r in E. rewrite <- !app_assoc in E.
    apply app_inv_head in E.
    apply app_inj_1 in E as [E _]; [done|exact Hlen].
  - rewrite lookup_insert_ne by done. apply Hkeyed.
Qed.

(** A store built from one without fragments by storing fragments for
    events whose identifiers are as long as [eventId]. *)
Lemma stores_of_one_length_keyed eventId turn
      (stores : list (list N * list N * list N * nat)) w :
  Forall (fun '(eventId', _, _, _) => length eventId' = length eventId)
         stores ->
  fragments_keyed eventId turn w ->
  fragments_keyed eventId turn
    (foldl (fun w '(eventId', toolCallId, result, turn') =>
              snd (storeToolResult eventId' toolCallId result turn' w))
           w stores).
Proof.
  intros Hlen. revert w.
  induction Hlen as [|[[[eventId' toolCallId] result] turn'] stores Hl _ IH];
    intros w Hkeyed; [done|].
  simpl. apply IH.
  destruct (decide (eventId' = eventId)) as [->|Hne].
  - by apply storeToolResult_fragments_keyed.
  - by apply storeToolResult_other_event_keyed.
Qed.

(** Under [fragments_keyed], the results are complete exactly when every
    expected identifier has a fragment stored for the pair or is a name that
    every object inherits. *)
Lemma loadToolResults_complete_iff eventId turn toolCallIds w :
  fragments_keyed eventId turn w ->
  forallb
    (hasResult
       (collectResults (pairsWithPrefix (resultPrefix eventId turn) (kv w))))
    toolCallIds = true
  <-> forall id,
        id ∈ toolCallIds ->
        id ∈ objectPrototype
        \/ exists result, stored_fragment eventId turn id result w.
Proof.
  intros Hkeyed. rewrite forallb_forall.
  setoid_rewrite <- list_elem_of_In.
  split; intros Hall id Hid; specialize (Hall id Hid);
    by apply (hasResult_iff_stored eventId turn w id Hkeyed).
Qed.

(** C4, as the code has it. On a store where the fragments listed under the
    prefix of ([eventId], [turn]) are the ones stored for that pair, and for
    expected identifiers none of which is a name that every object inherits,
    [loadToolResults] leaves the world as it is, reports completeness exactly
    when every expected identifier has a fragment stored for the pair, reads
    for such an identifier exactly the payload stored for the pair, and
    answers the same whatever is stored for the event under another turn
    number. *)
Theorem loadToolResults_exact_turn eventId turn toolCallIds w :
  fragments_keyed eventId turn w ->
  Forall (fun id => id ∉ objectPrototype) toolCallIds ->
  exists haveAllResults toolResults,
    loadToolResults eventId turn toolCallIds w
    = (Return (haveAllResults, toolResults), w)
    /\ (haveAllResults = true <->
        forall id, id ∈ toolCallIds ->
                   exists result, stored_fragment eventId turn id result w)
    /\ (forall id result,
          id ∉ objectPrototype ->
          getProperty toolResults id = Some (Own result) <->
          stored_fragment eventId turn id result w)
    /\ (forall turn' id' result',
          turn' <> turn ->
          let w' := snd (storeToolResult eventId id' result' turn' w) in
          loadToolResults eventId turn toolCallIds w'
          = (Return (haveAllResults, toolResults), w')).
Proof.
  intros Hkeyed Hids. do 2 eexists. split; [apply loadToolResults_run|].
  split; [|split].
  - rewrite (loadToolResults_complete_iff _ _ _ _ Hkeyed).
    rewrite Forall_forall in Hids.
    split; intros Hall id Hid; specialize (Hall id Hid).
    + destruct Hall as [Hin|Hs]; [by destruct (Hids id Hid) | done].
    + by right.
  - intros id result Hid. rewrite getProperty_Own.
    rewrite (collected_iff_stored _ _ _ _ _ Hkeyed). split; [by intros [_ ?]|].
    intros Hs. split; [|done]. intros ->. apply Hid, proto_inherited.
  - intros turn' id' result' Hturn w'. rewrite loadToolResults_run.
    assert (Hsame :
      collectResults (pairsWithPrefix (resultPrefix eventId turn) (kv w'))
      = collectResults (pairsWithPrefix (resultPrefix eventId turn) (kv w))).
    { apply map_eq. intros id. apply option_eq. intros result.
      rewrite !collected_iff_stored
        by (try apply storeToolResult_fragments_keyed; done).
      unfold stored_fragment, w'. rewrite storeToolResult_kv.
      rewrite lookup_insert_ne; [done|].
      intros E. by apply resultKey_inj_turn in E. }
    by rewrite Hsame.
Qed.

(** C6, as the code has it: the last write wins. Whatever was stored for a
    triple before, after [storeToolResult] the aggregation reads the payload
    just stored, for every tool call but one named [__proto__]. *)
Theorem storeToolResult_last_write_wins eventId turn toolCallId result
        toolCallIds w :
  fragments_keyed eventId turn w ->
  toolCallId <> js "__proto__" ->
  let w' := snd (storeToolResult eventId toolCallId result turn w) in
  exists haveAllResults toolResults,
    loadToolResults eventId turn toolCallIds w'
    = (Return (haveAllResults, toolResults), w')
    /\ getProperty toolResults toolCallId = Some (Own result).
Proof.
  intros Hkeyed Hid w'. do 2 eexists. split; [apply loadToolResults_run|].
  apply getProperty_Own.
  apply collected_iff_stored;
    [by apply storeToolResult_fragments_keyed|].
  split; [done|].
  exists (Some 300%nat). unfold w'. rewrite storeToolResult_kv.
  apply lookup_insert_eq.
Qed.

(** ** The structured object extractor *)

Lemma next_outcomes_S w w' n :
  api_calls w' = S (api_calls w) ->
  next_outcomes w (S n) = api (api_calls w) :: next_outcomes w' n.
Proof.
  intros Hc. unfold next_outcomes. simpl. rewrite Nat.add_0_r. f_equal.
  rewrite <- seq_shift, map_map. apply map_ext. intros k. rewrite Hc.
  f_equal. lia.
Qed.

Lemma generateObject_failed_run params lastError w :
  generateObject_failed params lastError w =
  (match lastError with Some e => Throw e | None => Return tt end,
   issued (CancelPending (op_pendingId params)
             (objectFailureReason lastError)) w).
Proof. by destruct lastError. Qed.

Lemma last_error_from_cons params earlier o os :
  last_error_from params earlier (o :: os)
  = last_error_from params
      (match attempt_error params o with
       | Some e => Some e
       | None => earlier
       end) os.
Proof.
  unfold last_error_from. simpl.
  destruct (attempt_error params o) as [e|]; [|done].
  rewrite last_cons. by destruct (last _).
Qed.

(** With attempts to spare after an error the loop goes on, and without it
    ends as if it went on: [retryCount >= maxRetries] holds exactly when no
    attempt is left. *)
Lemma generateObject_caught finalText params remaining retryCount
      inputTokens outputTokens e :
  (retryCount + S remaining = attempts (op_maxRetries params))%nat ->
  (if ge (of_nat (S retryCount)) (op_maxRetries params)
   then generateObject_failed params (Some e)
   else generateObject_loop finalText params remaining (S retryCount)
          inputTokens outputTokens (Some e))
  = generateObject_loop finalText params remaining (S retryCount)
      inputTokens outputTokens (Some e).
Proof.
  intros Hcount. rewrite ge_of_nat. destruct remaining as [|remaining].
  - by rewrite (proj2 (Nat.leb_le _ _)) by lia.
  - by rewrite (proj2 (Nat.leb_gt _ _)) by lia.
Qed.

Lemma generateObject_loop_spec finalText params remaining retryCount
      inputTokens outputTokens lastError w :
  (retryCount + remaining = attempts (op_maxRetries params))%nat ->
  let outs := next_outcomes w remaining in
  exists w',
    kv w' = kv w /\ timers w' = timers w /\
    match first_valid params outs with
    | Some (j, object) =>
        generateObject_loop finalText params remaining retryCount
                            inputTokens outputTokens lastError w
        = (Return tt, w')
        /\ api_calls w' = (api_calls w + S j)%nat
        /\ last (effects w')
           = Some (Emit (Some finalText) (Some object)
                     (inputTokens
                      + sum_list (map outcome_input_tokens (take (S j) outs)))
                     (outputTokens
                      + sum_list (map outcome_output_tokens (take (S j) outs)))
                     (op_pendingId params) (op_parentEventId params))
    | None =>
        generateObject_loop finalText params remaining retryCount
                            inputTokens outputTokens lastError w
        = (match last_error_from params lastError outs with
           | Some e => Throw e
           | None => Return tt
           end, w')
        /\ api_calls w' = (api_calls w + remaining)%nat
        /\ last (effects w')
           = Some (CancelPending (op_pendingId params)
                     (objectFailureReason
                        (last_error_from params lastError outs)))
    end.
Proof.
  revert retryCount inputTokens outputTokens lastError w.
  induction remaining as [|remaining IH];
    intros retryCount inputTokens outputTokens lastError w Hcount outs.
  - subst outs. cbn [next_outcomes seq map first_valid generateObject_loop].
    rewrite generateObject_failed_run.
    eexists. split; [|split]; cycle 2.
    { split; [reflexivity|]. split; [simpl; lia|].
      unfold issued. simpl. by rewrite last_snoc. }
    all: reflexivity.
  - assert (Houts : outs = api (api_calls w)
                           :: next_outcomes (objectAttempted params retryCount w)
                                            remaining)
      by (by apply next_outcomes_S).
    cbn [generateObject_loop]. cbv zeta. rewrite try_catch_run.
    change ((events_updatePending (op_pendingId params) (objectStatus retryCount);;;
             stream <- streamMessage (objectStreamParams params);;
             finalMessage stream) w)
      with (finalMessage (api (api_calls w))
                         (objectAttempted params retryCount w)).
    unfold finalMessage. rewrite Houts. cbn [first_valid].
    rewrite last_error_from_cons.
    unfold attempt_error at 1 2. unfold attempt.
    assert (Hin : forall j os,
      sum_list (map outcome_input_tokens (take (S j) (api (api_calls w) :: os)))
      = (match final (api (api_calls w)) with
         | inr m => input_tokens m
         | inl _ => 0
         end + sum_list (map outcome_input_tokens (take j os)))%nat) by done.
    assert (Hout : forall j os,
      sum_list (map outcome_output_tokens (take (S j) (api (api_calls w) :: os)))
      = (match final (api (api_calls w)) with
         | inr m => output_tokens m
         | inl _ => 0
         end + sum_list (map outcome_output_tokens (take j os)))%nat) by done.
    (* what follows an attempt that failed with [e], with the tokens [i], [o] *)
    assert (Hcaught : forall e i o,
      (i = inputTokens + match final (api (api_calls w)) with
                         | inr m => input_tokens m
                         | inl _ => 0
                         end)%nat ->
      (o = outputTokens + match final (api (api_calls w)) with
                          | inr m => output_tokens m
                          | inl _ => 0
                          end)%nat ->
      exists w',
        kv w' = kv w /\ timers w' = timers w /\
        match
          match
            first_valid params
              (next_outcomes (objectAttempted params retryCount w) remaining)
          with
          | Some (j, object) => Some (S j, object)
          | None => None
          end
        with
        | Some (j, object) =>
            generateObject_loop finalText params remaining (S retryCount)
                                i o (Some e)
                                (objectAttempted params retryCount w)
            = (Return tt, w')
            /\ api_calls w' = (api_calls w + S j)%nat
            /\ last (effects w')
               = Some (Emit (Some finalText) (Some object)
                         (inputTokens
                          + sum_list
                              (map outcome_input_tokens
                                 (take (S j)
                                    (api (api_calls w)
                                     :: next_outcomes
                                          (objectAttempted params retryCount w)
                                          remaining))))
                         (outputTokens
                          + sum_list
                              (map outcome_output_tokens
                                 (take (S j)
                                    (api (api_calls w)
                                     :: next_outcomes
                                          (objectAttempted params retryCount w)
                                          remaining))))
                         (op_pendingId params) (op_parentEventId params))
        | None =>
            generateObject_loop finalText params remaining (S retryCount)
                                i o (Some e)
                                (objectAttempted params retryCount w)
            = (match
                 last_error_from params (Some e)
                   (next_outcomes (objectAttempted params retryCount w)
                                  remaining)
               with
               | Some e => Throw e
               | None => Return tt
               end, w')
            /\ api_calls w' = (api_calls w + S remaining)%nat
            /\ last (effects w')
               = Some (CancelPending (op_pendingId params)
                         (objectFailureReason
                            (last_error_from params (Some e)
                               (next_outcomes
                                  (objectAttempted params retryCount w)
                                  remaining))))
        end).
    { intros e i o Hi Ho.
      destruct (IH (S retryCount) i o (Some e)
                  (objectAttempted params retryCount w)
                  ltac:(lia)) as (w' & Hkv & Htimers & Hrest).
      exists w'. split; [by rewrite Hkv|]. split; [by rewrite Htimers|].
      destruct (first_valid params _) as [[j object]|];
        destruct Hrest as (Hrun & Hcalls & Hlast);
        (split; [exact Hrun|]); (split; [rewrite Hcalls; simpl; lia|]).
      - rewrite Hlast, Hin, Hout, Hi, Ho. do 2 f_equal; lia.
      - exact Hlast. }
    destruct (final (api (api_calls w))) as [e|m] eqn:Hfinal.
    + (* the request failed *)
      cbv beta iota delta [throw].
      rewrite generateObject_caught by lia.
      apply Hcaught; lia.
    + (* the request answered a message *)
      cbv beta iota delta [ret].
      destruct (validObject params m) as [e|[object|]] eqn:Hvalid.
      * (* the validator threw *)
        rewrite generateObject_caught by lia.
        by apply Hcaught.
      * unfold emitResult, perform.
        eexists. split; [|split]; cycle 2.
        { split; [reflexivity|]. split; [simpl; lia|].
          rewrite Hin, Hout.
          unfold issued. simpl. rewrite last_snoc. do 2 f_equal; lia. }
        all: reflexivity.
      * destruct (IH (S retryCount) (inputTokens + input_tokens m)%nat
                    (outputTokens + output_tokens m)%nat lastError
                    (objectAttempted params retryCount w)
                    ltac:(lia)) as (w' & Hkv & Htimers & Hrest).
        exists w'. split; [by rewrite Hkv|]. split; [by rewrite Htimers|].
        destruct (first_valid params _) as [[j object]|];
          destruct Hrest as (Hrun & Hcalls & Hlast);
          (split; [exact Hrun|]); (split; [rewrite Hcalls; simpl; lia|]).
        -- rewrite Hlast, Hin, Hout. do 2 f_equal; lia.
        -- exact Hlast.
Qed.

Lemma first_valid_lt params os j object :
  first_valid params os = Some (j, object) -> (j < length os)%nat.
Proof.
  revert j. induction os as [|o os IH]; intros j; simpl; [done|].
  destruct (attempt params o); [intros [= <- _]; lia|..];
    (destruct (first_valid params os) as [[j' object']|]; [|done];
     intros [= <- <-]; specialize (IH j' eq_refl); lia).
Qed.

Lemma length_next_outcomes w n : length (next_outcomes w n) = n.
Proof. unfold next_outcomes. by rewrite length_map, length_seq. Qed.


(** ** The turn executor *)

Global Instance quiet_preorder : PreOrder quiet.
Proof.
  split.
  - intros w. by repeat split.
  - intros w1 w2 w3 (?&?&?&?&?) (?&?&?&?&?). repeat split; congruence.
Qed.

Lemma sleeps_app es es' : sleeps (es ++ es') = sleeps es ++ sleeps es'.
Proof. apply omap_app. Qed.

Lemma events_updatePending_quiet pendingId status :
  preserves quiet (events_updatePending pendingId status).
Proof.
  intros w. repeat split. simpl. rewrite sleeps_app. simpl. apply app_nil_r.
Qed.

Lemma syncPendingEvents_quiet pendingId lastTool events :
  preserves quiet (syncPendingEvents pendingId lastTool events).
Proof.
  revert lastTool. induction events as [|event rest IH]; intros lastTool;
    simpl; [apply preserves_ret|].
  destruct event;
    repeat first [ apply IH | apply events_updatePending_quiet
                 | apply preserves_ret
                 | apply preserves_bind; [|intros ?]
                 | apply preserves_when ].
Qed.

Lemma syncPendingEvents_returns pendingId lastTool events w :
  fst (syncPendingEvents pendingId lastTool events w) = Return tt.
Proof.
  revert lastTool w. induction events as [|event rest IH]; intros lastTool w;
    simpl; [done|].
  destruct event; simpl; rewrite ?bind_run; simpl; try apply IH.
  destruct (match lastTool with Some t => _ | None => _ end); simpl; apply IH.
Qed.

Lemma executeTurn_failed_run params lastError w :
  executeTurn_failed params lastError w =
  (Throw (default {| message := js "Unknown error" |} lastError),
   turnFailed params lastError w).
Proof. reflexivity. Qed.

(** An attempt of [executeTurn] ends as the request does. *)
Lemma turn_attempt_run params retryCount w :
  (when (0 <? retryCount)%nat
     (events_updatePending (tp_pendingId params) (retryStatus retryCount)) ;;;
   stream <- streamMessage (turnStreamParams params) ;;
   syncPendingEventWithStream (tp_pendingId params) stream ;;;
   finalMessage stream) w
  = (match final (api (api_calls w)) with
     | inl e => Throw e
     | inr m => Return m
     end,
     turnAttempted params retryCount w).
Proof.
  unfold turnAttempted, syncPendingEventWithStream, finalMessage.
  set (w0 := if (0 <? retryCount)%nat then _ else w).
  assert (Hwhen : when (0 <? retryCount)%nat
            (events_updatePending (tp_pendingId params)
               (retryStatus retryCount)) w = (Return tt, w0))
    by (unfold w0; by destruct (0 <? retryCount)%nat).
  assert (Hcalls : api_calls w0 = api_calls w)
    by (unfold w0; by destruct (0 <? retryCount)%nat).
  rewrite bind_run, Hwhen. rewrite bind_run. unfold streamMessage at 1.
  rewrite !bind_run.
  pose proof (syncPendingEvents_returns (tp_pendingId params) None
                (streamed (api (api_calls w0)))
                (sent (stream_request (turnStreamParams params)) w0)) as Hret.
  destruct (syncPendingEvents _ _ _ _) as [r w1]. simpl in Hret. subst r.
  rewrite Hcalls. by destruct (final (api (api_calls w))).
Qed.

Lemma turnAttempted_spec params retryCount w :
  let w' := turnAttempted params retryCount w in
  kv w' = kv w /\ timers w' = timers w /\ next_id w' = next_id w
  /\ api_calls w' = S (api_calls w)
  /\ sleeps (effects w') = sleeps (effects w).
Proof.
  unfold turnAttempted.
  set (w0 := if (0 <? retryCount)%nat then _ else w).
  assert (Hq0 : quiet w w0).
  { unfold w0. destruct (0 <? retryCount)%nat; [|reflexivity].
    apply (events_updatePending_quiet (tp_pendingId params)
             (retryStatus retryCount) w). }
  pose proof (syncPendingEvents_quiet (tp_pendingId params) None
                (streamed (api (api_calls w0)))
                (sent (stream_request (turnStreamParams params)) w0)) as Hq1.
  destruct Hq0 as (?&?&?&?&Hs0), Hq1 as (?&?&?&?&Hs1).
  cbn [sent kv timers next_id api_calls effects] in *.
  repeat split; try congruence.
  rewrite Hs1, sleeps_app, Hs0. simpl. apply app_nil_r.
Qed.

Lemma executeTurn_loop_retry params remaining retryCount lastError w e :
  final (api (api_calls w)) = inl e -> isRetryable e = true ->
  (S retryCount < attempts (maxRetries (tp_settings params)))%nat ->
  executeTurn_loop params (S remaining) retryCount lastError w
  = executeTurn_loop params remaining (S retryCount) (Some e)
      (issued (Sleep (backoffDelay (S retryCount)))
              (turnAttempted params retryCount w)).
Proof.
  intros Hfinal Hretry Hcount. cbn [executeTurn_loop].
  rewrite try_catch_run, turn_attempt_run, Hfinal, Hretry, ge_of_nat.
  replace (attempts (maxRetries (tp_settings params)) <=? S retryCount)%nat
    with false by (symmetry; apply Nat.leb_gt; lia).
  reflexivity.
Qed.

Lemma executeTurn_loop_success params remaining retryCount lastError w m :
  final (api (api_calls w)) = inr m ->
  executeTurn_loop params (S remaining) retryCount lastError w
  = handleModelResponse m params (turnAttempted params retryCount w).
Proof.
  intros Hfinal. cbn [executeTurn_loop].
  by rewrite try_catch_run, turn_attempt_run, Hfinal.
Qed.

Lemma executeTurn_loop_fatal params remaining retryCount lastError w e :
  final (api (api_calls w)) = inl e ->
  isRetryable e = false
  \/ (attempts (maxRetries (tp_settings params)) <= S retryCount)%nat ->
  executeTurn_loop params (S remaining) retryCount lastError w
  = (Throw e, turnFailed params (Some e) (turnAttempted params retryCount w)).
Proof.
  intros Hfinal Hfatal. cbn [executeTurn_loop].
  rewrite try_catch_run, turn_attempt_run, Hfinal, ge_of_nat.
  replace (negb (isRetryable e)
           || (attempts (maxRetries (tp_settings params)) <=? S retryCount)%nat)
    with true; [apply executeTurn_failed_run|].
  symmetry. apply orb_true_iff. destruct Hfatal as [->|Hle]; [by left|].
  right. by apply Nat.leb_le.
Qed.

(** [n] requests in a row that fail with a retryable error, with attempts
    to spare: the loop sleeps after each and is back at its head. *)
Lemma executeTurn_loop_transient params n :
  forall remaining retryCount lastError w,
    (retryCount + n < attempts (maxRetries (tp_settings params)))%nat ->
    (forall k, (k < n)%nat ->
               exists e, final (api (api_calls w + k)) = inl e
                         /\ isRetryable e = true) ->
    exists w' lastError',
      executeTurn_loop params (n + remaining) retryCount lastError w
      = executeTurn_loop params remaining (retryCount + n) lastError' w'
      /\ kv w' = kv w /\ timers w' = timers w /\ next_id w' = next_id w
      /\ api_calls w' = (api_calls w + n)%nat
      /\ sleeps (effects w')
         = sleeps (effects w) ++ map backoffDelay (seq (S retryCount) n).
Proof.
  induction n as [|n IH]; intros remaining retryCount lastError w Hcount Hfail.
  - exists w, lastError. rewrite !Nat.add_0_r. simpl. rewrite app_nil_r.
    by repeat split.
  - destruct (Hfail 0%nat ltac:(lia)) as (e & Hfinal & Hretry).
    rewrite Nat.add_0_r in Hfinal.
    cbn [Nat.add]. rewrite (executeTurn_loop_retry _ _ _ _ _ e)
      by (try done; lia).
    set (w1 := issued _ _).
    destruct (turnAttempted_spec params retryCount w)
      as (Hkv & Htimers & Hnext & Hcalls & Hsleeps).
    destruct (IH remaining (S retryCount) (Some e) w1 ltac:(lia))
      as (w' & lastError' & Hrun & Hkv' & Htimers' & Hnext' & Hcalls'
          & Hsleeps').
    { intros k Hk. destruct (Hfail (S k) ltac:(lia)) as (e' & He' & Hr').
      exists e'. split; [|done]. unfold w1. cbn [issued api_calls].
      rewrite Hcalls. rewrite <- He'. do 2 f_equal. lia. }
    exists w', lastError'. rewrite Hrun.
    replace (S retryCount + n)%nat with (retryCount + S n)%nat by lia.
    split; [done|]. unfold w1 in *. cbn [issued kv timers next_id api_calls
                                          effects] in *.
    repeat split; try congruence.
    + rewrite Hcalls', Hcalls. lia.
    + rewrite Hsleeps', sleeps_app, Hsleeps. simpl.
      by rewrite <- app_assoc.
Qed.

Lemma handleModelResponse_text message params w text :
  stop_reason message = end_turn -> lastText message = Some text ->
  schema (tp_settings params) = None ->
  handleModelResponse message params w
  = (Return tt,
     issued (Emit (Some text) None (input_tokens message)
                  (output_tokens message) (tp_pendingId params)
                  (tp_eventId params)) w).
Proof.
  intros Hstop Htext Hschema. unfold handleModelResponse.
  destruct (processToolDefinitions _) as [[tools toolNames] toolBlockIds].
  by rewrite Hstop, Htext, Hschema.
Qed.

Lemma turnFailed_spec params lastError w :
  let w' := turnFailed params lastError w in
  kv w' = delete (callKey (tp_eventId params)) (kv w)
  /\ timers w' = timers w /\ api_calls w' = api_calls w
  /\ sleeps (effects w') = sleeps (effects w)
  /\ last (effects w')
     = Some (CancelPending (tp_pendingId params) (apiFailureReason lastError)).
Proof.
  unfold turnFailed. simpl. repeat split.
  - rewrite sleeps_app. simpl. apply app_nil_r.
  - by rewrite last_snoc.
Qed.

Lemma isRetryable_iff e :
  isRetryable e = true
  <-> exists word,
        word ∈ retriedWords
        /\ includes word (toLowerCase (message e)) = true.
Proof.
  unfold isRetryable, retriedWords. rewrite !orb_true_iff. split.
  - intros [[[[[Hw|Hw]|Hw]|Hw]|Hw]|Hw]; eexists; (split; [|exact Hw]);
      set_solver.
  - intros (word & Hin & Hw). set_unfold in Hin.
    destruct Hin as [->|[->|[->|[->|[->|[->|[]]]]]]]; tauto.
Qed.

(** What the code retries. When the next [n] requests fail with an error
    whose message holds one of the words and [n < maxRetries], [executeTurn]
    sends [n + 1] requests and sleeps before the retry number k for
    1000 * 2^(k-1) ms, 10000 ms at most. When the request [n + 1] answers,
    its message is what the turn goes on with, and a final text is emitted
    with the tokens of that message alone. When it fails with an error whose
    message holds none of the words, the turn fails with that error: no
    further request, no further sleep. *)
Lemma executeTurn_retries_with_backoff params w n :
  (of_nat n < maxRetries (tp_settings params))%Q ->
  (forall k, (k < n)%nat ->
             exists e, final (api (api_calls w + k)) = inl e
                       /\ isRetryable e = true) ->
  exists w',
    kv w' = kv w /\ timers w' = timers w
    /\ api_calls w' = (api_calls w + n + 1)%nat
    /\ sleeps (effects w')
       = sleeps (effects w)
         ++ map (fun k => N.min (1000 * 2 ^ N.of_nat (k - 1)) 10000)
                (seq 1 n)
    /\ match final (api (api_calls w + n)) with
       | inr message =>
           executeTurn params w = handleModelResponse message params w'
           /\ forall text,
               stop_reason message = end_turn ->
               lastText message = Some text ->
               schema (tp_settings params) = None ->
               executeTurn params w
               = (Return tt,
                  issued (Emit (Some text) None (input_tokens message)
                               (output_tokens message) (tp_pendingId params)
                               (tp_eventId params)) w')
       | inl e =>
           isRetryable e = false ->
           exists w'',
             executeTurn params w = (Throw e, w'')
             /\ api_calls w'' = api_calls w'
             /\ sleeps (effects w'') = sleeps (effects w')
             /\ last (effects w'')
                = Some (CancelPending (tp_pendingId params)
                          (apiFailureReason (Some e)))
       end.
Proof.
  intros Hcount%attempts_lt Hfail. unfold executeTurn.
  destruct (attempts (maxRetries (tp_settings params)) - n)%nat
    as [|remaining] eqn:Hrem; [lia|].
  assert (Hsplit : attempts (maxRetries (tp_settings params))
                   = (n + S remaining)%nat) by lia.
  rewrite Hsplit.
  destruct (executeTurn_loop_transient params n (S remaining) 0 None w
              ltac:(lia) Hfail)
    as (w0 & lastError & -> & Hkv & Htimers & Hnext & Hcalls & Hsleeps).
  destruct (turnAttempted_spec params (0 + n) w0)
    as (Hkv' & Htimers' & Hnext' & Hcalls' & Hsleeps').
  exists (turnAttempted params (0 + n) w0).
  split; [congruence|]. split; [congruence|]. split; [lia|].
  split; [by rewrite Hsleeps', Hsleeps|].
  rewrite <- Hcalls.
  destruct (final (api (api_calls w0))) as [e|message] eqn:Hfinal.
  - intros Hretry.
    rewrite (executeTurn_loop_fatal _ _ _ _ _ e) by (try done; by left).
    destruct (turnFailed_spec params (Some e)
                (turnAttempted params (0 + n) w0))
      as (_ & _ & Hc & Hs & Hl).
    eexists. split; [reflexivity|]. by repeat split.
  - rewrite (executeTurn_loop_success _ _ _ _ _ message) by done.
    split; [done|]. intros text Hstop Htext Hschema.
    by apply handleModelResponse_text.
Qed.

Lemma handleModelResponse_unexpected message params w reason :
  stop_reason message = other_stop reason ->
  handleModelResponse message params w
  = (Return tt,
     snd (deleteCallState (tp_eventId params)
            (issued (CancelPending (tp_pendingId params)
                       (js "Unexpected response from model")) w))).
Proof.
  intros Hstop. unfold handleModelResponse.
  destruct (processToolDefinitions _) as [[tools toolNames] toolBlockIds].
  by rewrite Hstop.
Qed.

Lemma executeTurn_without_attempts params w :
  attempts (maxRetries (tp_settings params)) = 0%nat ->
  executeTurn params w
  = (Throw {| message := js "Unknown error" |}, turnFailed params None w).
Proof. intros Hzero. unfold executeTurn. by rewrite Hzero. Qed.

(** The paths that delete the call state. The call state of a turn is
    deleted, and the pending event cancelled, when the turn ends on an
    unexpected stop reason (the handler then returns) and when its requests
    fail for good: by an error that is not retried, with the attempts used
    up, or with no attempt allowed (the error is then thrown). *)
Lemma callState_deleted_on_fatal_termination params w :
  (forall message reason,
     stop_reason message = other_stop reason ->
     exists w',
       handleModelResponse message params w = (Return tt, w')
       /\ kv w' = delete (callKey (tp_eventId params)) (kv w)
       /\ last (effects w')
          = Some (CancelPending (tp_pendingId params)
                    (js "Unexpected response from model")))
  /\ (forall n e,
        (n < attempts (maxRetries (tp_settings params)))%nat ->
        (forall k, (k < n)%nat ->
                   exists e', final (api (api_calls w + k)) = inl e'
                              /\ isRetryable e' = true) ->
        final (api (api_calls w + n)) = inl e ->
        isRetryable e = false
        \/ (n + 1)%nat = attempts (maxRetries (tp_settings params)) ->
        exists w',
          executeTurn params w = (Throw e, w')
          /\ kv w' = delete (callKey (tp_eventId params)) (kv w)
          /\ last (effects w')
             = Some (CancelPending (tp_pendingId params)
                       (apiFailureReason (Some e))))
  /\ (attempts (maxRetries (tp_settings params)) = 0%nat ->
      exists w',
        executeTurn params w = (Throw {| message := js "Unknown error" |}, w')
        /\ kv w' = delete (callKey (tp_eventId params)) (kv w)
        /\ last (effects w')
           = Some (CancelPending (tp_pendingId params)
                     (apiFailureReason None))).
Proof.
  split; [|split].
  - intros message reason Hstop.
    rewrite (handleModelResponse_unexpected _ _ _ reason Hstop).
    eexists. split; [reflexivity|]. split; [reflexivity|].
    simpl. by rewrite last_snoc.
  - intros n e Hcount Hfail Hfinal Hfatal. unfold executeTurn.
    destruct (attempts (maxRetries (tp_settings params)) - n)%nat
      as [|remaining] eqn:Hrem; [lia|].
    assert (Hsplit : attempts (maxRetries (tp_settings params))
                     = (n + S remaining)%nat) by lia.
    rewrite Hsplit.
    destruct (executeTurn_loop_transient params n (S remaining) 0 None w
                ltac:(lia) Hfail)
      as (w0 & lastError & -> & Hkv & Htimers & Hnext & Hcalls & Hsleeps).
    rewrite <- Hcalls in Hfinal.
    rewrite (executeTurn_loop_fatal _ _ _ _ _ e Hfinal)
      by (destruct Hfatal; [by left | right; lia]).
    destruct (turnAttempted_spec params (0 + n) w0) as (Hkv' & _).
    destruct (turnFailed_spec params (Some e)
                (turnAttempted params (0 + n) w0))
      as (Hkv'' & _ & _ & _ & Hlast).
    eexists. split; [reflexivity|]. split; [|exact Hlast].
    by rewrite Hkv'', Hkv', Hkv.
  - intros Hzero. rewrite (executeTurn_without_attempts _ _ Hzero).
    destruct (turnFailed_spec params None w) as (Hkv & _ & _ & _ & Hlast).
    eexists. split; [reflexivity|]. by split.
Qed.

(** ** The async result handler *)

Lemma startsWith_result_prefix eventId turn key :
  startsWith (resultPrefix eventId turn) key = true ->
  startsWith (js "result-") key = true.
Proof.
  rewrite !startsWith_app. intros [r ->]. unfold resultPrefix, template.
  cbn [concat]. rewrite <- !app_assoc. eauto.
Qed.

Lemma same_fragments_keyed eventId turn w w' :
  same_fragments w w' -> fragments_keyed eventId turn w ->
  fragments_keyed eventId turn w'.
Proof.
  intros Hsame Hkeyed key id r ttl Hs Hk.
  rewrite (Hsame key (startsWith_result_prefix _ _ _ Hk)) in Hs.
  by apply (Hkeyed key id r ttl).
Qed.

(** The aggregation reads the fragments only. *)
Lemma same_fragments_loadToolResults eventId turn toolCallIds w w' :
  same_fragments w w' -> fragments_keyed eventId turn w ->
  fst (loadToolResults eventId turn toolCallIds w')
  = fst (loadToolResults eventId turn toolCallIds w).
Proof.
  intros Hsame Hkeyed. rewrite !loadToolResults_run. cbn [fst].
  assert (Hmap :
    collectResults (pairsWithPrefix (resultPrefix eventId turn) (kv w'))
    = collectResults (pairsWithPrefix (resultPrefix eventId turn) (kv w))).
  { apply map_eq. intros id. apply option_eq. intros result.
    rewrite !collected_iff_stored
      by first [eassumption | eapply same_fragments_keyed; eassumption].
    unfold stored_fragment.
    by rewrite (Hsame (resultKey eventId turn id)
                  (startsWith_result_prefix _ _ _
                     (startsWith_resultKey eventId turn id))). }
  by rewrite Hmap.
Qed.

Global Instance same_fragments_preorder : PreOrder same_fragments.
Proof. unfold same_fragments. apply _. Qed.

Lemma callKey_not_fragment eventId :
  startsWith (js "result-") (callKey eventId) <> true.
Proof. discriminate. Qed.

Lemma timerKey_not_fragment eventId :
  startsWith (js "result-") (timerKey eventId) <> true.
Proof. discriminate. Qed.

Lemma clearTimeoutTimer_kv eventId w :
  kv (snd (clearTimeoutTimer eventId w)) = kv w.
Proof.
  unfold clearTimeoutTimer, kv_get. rewrite bind_run. cbn [fst snd].
  by destruct (kv_value <$> kv w !! timerKey eventId) as [[]|].
Qed.

Lemma clearTimeoutTimer_api_calls eventId w :
  api_calls (snd (clearTimeoutTimer eventId w)) = api_calls w.
Proof.
  unfold clearTimeoutTimer, kv_get. rewrite bind_run. cbn [fst snd].
  by destruct (kv_value <$> kv w !! timerKey eventId) as [[]|].
Qed.

Lemma clearTimeoutTimer_returns eventId w :
  fst (clearTimeoutTimer eventId w) = Return tt.
Proof.
  unfold clearTimeoutTimer, kv_get. rewrite bind_run. cbn [fst snd].
  by destruct (kv_value <$> kv w !! timerKey eventId) as [[]|].
Qed.

Lemma delivered_kv input state w :
  kv (delivered input state w)
  = <[resultKey (mi_eventId input) (cs_turn state) (mi_toolCallId input) :=
        {| kv_value := VToolResult (mi_toolCallId input) (mi_result input);
           kv_ttl := Some 300%nat |}]> (kv w).
Proof.
  unfold delivered. by rewrite storeToolResult_kv, clearTimeoutTimer_kv.
Qed.

(** [onInternalMessage] with the lock free and a call state stored. *)
Lemma onInternalMessage_run input state w :
  kv w !! lockKey (mi_eventId input) = None ->
  kv_value <$> kv w !! callKey (mi_eventId input) = Some (VCallState state) ->
  onInternalMessage input w
  = let w' := delivered input state w in
    let toolResults :=
      collectResults
        (pairsWithPrefix (resultPrefix (mi_eventId input) (cs_turn state))
                         (kv w')) in
    if forallb (hasResult toolResults) (cs_toolCallIds state)
    then continueTurn
           (resumeParams state (mi_eventId input) (mi_apiKey input)
                         (mi_blockId input))
           (cs_toolCallIds state) toolResults w'
    else setTimeoutTimer (mi_eventId input) w'.
Proof.
  intros Hlock Hstate. unfold onInternalMessage, isTimerLocked, loadCallState.
  rewrite !bind_run. unfold kv_get at 1. rewrite Hlock.
  cbn [fmap option_fmap option_map ret bool_decide]. 
  rewrite bool_decide_eq_false_2 by (by intros [? ?]).
  rewrite !bind_run. unfold kv_get at 1. rewrite Hstate. unfold ret at 1.
  rewrite !bind_run.
  pose proof (clearTimeoutTimer_returns (mi_eventId input) w) as Hret.
  unfold delivered.
  destruct (clearTimeoutTimer (mi_eventId input) w) as [r w1].
  cbn [fst snd] in *. subst r. rewrite !bind_run.
  unfold storeToolResult at 1, kv_set at 1. rewrite bind_run.
  rewrite loadToolResults_run.
  unfold storeToolResult, kv_set. cbn [snd].
  by destruct (forallb _ _).
Qed.

Lemma delivered_fragments_keyed input state w :
  fragments_keyed (mi_eventId input) (cs_turn state) w ->
  fragments_keyed (mi_eventId input) (cs_turn state)
                  (delivered input state w).
Proof.
  intros Hkeyed. unfold delivered.
  apply storeToolResult_fragments_keyed.
  intros key id r ttl. rewrite clearTimeoutTimer_kv. apply Hkeyed.
Qed.

Lemma delivered_api_calls input state w :
  api_calls (delivered input state w) = api_calls w.
Proof. unfold delivered. simpl. apply clearTimeoutTimer_api_calls. Qed.

(** What [onInternalMessage] does after the aggregation keeps the
    fragments and the lock as they are. *)
Lemma resumption_same_on (K : list N -> Prop) input state toolResults
      (haveAllResults : bool) w :
  ~ K (callKey (mi_eventId input)) -> ~ K (timerKey (mi_eventId input)) ->
  kv_same_on K w
    (snd (if haveAllResults
          then continueTurn
                 (resumeParams state (mi_eventId input) (mi_apiKey input)
                               (mi_blockId input))
                 (cs_toolCallIds state) toolResults w
          else setTimeoutTimer (mi_eventId input) w)).
Proof.
  intros Hcall Htimer. destruct haveAllResults.
  - by apply continueTurn_same_on.
  - by apply setTimeoutTimer_same_on.
Qed.

(** *** The handlers and the fragments *)

Lemma onTimer_same_on (K : list N -> Prop) input :
  ~ K (lockKey (ti_eventId input)) -> ~ K (callKey (ti_eventId input)) ->
  ~ K (timerKey (ti_eventId input)) ->
  preserves (kv_same_on K) (onTimer input).
Proof.
  intros Hlock Hcall Htimer.
  unfold onTimer, setTimerLock, clearTimerLock, loadCallState,
    loadToolResults, events_cancelPending.
  repeat first [ apply kv_set_same_on; assumption
               | apply kv_delete_same_on; assumption
               | apply continueTurn_same_on; assumption
               | frame_step ].
Qed.

Lemma onEvent_same_on (K : list N -> Prop) input :
  ~ K (callKey (ev_id input)) -> ~ K (timerKey (ev_id input)) ->
  preserves (kv_same_on K) (onEvent input).
Proof.
  intros Hcall Htimer. unfold onEvent, executeTurn.
  repeat first [ apply executeTurn_loop_same_on; assumption | frame_step ].
Qed.

Lemma lockKey_not_fragment eventId :
  startsWith (js "result-") (lockKey eventId) <> true.
Proof. discriminate. Qed.

(** [onTimer] and [onEvent] leave every fragment as it is. *)
Lemma onTimer_same_fragments input w :
  same_fragments w (snd (onTimer input w)).
Proof.
  apply onTimer_same_on;
    [apply lockKey_not_fragment | apply callKey_not_fragment
    | apply timerKey_not_fragment].
Qed.

Lemma onEvent_same_fragments input w :
  same_fragments w (snd (onEvent input w)).
Proof.
  apply onEvent_same_on;
    [apply callKey_not_fragment | apply timerKey_not_fragment].
Qed.

Lemma onInternalMessage_locked input w entry :
  kv w !! lockKey (mi_eventId input) = Some entry ->
  onInternalMessage input w = (Return tt, w).
Proof.
  intros Hlock. unfold onInternalMessage, isTimerLocked, kv_get, bind.
  by rewrite Hlock.
Qed.

(** [onInternalMessage] for an event whose identifier is as long as
    [eventId] keeps the fragments of ([eventId], [turn]) at their keys. *)
Lemma onInternalMessage_fragments_keyed input eventId turn w :
  length (mi_eventId input) = length eventId ->
  fragments_keyed eventId turn w ->
  fragments_keyed eventId turn (snd (onInternalMessage input w)).
Proof.
  intros Hlen Hkeyed.
  destruct (kv w !! lockKey (mi_eventId input)) as [entry|] eqn:Hlock.
  { rewrite (onInternalMessage_locked input w entry Hlock). exact Hkeyed. }
  destruct (kv_value <$> kv w !! callKey (mi_eventId input))
    as [value|] eqn:Hstate.
  2:{ unfold onInternalMessage, isTimerLocked, loadCallState, kv_get.
      rewrite !bind_run, Hlock. cbn [fmap option_fmap option_map].
      rewrite bool_decide_eq_false_2 by (by intros [? ?]).
      cbv beta iota delta [ret]. rewrite !bind_run, Hstate. exact Hkeyed. }
  destruct value as [state| | |].
  2-4: unfold onInternalMessage, isTimerLocked, loadCallState, kv_get;
       rewrite !bind_run, Hlock; cbn [fmap option_fmap option_map];
       rewrite bool_decide_eq_false_2 by (by intros [? ?]);
       cbv beta iota delta [ret]; rewrite !bind_run, Hstate; exact Hkeyed.
  rewrite (onInternalMessage_run input state w Hlock Hstate). cbv zeta.
  eapply same_fragments_keyed.
  - apply resumption_same_on;
      [apply callKey_not_fragment | apply timerKey_not_fragment].
  - unfold delivered.
    assert (Hclear : fragments_keyed eventId turn
                       (snd (clearTimeoutTimer (mi_eventId input) w))).
    { intros key id r ttl. rewrite clearTimeoutTimer_kv. apply Hkeyed. }
    destruct (decide (mi_eventId input = eventId)) as [Heq|Hne].
    + rewrite Heq in *. by apply storeToolResult_fragments_keyed.
    + by apply storeToolResult_other_event_keyed.
Qed.

(** ** The race guard *)

(** C5. While the lock of an event is held, [onInternalMessage] for that
    event returns at once and leaves the world as it is: nothing is stored,
    no timer is set or unset, no effect is issued. *)
Theorem onInternalMessage_locked_is_noop (input : MessageInput) (w : World) :
  is_Some (kv w !! lockKey (mi_eventId input)) ->
  onInternalMessage input w = (Return tt, w).
Proof. intros [entry Hlock]. by apply (onInternalMessage_locked _ _ entry). Qed.

(** [onTimer] releases the lock exactly when it returns: on each of its two
    returning branches the lock is gone, and whenever it throws (no call
    state, or the resumed turn fails) the lock it set is still held. *)
Theorem onTimer_lock_at_exit (input : TimerInput) (w : World) :
  match onTimer input w with
  | (Return _, w') => kv w' !! lockKey (ti_eventId input) = None
  | (Throw _, w') => kv w' !! lockKey (ti_eventId input) = Some lockEntry
  end.
Proof.
  unfold onTimer.
  set (eventId := ti_eventId input).
  rewrite bind_run. unfold setTimerLock at 1. unfold kv_set at 1.
  set (w1 := {| kv := _ |}).
  assert (Hheld : kv w1 !! lockKey eventId = Some lockEntry)
    by apply lookup_insert_eq.
  clearbody w1. rewrite bind_run.
  unfold loadCallState at 1. rewrite bind_run. unfold kv_get at 1.
  destruct (kv_value <$> kv w1 !! callKey eventId) as [[state| | |]|];
    try exact Hheld.
  unfold ret at 1. rewrite bind_run.
  unfold loadToolResults at 1. rewrite bind_run. unfold kv_list at 1.
  unfold ret at 1.
  destruct (forallb _ _); cbn [negb].
  - rewrite bind_run.
    match goal with |- context [continueTurn ?p ?i ?r w1] =>
      pose proof (continueTurn_same_on (fun k => lockKey eventId = k) p i r
                    (lockKey_not_callKey _ _) (lockKey_not_timerKey _ _) w1
                    (lockKey eventId) eq_refl) as Hframe;
      destruct (continueTurn p i r w1) as [[[]|e] w2]
    end; simpl in Hframe.
    + simpl. apply lookup_delete_eq.
    + by rewrite Hframe.
  - rewrite bind_run. simpl. apply lookup_delete_eq.
Qed.

(** ** Timeouts *)

Global Instance timers_kept_preorder : PreOrder timers_kept.
Proof.
  split.
  - intros w. by repeat split.
  - intros w1 w2 w3 (Ht & Hn & Hk) (Ht' & Hn' & Hk'). split; [congruence|].
    split; [lia|]. intros e. by rewrite Hk', Hk.
Qed.

Lemma timers_wf_kept w w' : timers_kept w w' -> timers_wf w -> timers_wf w'.
Proof.
  intros (Ht & Hn & Hk) [Hhandle Hfresh]. split.
  - intros id e. rewrite Ht, Hk. apply Hhandle.
  - intros id. rewrite Ht. intros Hs. specialize (Hfresh id Hs). lia.
Qed.

Lemma timers_wf_without_kept eventId w w' :
  timers_kept w w' -> timers_wf_without eventId w ->
  timers_wf_without eventId w'.
Proof.
  intros Hkept [Hwf Hnone]. split; [by apply (timers_wf_kept w)|].
  destruct Hkept as (Ht & _). by rewrite Ht.
Qed.

(** *** Rules for triples *)

Lemma triple_bind {A B} P Q R X (m : M A) (f : A -> M B) :
  triple P m Q X -> (forall a, triple Q (f a) R X) -> triple P (bind m f) R X.
Proof.
  intros Hm Hf w HP. rewrite bind_run. specialize (Hm w HP).
  destruct (m w) as [[a|e] w']; [by apply Hf | done].
Qed.

Lemma triple_try_catch {A B} P Q Q' R X (m : M A) (k : A -> M B) handler :
  triple P m Q Q' -> (forall a, triple Q (k a) R X) ->
  (forall e, triple Q' (handler e) R X) -> triple P (try_catch m k handler) R X.
Proof.
  intros Hm Hk Hh w HP. rewrite try_catch_run. specialize (Hm w HP).
  destruct (m w) as [[a|e] w']; [by apply Hk | by apply Hh].
Qed.

Lemma triple_weaken {A} (P P' Q Q' X X' : World -> Prop) (m : M A) :
  triple P m Q X -> (forall w, P' w -> P w) -> (forall w, Q w -> Q' w) ->
  (forall w, X w -> X' w) -> triple P' m Q' X'.
Proof.
  intros Hm HP HQ HX w Hw. specialize (Hm w (HP w Hw)).
  destruct (m w) as [[a|e] w']; auto.
Qed.

(** A computation that keeps the timers keeps every property that kept
    timers keep. *)
Lemma triple_kept {A} (P : World -> Prop) (m : M A) :
  preserves timers_kept m ->
  (forall w w', timers_kept w w' -> P w -> P w') -> triple P m P P.
Proof.
  intros Hm Hstable w HP. specialize (Hm w).
  destruct (m w) as [[a|e] w']; simpl in Hm; eauto.
Qed.

(** *** What keeps the timers *)

Lemma kv_set_kept key value ttl :
  (forall eventId, key <> timerKey eventId) ->
  preserves timers_kept (kv_set key value ttl).
Proof.
  intros Hkey w. repeat split; simpl; [lia|].
  intros e. apply lookup_insert_ne, Hkey.
Qed.

Lemma kv_delete_kept key :
  (forall eventId, key <> timerKey eventId) ->
  preserves timers_kept (kv_delete key).
Proof.
  intros Hkey w. repeat split; simpl; [lia|].
  intros e. apply lookup_delete_ne, Hkey.
Qed.

Lemma unchanged_kept {A} (m : M A) :
  (forall w, kv (snd (m w)) = kv w /\ timers (snd (m w)) = timers w
             /\ (next_id w <= next_id (snd (m w)))%nat) ->
  preserves timers_kept m.
Proof.
  intros Hm w. destruct (Hm w) as (Hkv & Ht & Hn). split; [done|].
  split; [done|]. intros e. by rewrite Hkv.
Qed.

Lemma kv_get_kept key : preserves timers_kept (kv_get key).
Proof. by apply unchanged_kept. Qed.

Lemma kv_list_kept keyPrefix : preserves timers_kept (kv_list keyPrefix).
Proof. by apply unchanged_kept. Qed.

Lemma perform_kept e : preserves timers_kept (perform e).
Proof. by apply unchanged_kept. Qed.

Lemma streamMessage_kept params : preserves timers_kept (streamMessage params).
Proof. by apply unchanged_kept. Qed.

Lemma finalMessage_kept stream : preserves timers_kept (finalMessage stream).
Proof.
  unfold finalMessage. destruct (final stream);
    [apply preserves_throw | apply preserves_ret].
Qed.

Lemma events_createPending_kept status :
  preserves timers_kept (events_createPending status).
Proof. apply unchanged_kept. intros w. simpl. repeat split. lia. Qed.

Ltac kept_step :=
  first
    [ apply preserves_ret
    | apply preserves_throw
    | apply preserves_bind; [|intros ?]
    | apply preserves_try_catch; [|intros ?|intros ?]
    | apply preserves_when
    | apply preserves_forEach; intros ?
    | apply kv_get_kept
    | apply kv_list_kept
    | apply perform_kept
    | apply streamMessage_kept
    | apply finalMessage_kept
    | apply events_createPending_kept
    | apply kv_set_kept; intros ?; discriminate
    | apply kv_delete_kept; intros ?; discriminate
    | match goal with
      | |- preserves _ (match ?x with _ => _ end) => destruct x
      | |- preserves _ (let '(_, _) := ?x in _) => destruct x
      end ].

Lemma syncPendingEvents_kept pendingId lastTool events :
  preserves timers_kept (syncPendingEvents pendingId lastTool events).
Proof.
  revert lastTool. induction events as [|event rest IH]; intros lastTool;
    simpl; [apply preserves_ret|].
  destruct event; unfold events_updatePending; repeat kept_step; apply IH.
Qed.

Lemma generateObject_loop_kept finalText params remaining retryCount
      inputTokens outputTokens lastError :
  preserves timers_kept
            (generateObject_loop finalText params remaining retryCount
                                 inputTokens outputTokens lastError).
Proof.
  revert retryCount inputTokens outputTokens lastError.
  induction remaining as [|remaining IH];
    intros retryCount inputTokens outputTokens lastError; simpl;
    unfold generateObject_failed, events_updatePending, events_cancelPending,
      emitResult;
    repeat first [ apply IH | kept_step ].
Qed.

Lemma executeTurn_failed_kept params lastError :
  preserves timers_kept (executeTurn_failed params lastError).
Proof.
  unfold executeTurn_failed, events_cancelPending, deleteCallState.
  repeat kept_step.
Qed.

Lemma turn_attempt_kept params retryCount :
  preserves timers_kept
    (when (0 <? retryCount)%nat
       (events_updatePending (tp_pendingId params) (retryStatus retryCount)) ;;;
     stream <- streamMessage (turnStreamParams params) ;;
     syncPendingEventWithStream (tp_pendingId params) stream ;;;
     finalMessage stream).
Proof.
  unfold events_updatePending, syncPendingEventWithStream.
  repeat first [ apply syncPendingEvents_kept | kept_step ].
Qed.

Lemma loadCallState_kept eventId : preserves timers_kept (loadCallState eventId).
Proof. unfold loadCallState. repeat kept_step. Qed.

Lemma loadToolResults_kept eventId turn toolCallIds :
  preserves timers_kept (loadToolResults eventId turn toolCallIds).
Proof. unfold loadToolResults. repeat kept_step. Qed.

Lemma storeToolResult_kept eventId toolCallId result turn :
  preserves timers_kept (storeToolResult eventId toolCallId result turn).
Proof. unfold storeToolResult. repeat kept_step. Qed.

(** *** The handlers keep the timers well formed *)

Lemma triple_kept_without {A} eventId (m : M A) :
  preserves timers_kept m ->
  triple (timers_wf_without eventId) m (timers_wf_without eventId) timers_wf.
Proof.
  intros Hm.
  eapply triple_weaken;
    [apply (triple_kept (timers_wf_without eventId) m Hm)|..]; try done.
  - intros w w'. apply timers_wf_without_kept.
  - by intros w [Hwf _].
Qed.

Lemma triple_kept_wf {A} (m : M A) :
  preserves timers_kept m -> triple timers_wf m timers_wf timers_wf.
Proof. intros Hm. apply (triple_kept timers_wf m Hm). apply timers_wf_kept. Qed.

Lemma triple_kept_done {A} eventId (m : M A) :
  preserves timers_kept m ->
  triple (timers_wf_without eventId) m timers_wf timers_wf.
Proof.
  intros Hm. eapply triple_weaken; [apply (triple_kept_without eventId m Hm)|..];
    try done. by intros w [Hwf _].
Qed.

Lemma setTimeoutTimer_triple eventId :
  triple (timers_wf_without eventId) (setTimeoutTimer eventId)
         timers_wf timers_wf.
Proof.
  intros w [[Hhandle Hfresh] Hnone]. simpl. split.
  - intros id e. cbn [kv timers].
    destruct (decide (id = next_id w)) as [->|Hid].
    + rewrite lookup_insert_eq. intros [= <-]. by rewrite lookup_insert_eq.
    + rewrite lookup_insert_ne by done. intros Hs.
      rewrite lookup_insert_ne; [by apply Hhandle|].
      intros E%timerKey_inj. subst e. by apply (Hnone id).
  - intros id. cbn [timers next_id].
    destruct (decide (id = next_id w)) as [->|Hid]; [lia|].
    rewrite lookup_insert_ne by done. intros Hs. specialize (Hfresh id Hs).
    lia.
Qed.

Lemma clearTimeoutTimer_triple eventId :
  triple timers_wf (clearTimeoutTimer eventId)
         (timers_wf_without eventId) (timers_wf_without eventId).
Proof.
  intros w [Hhandle Hfresh]. unfold clearTimeoutTimer, kv_get.
  rewrite bind_run.
  destruct (kv_value <$> kv w !! timerKey eventId) as [value|] eqn:Hvalue.
  - destruct value as [| |id|];
      try (split; [by split|]; intros id' Hs;
           specialize (Hhandle id' eventId Hs); congruence).
    simpl. split; [split|].
    + intros id' e. cbn [kv timers]. intros Hs.
      apply lookup_delete_Some in Hs as [_ Hs]. by apply Hhandle.
    + intros id'. cbn [timers next_id]. intros [e Hs].
      apply lookup_delete_Some in Hs as [_ Hs]. apply Hfresh. eauto.
    + intros id'. cbn [timers]. intros Hs.
      apply lookup_delete_Some in Hs as [Hne Hs].
      specialize (Hhandle id' eventId Hs). congruence.
  - split; [by split|]. intros id' Hs.
    specialize (Hhandle id' eventId Hs). congruence.
Qed.

Lemma handleModelResponse_triple message params :
  triple (timers_wf_without (tp_eventId params))
         (handleModelResponse message params) timers_wf timers_wf.
Proof.
  unfold handleModelResponse.
  destruct (processToolDefinitions _) as [[tools toolNames] toolBlockIds].
  destruct (stop_reason message).
  - apply triple_kept_done.
    unfold generateObject, emitResult.
    repeat first [ apply generateObject_loop_kept | kept_step ].
  - eapply triple_bind;
      [apply triple_kept_without; unfold events_updatePending;
       repeat kept_step|intros _].
    eapply triple_bind;
      [apply triple_kept_without; repeat kept_step|intros _].
    eapply triple_bind;
      [apply triple_kept_without; unfold storeCallState; repeat kept_step
      |intros _].
    apply setTimeoutTimer_triple.
  - apply triple_kept_done.
    unfold events_cancelPending, deleteCallState. repeat kept_step.
Qed.

Lemma executeTurn_loop_triple params remaining retryCount lastError :
  triple (timers_wf_without (tp_eventId params))
         (executeTurn_loop params remaining retryCount lastError)
         timers_wf timers_wf.
Proof.
  revert retryCount lastError.
  induction remaining as [|remaining IH]; intros retryCount lastError;
    cbn [executeTurn_loop].
  - apply triple_kept_done, executeTurn_failed_kept.
  - eapply triple_try_catch.
    + apply (triple_kept (timers_wf_without (tp_eventId params)));
        [apply turn_attempt_kept|].
      intros w w'. apply timers_wf_without_kept.
    + intros message. apply handleModelResponse_triple.
    + intros error. cbv zeta.
      destruct (negb (isRetryable error) || _).
      * apply triple_kept_done, executeTurn_failed_kept.
      * eapply triple_bind;
          [apply triple_kept_without; unfold sleep; repeat kept_step
          |intros _]. apply IH.
Qed.

Lemma continueTurn_triple params toolCallIds toolResults :
  triple (timers_wf_without (tp_eventId params))
         (continueTurn params toolCallIds toolResults) timers_wf timers_wf.
Proof.
  unfold continueTurn.
  eapply triple_bind;
    [apply triple_kept_without; unfold events_updatePending;
     repeat kept_step|intros _].
  apply (executeTurn_loop_triple
           {| tp_pendingId := tp_pendingId params;
              tp_eventId := tp_eventId params;
              tp_blockId := tp_blockId params;
              tp_messages := _;
              tp_turn := tp_turn params;
              tp_apiKey := tp_apiKey params;
              tp_settings := tp_settings params |}).
Qed.

Lemma onInternalMessage_triple input :
  triple timers_wf (onInternalMessage input) timers_wf timers_wf.
Proof.
  unfold onInternalMessage.
  eapply triple_bind;
    [apply triple_kept_wf; unfold isTimerLocked; repeat kept_step
    |intros locked].
  destruct locked; [apply triple_kept_wf, preserves_ret|].
  eapply triple_bind; [apply triple_kept_wf, loadCallState_kept|intros state].
  eapply triple_bind.
  { eapply triple_weaken; [apply clearTimeoutTimer_triple|..]; try done.
    by intros w [Hwf _]. }
  intros _.
  eapply triple_bind;
    [apply triple_kept_without, storeToolResult_kept|intros _].
  eapply triple_bind;
    [apply triple_kept_without, loadToolResults_kept|intros [have results]].
  destruct (negb have).
  - apply setTimeoutTimer_triple.
  - apply (continueTurn_triple
             (resumeParams state (mi_eventId input) (mi_apiKey input)
                           (mi_blockId input))).
Qed.

Lemma onTimer_triple input :
  triple (timers_wf_without (ti_eventId input)) (onTimer input)
         timers_wf timers_wf.
Proof.
  unfold onTimer.
  eapply triple_bind;
    [apply triple_kept_without; unfold setTimerLock; repeat kept_step
    |intros _].
  eapply triple_bind;
    [apply triple_kept_without, loadCallState_kept|intros state].
  eapply triple_bind;
    [apply triple_kept_without, loadToolResults_kept|intros [have results]].
  destruct (negb have).
  - apply triple_kept_done.
    unfold clearTimerLock, events_cancelPending. repeat kept_step.
  - eapply triple_bind.
    + apply (continueTurn_triple
               (resumeParams state (ti_eventId input) (ti_apiKey input)
                             (ti_blockId input))).
    + intros _. apply triple_kept_wf. unfold clearTimerLock.
      repeat kept_step.
Qed.

Lemma onEvent_triple input :
  triple (timers_wf_without (ev_id input)) (onEvent input)
         timers_wf timers_wf.
Proof.
  unfold onEvent.
  destruct (validateConfig _ _) as [e|[[apiKey prompt] settings]].
  - apply triple_kept_done, preserves_throw.
  - eapply triple_bind;
      [apply triple_kept_without, events_createPending_kept
      |intros pendingId].
    apply (executeTurn_loop_triple
             {| tp_pendingId := pendingId; tp_eventId := ev_id input;
                tp_blockId := ev_blockId input; tp_messages := _;
                tp_turn := 0; tp_apiKey := apiKey;
                tp_settings := settings |}).
Qed.

Lemma fired_timers_wf id eventId w :
  timers_wf w -> timers w !! id = Some eventId ->
  timers_wf_without eventId (fired id w).
Proof.
  intros [Hhandle Hfresh] Hid. split; [split|].
  - intros id' e. cbn [fired kv timers]. intros Hs.
    apply lookup_delete_Some in Hs as [_ Hs]. by apply Hhandle.
  - intros id'. cbn [fired timers next_id]. intros [e Hs].
    apply lookup_delete_Some in Hs as [_ Hs]. apply Hfresh. eauto.
  - intros id'. cbn [fired timers]. intros Hs.
    apply lookup_delete_Some in Hs as [Hne Hs].
    pose proof (Hhandle id' eventId Hs) as H1.
    pose proof (Hhandle id eventId Hid) as H2. congruence.
Qed.

Lemma handled_timers_wf w w' : handled w w' -> timers_wf w -> timers_wf w'.
Proof.
  intros Hstep Hwf. destruct Hstep as [input w Hnew|input w|id e k b w Hid].
  - pose proof (onEvent_triple input w (conj Hwf Hnew)) as Ht.
    by destruct (onEvent input w) as [[[]|err] w'].
  - pose proof (onInternalMessage_triple input w Hwf) as Ht.
    by destruct (onInternalMessage input w) as [[[]|err] w'].
  - pose proof (onTimer_triple
                  {| ti_eventId := e; ti_apiKey := k; ti_blockId := b |}
                  (fired id w) (fired_timers_wf id e w Hwf Hid)) as Ht.
    by destruct (onTimer _ (fired id w)) as [[[]|err] w'].
Qed.

(** What the code keeps when no two handlers overlap. In every world the
    block reaches from one without timers by handlers run one after the
    other, each event has at most one timer scheduled: every handler clears
    the timeout of its event before it registers one. [setTimeoutTimer]
    itself makes the handle of the event name the new timer, and clearing
    the timeout of an event without a handle changes nothing. *)
Lemma one_timeout_per_event_in_turn :
  (forall w0 w,
     timers w0 = ∅ -> rtc handled w0 w ->
     forall id1 id2 eventId,
       timers w !! id1 = Some eventId -> timers w !! id2 = Some eventId ->
       id1 = id2)
  /\ (forall eventId w,
        let w' := snd (setTimeoutTimer eventId w) in
        timers w' !! next_id w = Some eventId
        /\ kv_value <$> kv w' !! timerKey eventId
           = Some (VTimerId (next_id w)))
  /\ (forall eventId w,
        kv w !! timerKey eventId = None ->
        clearTimeoutTimer eventId w = (Return tt, w)).
Proof.
  split; [|split].
  - intros w0 w Hempty Hreach.
    assert (Hwf0 : timers_wf w0).
    { split; intros id; rewrite Hempty, lookup_empty;
        [done | by intros [? ?]]. }
    clear Hempty.
    assert (Hwf : timers_wf w).
    { induction Hreach as [w0|w0 w1 w Hstep Hreach IH]; [done|].
      apply IH. by apply (handled_timers_wf w0). }
    intros id1 id2 eventId H1 H2. destruct Hwf as [Hhandle _].
    pose proof (Hhandle id1 eventId H1) as E1.
    pose proof (Hhandle id2 eventId H2) as E2. congruence.
  - intros eventId w w'. unfold w'. simpl.
    by rewrite !lookup_insert_eq.
  - intros eventId w Hnone. unfold clearTimeoutTimer, kv_get.
    rewrite bind_run. by rewrite Hnone.
Qed.

(** ** Handlers that overlap *)

(** Runs the calls of the SDK, which reduce the computations between two
    case distinctions. *)
Ltac run_calls :=
  cbv beta iota zeta
      delta [bind kv_get kv_set kv_delete kv_list ret throw timers_set
             timers_unset perform events_cancelPending events_createPending
             isTimerLocked loadCallState clearTimeoutTimer setTimeoutTimer
             storeToolResult loadToolResults setTimerLock clearTimerLock];
  cbn [alone].

(** A handler cut at its awaits and run alone is the handler. *)
Lemma onInternalMessage_task_alone input w :
  alone (onInternalMessage_task input) w = onInternalMessage input w.
Proof.
  unfold onInternalMessage, onInternalMessage_task. run_calls.
  destruct (bool_decide _); [done|]. run_calls.
  destruct (kv_value <$> kv w !! callKey (mi_eventId input))
    as [[state| | |]|]; try done.
  run_calls.
  destruct (kv_value <$> kv w !! timerKey (mi_eventId input))
    as [[| |id|]|]; run_calls;
    (destruct (negb _); run_calls; [done|];
     match goal with
     | |- context [continueTurn ?p ?i ?r ?w] =>
         by destruct (continueTurn p i r w) as [[[]|e] w']
     end).
Qed.

Lemma onTimer_task_alone input w :
  alone (onTimer_task input) w = onTimer input w.
Proof.
  unfold onTimer, onTimer_task. run_calls.
  destruct (kv_value <$> _ !! callKey (ti_eventId input))
    as [[state| | |]|]; try done.
  run_calls. destruct (negb _); run_calls; [done|].
  match goal with
  | |- context [continueTurn ?p ?i ?r ?w] =>
      by destruct (continueTurn p i r w) as [[[]|e] w']
  end.
Qed.

Lemma onEvent_task_alone input w :
  alone (onEvent_task input) w = onEvent input w.
Proof.
  unfold onEvent, onEvent_task.
  destruct (validateConfig _ _) as [e|[[apiKey prompt] settings]]; [done|].
  run_calls.
  match goal with
  | |- context [executeTurn ?p ?w] =>
      by destruct (executeTurn p w) as [[[]|e] w']
  end.
Qed.

End Properties.

(** * The properties on the scenarios *)

(** ** Tool names *)

Example cleanToolName_of_a_title :
  let H := scripted [] (failure "unused") in
  cleanToolName (js "  Look-up:  the Weather (v2)! ")
  = js "look-up_the_weather_v2".
Proof. vm_compute. reflexivity. Qed.

(** A name without a letter or digit cleans to the empty string. *)
Example cleanToolName_of_punctuation :
  let H := scripted [] (failure "unused") in
  cleanToolName (js " -- ?! __ ") = [].
Proof. vm_compute. reflexivity. Qed.

(** ** The race guard on the scenarios *)

(** The lock of [e1] held over a suspended turn: the result that comes in
    is dropped. *)
Lemma onInternalMessage_locked_is_noop_witness :
  let H := scripted [] (failure "unused") in
  let w := snd (setTimerLock (js "e1") (waiting_world 1 None)) in
  is_Some (kv w !! lockKey (js "e1")) /\
  onInternalMessage (result_e1 "42") w = (Return tt, w).
Proof.
  intros H w.
  assert (Hheld : is_Some (kv w !! lockKey (js "e1"))) by (vm_compute; eauto).
  split; [exact Hheld|].
  exact (onInternalMessage_locked_is_noop (result_e1 "42") w Hheld).
Defined.

(** C1, at the inputs where the code breaks it. The timer of [e1] fires
    (a) when no call state is stored: [onTimer] throws "Call state not
    found"; (b) when all results are in and the resumed request fails with
    an error that is not retried: [onTimer] throws that error. In both the
    lock set at the start is still held when the handler is left. *)
Theorem onTimer_throws_with_lock_held :
  (let H := scripted [] (failure "unused") in
   exists w',
     onTimer timer_e1 empty_world
     = (Throw {| message := js "Call state not found" |}, w')
     /\ fst (isTimerLocked (js "e1") w') = Return true)
  /\
  (let H := scripted [] (failure "invalid x-api-key") in
   exists w',
     onTimer timer_e1 (complete_world 1 None)
     = (Throw {| message := js "invalid x-api-key" |}, w')
     /\ fst (isTimerLocked (js "e1") w') = Return true).
Proof.
  split; intros H; eexists; split; vm_compute; reflexivity.
Qed.

(** ** The result aggregator on the scenarios *)

Lemma waiting_world_fragments_keyed retries schema eventId turn :
  fragments_keyed eventId turn (waiting_world retries schema).
Proof.
  apply fragments_keyed_without_fragments. intros key id r ttl.
  unfold waiting_world, with_kv. simpl.
  destruct (decide (key = js "call-e1")) as [->|Hne].
  - rewrite lookup_insert_eq. discriminate.
  - rewrite lookup_insert_ne by done. by rewrite lookup_empty.
Qed.

(** The identifier [toolu_1] is no name that an object inherits. *)
Lemma toolu_1_not_inherited :
  Forall (fun id => id ∉ objectPrototype) [js "toolu_1"].
Proof.
  constructor; [|constructor]. apply (bool_decide_unpack _).
  vm_compute. exact I.
Defined.

Lemma loadToolResults_exact_turn_witness :
  let w := snd (storeToolResult (js "e1") (js "toolu_1") (js "42") 1
                  (waiting_world 1 None)) in
  fragments_keyed (js "e1") 1 w /\
  Forall (fun id => id ∉ objectPrototype) [js "toolu_1"] /\
  exists haveAllResults toolResults,
    loadToolResults (js "e1") 1 [js "toolu_1"] w
    = (Return (haveAllResults, toolResults), w)
    /\ (haveAllResults = true <->
        forall id, id ∈ [js "toolu_1"] ->
                   exists result, stored_fragment (js "e1") 1 id result w)
    /\ (forall id result,
          id ∉ objectPrototype ->
          getProperty toolResults id = Some (Own result) <->
          stored_fragment (js "e1") 1 id result w)
    /\ (forall turn' id' result',
          turn' <> 1%nat ->
          let w' := snd (storeToolResult (js "e1") id' result' turn' w) in
          loadToolResults (js "e1") 1 [js "toolu_1"] w'
          = (Return (haveAllResults, toolResults), w')).
Proof.
  intros w.
  assert (Hkeyed : fragments_keyed (js "e1") 1 w)
    by apply storeToolResult_fragments_keyed,
             waiting_world_fragments_keyed.
  split; [exact Hkeyed|]. split; [exact toolu_1_not_inherited|].
  exact (loadToolResults_exact_turn (js "e1") 1 [js "toolu_1"] w Hkeyed
           toolu_1_not_inherited).
Defined.

(** The test of the specification: a fragment stored under turn 0 does not
    complete turn 1. *)
Example fragment_of_turn_0_does_not_complete_turn_1 :
  let w := snd (storeToolResult (js "e1") (js "toolu_1") (js "42") 0
                  (waiting_world 1 None)) in
  fst (loadToolResults (js "e1") 1 [js "toolu_1"] w) = Return (false, ∅).
Proof. vm_compute. reflexivity. Qed.

(** The claim C4 as stated fails in two ways. (a) The key of another event
    is listed under the prefix: a fragment stored for event [a-1] under turn
    0 is answered for event [a] and turn 1, which has no fragment stored.
    (b) The aggregate is a plain object: with nothing stored at all, the
    results for the expected identifier [constructor] are complete. *)
Lemma loadToolResults_complete_without_fragment :
  (let w := snd (storeToolResult (js "a-1") (js "x") (js "late") 0
                   empty_world) in
   (forall result, ~ stored_fragment (js "a") 1 (js "x") result w) /\
   fst (loadToolResults (js "a") 1 [js "x"] w)
   = Return (true, {[ js "x" := js "late" ]}))
  /\
  ((forall result,
      ~ stored_fragment (js "e1") 1 (js "constructor") result empty_world) /\
   fst (loadToolResults (js "e1") 1 [js "constructor"] empty_world)
   = Return (true, ∅)).
Proof.
  split; [intros w|]; split.
  - intros result [ttl Hs]. vm_compute in Hs. discriminate.
  - vm_compute. reflexivity.
  - intros result [ttl Hs]. vm_compute in Hs. discriminate.
  - vm_compute. reflexivity.
Qed.

(** The claim C6 as stated fails: a second store to the same triple with
    another payload replaces the first. *)
Lemma storeToolResult_overwrites :
  let w1 := snd (storeToolResult (js "e1") (js "toolu_1") (js "first") 1
                   (waiting_world 1 None)) in
  let w2 := snd (storeToolResult (js "e1") (js "toolu_1") (js "second") 1
                   w1) in
  fst (loadToolResults (js "e1") 1 [js "toolu_1"] w1)
  = Return (true, {[ js "toolu_1" := js "first" ]}) /\
  fst (loadToolResults (js "e1") 1 [js "toolu_1"] w2)
  = Return (true, {[ js "toolu_1" := js "second" ]}).
Proof. split; vm_compute; reflexivity. Qed.

Lemma storeToolResult_last_write_wins_witness :
  let w := snd (storeToolResult (js "e1") (js "toolu_1") (js "first") 1
                  (waiting_world 1 None)) in
  fragments_keyed (js "e1") 1 w /\
  js "toolu_1" <> js "__proto__" /\
  let w' := snd (storeToolResult (js "e1") (js "toolu_1") (js "second") 1 w) in
  exists haveAllResults toolResults,
    loadToolResults (js "e1") 1 [js "toolu_1"] w'
    = (Return (haveAllResults, toolResults), w')
    /\ getProperty toolResults (js "toolu_1") = Some (Own (js "second")).
Proof.
  intros w.
  assert (Hkeyed : fragments_keyed (js "e1") 1 w)
    by apply storeToolResult_fragments_keyed,
             waiting_world_fragments_keyed.
  assert (Hid : js "toolu_1" <> js "__proto__") by discriminate.
  split; [exact Hkeyed|]. split; [exact Hid|].
  exact (storeToolResult_last_write_wins (js "e1") 1 (js "toolu_1")
           (js "second") [js "toolu_1"] w Hkeyed Hid).
Defined.

(** The payload stored for a tool call named [__proto__] is not what the
    aggregate reads under that name: the assignment sets no property. *)
Example payload_of_proto_is_not_read :
  let w := snd (storeToolResult (js "e1") (js "__proto__") (js "42") 1
                  (waiting_world 1 None)) in
  exists toolResults,
    fst (loadToolResults (js "e1") 1 [js "__proto__"] w)
    = Return (true, toolResults)
    /\ getProperty toolResults (js "__proto__")
       = Some (Inherited (js "__proto__")).
Proof. eexists. split; vm_compute; reflexivity. Qed.

(** ** The structured object extractor on the scenarios *)

(** Scenario D of the specification: with two attempts allowed, the first
    answer misses the required field and the second conforms; the result
    carries the second object and the tokens of the turn (5 and 3) and of
    both attempts. *)
Example generateObject_second_attempt_validates :
  let H := scripted
             [answer [BToolUse (js "toolu_a") (js "json") (js "{age:3}")]
                     tool_use 10 2;
              answer [BToolUse (js "toolu_b") (js "json") (js "{name:Ada}")]
                     tool_use 11 4]
             (failure "unused") in
  exists w',
    generateObject (js "Ada.") personParams 5 3 empty_world = (Return tt, w')
    /\ api_calls w' = 2%nat
    /\ last (effects w')
       = Some (Emit (Some (js "Ada.")) (Some (js "{name:Ada}")) 26 9
                 (js "pending-0") (js "e1")).
Proof.
  intros H. eexists.
  split; [vm_compute; reflexivity|]. split; vm_compute; reflexivity.
Qed.

(** A request that fails and an answer that does not validate: the pending
    event is cancelled with the error of the first attempt, which is
    thrown. *)
Example generateObject_exhausted_with_error :
  let H := scripted
             [failure "overloaded";
              answer [BToolUse (js "toolu_b") (js "json") (js "{age:3}")]
                     tool_use 11 4]
             (failure "unused") in
  exists w',
    generateObject (js "Ada.") personParams 5 3 empty_world
    = (Throw {| message := js "overloaded" |}, w')
    /\ api_calls w' = 2%nat
    /\ last (effects w')
       = Some (CancelPending (js "pending-0")
                 (js "Object generation failed: overloaded")).
Proof.
  intros H. eexists.
  split; [vm_compute; reflexivity|]. split; vm_compute; reflexivity.
Qed.

(** A schema that the validator cannot resolve: the answer is there, the
    validator throws, and with the one attempt used up the pending event is
    cancelled with the validator's error, which is thrown. *)
Example generateObject_validator_throws :
  let H := scripted
             [answer [BToolUse (js "toolu_a") (js "json") (js "{name:Ada}")]
                     tool_use 10 2]
             (failure "unused") in
  let params :=
    {| op_apiKey := js "sk-ant-key"; op_model := js "claude";
       op_maxTokens := 100%Q; op_messages := [];
       op_schema := js "{$ref:person}"; op_maxRetries := 1%Q;
       op_pendingId := js "pending-0"; op_parentEventId := js "e1" |} in
  exists w',
    generateObject (js "Ada.") params 5 3 empty_world
    = (Throw {| message := js "no such schema" |}, w')
    /\ api_calls w' = 1%nat
    /\ last (effects w')
       = Some (CancelPending (js "pending-0")
                 (js "Object generation failed: no such schema")).
Proof.
  intros H params. eexists.
  split; [vm_compute; reflexivity|]. split; vm_compute; reflexivity.
Qed.


(** ** The turn executor on the scenarios *)

(** Two failures that are retried, then an answer, with three attempts
    allowed: three requests, sleeps of 1000 and 2000 ms, and the tokens of
    the answer. *)
Example executeTurn_two_retries :
  let H := scripted
             [failure "Overloaded"; failure "429 rate limit exceeded";
              answer [BText (js "Hi there")] end_turn 5 3]
             (failure "unused") in
  (of_nat 2 < maxRetries (tp_settings (firstTurn 3)))%Q
  /\ (forall k, (k < 2)%nat ->
                exists e, final (api (api_calls empty_world + k)) = inl e
                          /\ isRetryable e = true)
  /\ exists w',
       executeTurn (firstTurn 3) empty_world
       = (Return tt,
          issued (Emit (Some (js "Hi there")) None 5 3 (js "pending-0")
                       (js "e1")) w')
       /\ api_calls w' = 3%nat
       /\ sleeps (effects w') = [1000; 2000].
Proof.
  intros H.
  assert (Hcount : (of_nat 2 < maxRetries (tp_settings (firstTurn 3)))%Q)
    by reflexivity.
  assert (Hfail : forall k, (k < 2)%nat ->
            exists e, final (api (api_calls empty_world + k)) = inl e
                      /\ isRetryable e = true).
  { intros [|[|k]] Hk; [eexists; split; vm_compute; reflexivity..|lia]. }
  split; [exact Hcount|]. split; [exact Hfail|].
  destruct (executeTurn_retries_with_backoff (firstTurn 3) empty_world 2
              Hcount Hfail)
    as (w' & _ & _ & Hcalls & Hsleeps & _ & Htext).
  exists w'. split; [by apply Htext|]. by split.
Qed.

(** C7, at the inputs where the code breaks it. What is retried is decided
    by words in the message of the error. (a) The request times out, with
    three attempts allowed and the next request ready to answer: the message
    of the client's timeout has none of the words, so there is no retry; the
    turn fails after one request. (b) The request is refused for good, as
    too long, with a message that happens to hold 503: it is sent three
    times, with sleeps of 1000 and 2000 ms between. *)
Theorem executeTurn_misjudges_failures :
  (let H := scripted
              [failure "Request timed out.";
               answer [BText (js "Hi there")] end_turn 5 3]
              (failure "unused") in
   exists w',
     executeTurn (firstTurn 3) empty_world
     = (Throw {| message := js "Request timed out." |}, w')
     /\ api_calls w' = 1%nat
     /\ sleeps (effects w') = []
     /\ last (effects w')
        = Some (CancelPending (js "pending-0")
                  (js "API call failed: Request timed out.")))
  /\
  (let refused :=
     "400 invalid_request_error: prompt is too long: 250312 tokens > 200000 maximum"%string in
   let H := scripted [] (failure refused) in
   exists w',
     executeTurn (firstTurn 3) empty_world
     = (Throw {| message := js refused |}, w')
     /\ api_calls w' = 3%nat
     /\ sleeps (effects w') = [1000; 2000]).
Proof.
  split.
  - intros H. eexists.
    split; [vm_compute; reflexivity|]. repeat split; vm_compute; reflexivity.
  - intros refused H. eexists.
    split; [vm_compute; reflexivity|]. split; vm_compute; reflexivity.
Qed.

(** Scenario A of the specification: no tools, no schema. *)
Example executeTurn_hello :
  let H := scripted [answer [BText (js "Hi there")] end_turn 5 3]
                    (failure "unused") in
  exists w',
    executeTurn (firstTurn 1) empty_world = (Return tt, w')
    /\ last (effects w')
       = Some (Emit (Some (js "Hi there")) None 5 3 (js "pending-0")
                 (js "e1")).
Proof. intros H. eexists. split; vm_compute; reflexivity. Qed.

(** C3, at the inputs where the code breaks it. (a) The last result of a
    suspended turn comes in, the model answers with a final text and the
    result is emitted. (b) The same with a schema set: the request for the
    object fails, the pending event is cancelled and the error thrown. In
    both the turn is over and its call state is still stored. *)
Theorem ended_turn_keeps_callState :
  (let H := scripted [answer [BText (js "The answer is 42")] end_turn 7 4]
                     (failure "unused") in
   exists w',
     onInternalMessage (result_e1 "42") (waiting_world 1 None)
     = (Return tt, w')
     /\ last (effects w')
        = Some (Emit (Some (js "The answer is 42")) None 7 4 (js "pending-0")
                  (js "e1"))
     /\ kv w' !! callKey (js "e1")
        = Some {| kv_value := VCallState (suspended 1 None);
                  kv_ttl := None |})
  /\
  (let H := scripted [answer [BText (js "The answer is 42")] end_turn 7 4]
                     (failure "invalid x-api-key") in
   exists w',
     onInternalMessage (result_e1 "42") (waiting_world 1 (Some (js "name")))
     = (Throw {| message := js "invalid x-api-key" |}, w')
     /\ last (effects w')
        = Some (CancelPending (js "pending-0")
                  (js "Object generation failed: invalid x-api-key"))
     /\ kv w' !! callKey (js "e1")
        = Some {| kv_value := VCallState (suspended 1 (Some (js "name")));
                  kv_ttl := None |}).
Proof.
  split; intros H; eexists;
    (split; [vm_compute; reflexivity|]); split; vm_compute; reflexivity.
Qed.

(** The sibling paths delete the call state: an unexpected stop reason, and
    a request of the turn that fails for good. *)
Example callState_deleted_on_the_scenarios :
  let H := scripted [failure "invalid x-api-key"] (failure "unused") in
  let unexpected :=
    {| msg_role := assistant; msg_content := []; stop_reason :=
         other_stop (js "max_tokens"); input_tokens := 9;
       output_tokens := 100 |} in
  (exists w',
     handleModelResponse unexpected (resumedTurn 1) (complete_world 1 None)
     = (Return tt, w')
     /\ kv w' = delete (callKey (js "e1")) (kv (complete_world 1 None))
     /\ last (effects w')
        = Some (CancelPending (js "pending-0")
                  (js "Unexpected response from model")))
  /\ (exists w',
        executeTurn (resumedTurn 1) (complete_world 1 None)
        = (Throw {| message := js "invalid x-api-key" |}, w')
        /\ kv w' = delete (callKey (js "e1")) (kv (complete_world 1 None))
        /\ last (effects w')
           = Some (CancelPending (js "pending-0")
                     (apiFailureReason
                        (Some {| message := js "invalid x-api-key" |})))).
Proof.
  intros H unexpected.
  destruct (callState_deleted_on_fatal_termination (resumedTurn 1)
              (complete_world 1 None)) as (Hstop & Hfail & _).
  split.
  - exact (Hstop unexpected (js "max_tokens") eq_refl).
  - apply (Hfail 0%nat {| message := js "invalid x-api-key" |}).
    + vm_compute. lia.
    + intros k Hk. lia.
    + reflexivity.
    + left. vm_compute. reflexivity.
Qed.

(** ** The async result handler on the scenarios *)

(** C2, at the input where the code breaks it. The result that completes
    the turn of [e1] is delivered twice, and the model answers each
    resumption with a final text: the first delivery resumes the turn, which
    ends and leaves its call state stored; the second delivery finds it,
    resumes the turn again, sends a second request and emits a second
    result for the same pending event. *)
Theorem redelivery_resumes_twice :
  let H := scripted [answer [BText (js "The answer is 42")] end_turn 7 4;
                     answer [BText (js "It is 42, again")] end_turn 9 5]
                    (failure "unused") in
  let w1 := snd (onInternalMessage (result_e1 "42") (waiting_world 1 None)) in
  let w2 := snd (onInternalMessage (result_e1 "42") w1) in
  (api_calls w1 = 1%nat
   /\ last (effects w1)
      = Some (Emit (Some (js "The answer is 42")) None 7 4 (js "pending-0")
                (js "e1")))
  /\ (api_calls w2 = 2%nat
      /\ last (effects w2)
         = Some (Emit (Some (js "It is 42, again")) None 9 5
                   (js "pending-0") (js "e1"))).
Proof. intros H w1 w2. repeat split; vm_compute; reflexivity. Qed.

(** ** Timeouts on the scenarios *)

(** A turn of [e1] that asks for two tools, then the result of the first,
    the handlers run one after the other: the timeout set at the dispatch is
    cleared and a new one registered; one timer is scheduled for [e1], the
    one its handle names. *)
Example one_timeout_after_handlers_in_turn :
  let H := scripted
             [answer [BToolUse (js "toolu_1") (js "lookup") (js "{}");
                      BToolUse (js "toolu_2") (js "lookup") (js "{}")]
                     tool_use 5 3]
             (failure "unused") in
  let w1 := snd (onEvent twoToolsEvent empty_world) in
  let w2 := snd (onInternalMessage (result_e1 "42") w1) in
  (map_to_list (timers w1) = [(1%nat, js "e1")]
   /\ map_to_list (timers w2) = [(2%nat, js "e1")]
   /\ kv_value <$> kv w2 !! timerKey (js "e1") = Some (VTimerId 2))
  /\ forall id1 id2 eventId,
       timers w2 !! id1 = Some eventId -> timers w2 !! id2 = Some eventId ->
       id1 = id2.
Proof.
  intros H w1 w2. split; [repeat split; vm_compute; reflexivity|].
  destruct one_timeout_per_event_in_turn as [Hone _].
  apply (Hone empty_world w2 eq_refl).
  apply (rtc_l _ _ w1); [|apply rtc_once].
  - apply (handled_event twoToolsEvent empty_world). intros id.
    cbn [empty_world timers]. by rewrite lookup_empty.
  - apply (handled_message (result_e1 "42") w1).
Qed.

(** [setTimeoutTimer] by itself schedules a timer and moves the handle: it
    does not unset the timer the handle named before. Called twice in a row
    it leaves both timers scheduled. *)
Remark setTimeoutTimer_alone_keeps_earlier_timer :
  let w := snd (setTimeoutTimer (js "e1")
                  (snd (setTimeoutTimer (js "e1") empty_world))) in
  timers w !! 0%nat = Some (js "e1") /\ timers w !! 1%nat = Some (js "e1")
  /\ kv_value <$> kv w !! timerKey (js "e1") = Some (VTimerId 1).
Proof. repeat split; vm_compute; reflexivity. Qed.

(** C9, at the input where the code breaks it. A turn of [e1] asks for
    three tools and schedules its timeout, the timer 1. The results of two
    of them come in and their handlers overlap: each clears the timeout
    (the first unsets the timer 1, the second finds the same handle and
    unsets it again) before either registers a new one. Both handlers then
    register one, the timers 2 and 3, and return: two timers are scheduled
    for [e1], and its handle names the later one only. *)
Theorem overlapping_results_leave_two_timeouts :
  let H := scripted
             [answer [BToolUse (js "toolu_1") (js "lookup") (js "{}");
                      BToolUse (js "toolu_2") (js "lookup") (js "{}");
                      BToolUse (js "toolu_3") (js "lookup") (js "{}")]
                     tool_use 5 3]
             (failure "unused") in
  let w0 := snd (onEvent twoToolsEvent empty_world) in
  let r :=
    interleaved [0; 0; 0; 0; 1; 1; 1; 1; 0; 0; 0; 0; 1; 1; 1; 1]%nat
      {| world := w0;
         tasks := [onInternalMessage_task (result_for "toolu_1" "42");
                   onInternalMessage_task (result_for "toolu_2" "17")] |} in
  map_to_list (timers w0) = [(1%nat, js "e1")]
  /\ tasks r = [Finished (Return tt); Finished (Return tt)]
  /\ timers (world r) !! 2%nat = Some (js "e1")
  /\ timers (world r) !! 3%nat = Some (js "e1")
  /\ kv_value <$> kv (world r) !! timerKey (js "e1") = Some (VTimerId 3).
Proof. intros H w0 r. repeat split; vm_compute; reflexivity. Qed.

(** The same two results with their handlers run one after the other leave
    one timer. *)
Example results_in_turn_leave_one_timeout :
  let H := scripted
             [answer [BToolUse (js "toolu_1") (js "lookup") (js "{}");
                      BToolUse (js "toolu_2") (js "lookup") (js "{}");
                      BToolUse (js "toolu_3") (js "lookup") (js "{}")]
                     tool_use 5 3]
             (failure "unused") in
  let w0 := snd (onEvent twoToolsEvent empty_world) in
  let r :=
    interleaved [0; 0; 0; 0; 0; 0; 0; 0; 1; 1; 1; 1; 1; 1; 1; 1]%nat
      {| world := w0;
         tasks := [onInternalMessage_task (result_for "toolu_1" "42");
                   onInternalMessage_task (result_for "toolu_2" "17")] |} in
  tasks r = [Finished (Return tt); Finished (Return tt)]
  /\ map_to_list (timers (world r)) = [(3%nat, js "e1")].
Proof. intros H w0 r. split; vm_compute; reflexivity. Qed.

(** * Further properties *)

Section FurtherProperties.
Context `{Host}.

(** ** The names of tools *)

Lemma runs_cons P c (s : jsstring) :
  runs P (c :: s)
  = match runs P s with
    | (b, g) :: rest =>
        if Bool.eqb (P c) b then (b, c :: g) :: rest
        else (P c, [c]) :: (b, g) :: rest
    | [] => [(P c, [c])]
    end.
Proof. unfold runs. simpl. by destruct (fold_right _ _ _) as [|[b g] rest]. Qed.

Lemma runs_wf_runs P (s : jsstring) : runs_wf P (runs P s).
Proof.
  induction s as [|c s IH]; [exact I|].
  rewrite runs_cons. destruct (runs P s) as [|[b g] rest]; simpl.
  - repeat split; [done | by repeat constructor].
  - destruct IH as (Hg & Hall & Hnext & Hrest).
    destruct (Bool.eqb (P c) b) eqn:E; simpl.
    + apply Bool.eqb_prop in E. repeat split; try done. by constructor.
    + repeat split; try done; [by repeat constructor|].
      destruct (P c), b; done.
Qed.

Lemma concat_runs P (s : jsstring) : concat (map snd (runs P s)) = s.
Proof.
  induction s as [|c s IH]; [done|].
  rewrite runs_cons. destruct (runs P s) as [|[b g] rest]; simpl in *.
  - by rewrite <- IH.
  - destruct (Bool.eqb (P c) b); simpl; by rewrite <- IH.
Qed.

Lemma adjacent_outside P (g t : jsstring) :
  Forall (fun c => P c = false) g -> adjacent P (g ++ t) = adjacent P t.
Proof.
  induction 1 as [|c g Hc Hg IH]; [done|].
  change ((c :: g) ++ t) with (c :: (g ++ t)). cbn [adjacent].
  rewrite Hc, <- IH. simpl. by destruct (g ++ t).
Qed.

Lemma adjacent_suffix P (g t : jsstring) :
  adjacent P (g ++ t) = false -> adjacent P t = false.
Proof.
  induction g as [|c g IH]; [done|].
  change ((c :: g) ++ t) with (c :: (g ++ t)). cbn [adjacent].
  destruct (g ++ t) eqn:E; [|intros [_ ?]%orb_false_iff; by apply IH].
  intros _. apply app_eq_nil in E as [_ ->]. done.
Qed.

Lemma adjacent_cons P a b (r : jsstring) :
  adjacent P (a :: b :: r) = (P a && P b) || adjacent P (b :: r).
Proof. reflexivity. Qed.

Lemma adjacent_snoc P (s : jsstring) c :
  adjacent P (s ++ [c])
  = adjacent P s || match last s with
                    | Some b => P b && P c
                    | None => false
                    end.
Proof.
  induction s as [|a s IH]; [done|].
  destruct s as [|b s]; [simpl; by rewrite !orb_false_r|].
  change ((a :: b :: s) ++ [c]) with (a :: b :: (s ++ [c])).
  rewrite !adjacent_cons. change (b :: (s ++ [c])) with ((b :: s) ++ [c]).
  rewrite IH, last_cons_cons. by rewrite orb_assoc.
Qed.

Lemma adjacent_rev P (s : jsstring) : adjacent P (rev s) = adjacent P s.
Proof.
  induction s as [|a s IH]; [done|].
  simpl rev. rewrite adjacent_snoc, IH.
  destruct s as [|b s]; [done|].
  rewrite adjacent_cons. simpl rev. rewrite last_snoc.
  rewrite (andb_comm (P b)). apply orb_comm.
Qed.

Lemma adjacent_dropWhile P Q (s : jsstring) :
  adjacent P s = false -> adjacent P (dropWhile Q s) = false.
Proof.
  induction s as [|c s IH]; [done|]. intros Hs. simpl.
  destruct (Q c); [|done]. apply IH.
  by apply (adjacent_suffix P [c] s).
Qed.

Lemma adjacent_dropWhileEnd P Q (s : jsstring) :
  adjacent P s = false -> adjacent P (dropWhileEnd Q s) = false.
Proof.
  intros Hs. unfold dropWhileEnd.
  rewrite adjacent_rev. apply adjacent_dropWhile. by rewrite adjacent_rev.
Qed.

Lemma adjacent_take P n (s : jsstring) :
  adjacent P s = false -> adjacent P (take n s) = false.
Proof.
  intros Hs. rewrite <- (adjacent_rev P).
  apply (adjacent_suffix P (rev (drop n s))).
  rewrite <- rev_app_distr, take_drop. by rewrite adjacent_rev.
Qed.

(** The runs of a class, each collapsed to one unit of the class when it has
    two or more: no two neighbours are left in the class. *)
Lemma adjacent_collapsed P rep (rs : list (bool * jsstring)) :
  P rep = true -> runs_wf P rs ->
  let out :=
    concat (map (fun '(b, g) => if b && (2 <=? length g)%nat then [rep] else g)
                rs) in
  adjacent P out = false
  /\ match rs with
     | (b, _) :: _ => exists c, head out = Some c /\ P c = b
     | [] => True
     end.
Proof.
  intros Hrep. induction rs as [|[b g] rest IH]; [done|].
  intros (Hg & Hall & Hnext & Hrest). specialize (IH Hrest).
  cbn zeta in *. cbn [map concat].
  set (tail := concat (map _ rest)) in *. destruct IH as [IHadj IHhead].
  destruct b; cbn [andb].
  - assert (Hone : exists x, (if (2 <=? length g)%nat then [rep] else g) = [x]
                             /\ P x = true).
    { destruct (2 <=? length g)%nat eqn:E; [by exists rep|].
      apply Nat.leb_gt in E. destruct g as [|x [|y g]]; simpl in E; try lia;
        [done|]. exists x. split; [done|]. by inversion Hall. }
    destruct Hone as (x & -> & Hx). split; [|by exists x].
    change ([x] ++ tail) with (x :: tail). cbn [adjacent].
    destruct tail as [|y tail'] eqn:Etail; [done|].
    rewrite IHadj, orb_false_r, Hx. simpl.
    destruct rest as [|[b' g'] rest']; [done|].
    destruct IHhead as (c & Hc & Hb). simpl in Hc. injection Hc as ->.
    rewrite Hb. by subst b'.
  - split.
    + by rewrite adjacent_outside.
    + destruct g as [|x g]; [done|]. exists x. split; [done|].
      by inversion Hall.
Qed.

Lemma dropWhileEnd_prefix P (s : jsstring) :
  exists t, s = dropWhileEnd P s ++ t.
Proof.
  unfold dropWhileEnd.
  assert (Hsuffix : forall l : jsstring, exists t, l = t ++ dropWhile P l).
  { induction l as [|c l [t IH]]; [by exists []|]. simpl.
    destruct (P c); [|by exists []]. exists (c :: t). simpl. by f_equal. }
  destruct (Hsuffix (rev s)) as [t Ht]. exists (rev t).
  rewrite <- rev_app_distr, <- Ht. by rewrite rev_involutive.
Qed.

Lemma head_dropWhile P (s : jsstring) c :
  head (dropWhile P s) = Some c -> P c = false.
Proof.
  induction s as [|a s IH]; [done|]. simpl.
  destruct (P a) eqn:E; [exact IH|]. simpl. by intros [= <-].
Qed.

Lemma head_strip_ends P (s : jsstring) c :
  head (strip_ends P s) = Some c -> P c = false.
Proof.
  unfold strip_ends.
  destruct (dropWhileEnd_prefix P (dropWhile P s)) as [t Ht].
  destruct (dropWhileEnd P (dropWhile P s)) as [|a r] eqn:E; [done|].
  simpl. intros [= <-]. apply (head_dropWhile P s). by rewrite Ht.
Qed.

Lemma last_rev_head (s : jsstring) : last (rev s) = head s.
Proof. destruct s as [|a s]; [done|]. simpl. apply last_snoc. Qed.

Lemma last_dropWhileEnd P (s : jsstring) c :
  last (dropWhileEnd P s) = Some c -> P c = false.
Proof.
  unfold dropWhileEnd. rewrite last_rev_head. apply head_dropWhile.
Qed.

(** X1. In the name [cleanToolName] answers, no two neighbouring code units
    are both an underscore or a hyphen, the first code unit is neither, and
    when the name is shorter than 64 code units the last one is neither. A
    name cut at 64 code units may end in one. *)
Theorem cleanToolName_separators (name : jsstring) :
  let cleaned := cleanToolName name in
  adjacent is_sep cleaned = false
  /\ (forall c, head cleaned = Some c -> is_sep c = false)
  /\ ((length cleaned < 64)%nat ->
      forall c, last cleaned = Some c -> is_sep c = false).
Proof.
  unfold cleanToolName, slice0.
  set (collapsed := replace_runs is_sep 2 [underscore] _).
  set (stripped := strip_ends is_sep collapsed).
  cbn zeta. split; [|split].
  - apply adjacent_take. unfold stripped, strip_ends.
    apply adjacent_dropWhileEnd, adjacent_dropWhile.
    apply (adjacent_collapsed is_sep underscore); [done|apply runs_wf_runs].
  - intros c Hc. apply (head_strip_ends is_sep collapsed).
    fold stripped. destruct stripped as [|a r]; [done|]. exact Hc.
  - intros Hshort c Hc.
    assert (Hall : take 64 stripped = stripped).
    { apply take_ge. rewrite length_take in Hshort. lia. }
    rewrite Hall in Hc. by apply (last_dropWhileEnd is_sep) in Hc.
Qed.

Lemma runs_wf_In P (rs : list (bool * jsstring)) b g :
  runs_wf P rs -> In (b, g) rs -> g <> [] /\ Forall (fun c => P c = b) g.
Proof.
  induction rs as [|[b' g'] rest IH]; [done|].
  intros (Hg & Hall & _ & Hrest) [[= -> ->]|Hin]; [done|]. by apply IH.
Qed.

Lemma In_replace_runs P least rep (s : jsstring) c :
  In c s -> P c = false -> In c (replace_runs P least rep s).
Proof.
  intros Hin Hc. rewrite <- (concat_runs P s) in Hin.
  apply in_concat in Hin as (g & Hg & Hcg).
  apply in_map_iff in Hg as ([b g'] & <- & Hrun). simpl in Hcg.
  unfold replace_runs. apply in_concat. exists g'. split; [|done].
  apply in_map_iff. exists (b, g'). split; [|done].
  destruct (runs_wf_In P _ b g' (runs_wf_runs P s) Hrun) as [_ Hall].
  rewrite Forall_forall in Hall.
  assert (b = false) as ->; [|done].
  rewrite <- Hc. symmetry. apply Hall. by apply list_elem_of_In.
Qed.

Lemma In_dropWhile P (s : jsstring) c :
  In c s -> P c = false -> In c (dropWhile P s).
Proof.
  intros Hin Hc. induction s as [|a s IH]; [done|]. simpl.
  destruct (P a) eqn:E; [|done].
  destruct Hin as [->|Hin]; [congruence | by apply IH].
Qed.

Lemma In_strip_ends P (s : jsstring) c :
  In c s -> P c = false -> In c (strip_ends P s).
Proof.
  intros Hin Hc. unfold strip_ends, dropWhileEnd.
  apply in_rev. rewrite rev_involutive. apply In_dropWhile; [|done].
  apply in_rev. rewrite rev_involutive. by apply In_dropWhile.
Qed.

Lemma dropWhile_all P (s : jsstring) :
  Forall (fun c => P c = true) s -> dropWhile P s = [].
Proof. induction 1 as [|c s Hc Hs IH]; [done|]. simpl. by rewrite Hc. Qed.

Lemma is_name_char_alnum_or_sep c :
  is_name_char c = is_alnum c || is_sep c.
Proof. unfold is_name_char, is_alnum, is_sep. by rewrite <- orb_assoc. Qed.

Lemma is_alnum_not_space c : is_alnum c = true -> is_space c = false.
Proof.
  unfold is_alnum, is_digit.
  rewrite !orb_true_iff, !andb_true_iff, !N.leb_le. intros Hc.
  destruct (is_space c) eqn:E; [|done]. unfold is_space in E.
  rewrite !orb_true_iff, !andb_true_iff, !N.leb_le, !N.eqb_eq in E. lia.
Qed.

Lemma is_alnum_not_sep c : is_alnum c = true -> is_sep c = false.
Proof.
  unfold is_alnum, is_digit, is_sep, underscore, hyphen.
  rewrite !orb_true_iff, !andb_true_iff, !N.leb_le. intros Hc.
  apply orb_false_iff. split; apply N.eqb_neq; lia.
Qed.

(** X2. [cleanToolName] answers the empty string exactly when the name,
    trimmed and lower-cased, has no letter a-z and no digit. *)
Theorem cleanToolName_empty_iff (name : jsstring) :
  cleanToolName name = []
  <-> existsb is_alnum (toLowerCase (trim name)) = false.
Proof.
  unfold cleanToolName, slice0.
  set (lowered := toLowerCase (trim name)). split.
  - intros Hempty. destruct (existsb is_alnum lowered) eqn:E; [|done].
    apply existsb_exists in E as (c & Hin & Hc). exfalso.
    pose proof (is_alnum_not_space c Hc) as Hspace.
    pose proof (is_alnum_not_sep c Hc) as Hsep.
    assert (Hname : is_name_char c = true)
      by (rewrite is_name_char_alnum_or_sep, Hc; done).
    apply (In_replace_runs is_space 1 [underscore]) in Hin; [|done].
    assert (Hin2 : In c (replace_outside is_name_char underscore
                           (replace_runs is_space 1 [underscore] lowered))).
    { unfold replace_outside. apply in_map_iff. exists c. by rewrite Hname. }
    apply (In_replace_runs is_sep 2 [underscore]) in Hin2; [|done].
    apply (In_strip_ends is_sep) in Hin2; [|done].
    destruct (strip_ends _ _) as [|a r]; [done | discriminate].
  - intros Hnone.
    assert (Hall : Forall (fun c => is_alnum c = false) lowered).
    { apply Forall_forall. intros c Hin.
      destruct (is_alnum c) eqn:E; [|done].
      rewrite <- Hnone. symmetry. apply existsb_exists. exists c.
      split; [by apply list_elem_of_In | done]. }
    apply (Forall_replace_runs _ is_space 1 [underscore]) in Hall;
      [|by repeat constructor].
    assert (Hseps : Forall (fun c => is_sep c = true)
                      (replace_outside is_name_char underscore
                         (replace_runs is_space 1 [underscore] lowered))).
    { unfold replace_outside. apply Forall_fmap.
      eapply Forall_impl; [exact Hall|]. intros c Hc. simpl.
      rewrite is_name_char_alnum_or_sep, Hc. cbn [orb].
      destruct (is_sep c) eqn:E; [exact E | done]. }
    apply (Forall_replace_runs _ is_sep 2 [underscore]) in Hseps;
      [|by repeat constructor].
    unfold strip_ends. by rewrite (dropWhile_all _ _ Hseps).
Qed.

Lemma dropWhile_head P (s : jsstring) :
  (forall c, head s = Some c -> P c = false) -> dropWhile P s = s.
Proof.
  destruct s as [|a s]; [done|]. intros Hhead. simpl.
  by rewrite (Hhead a eq_refl).
Qed.

Lemma dropWhileEnd_last P (s : jsstring) :
  (forall c, last s = Some c -> P c = false) -> dropWhileEnd P s = s.
Proof.
  intros Hlast. unfold dropWhileEnd. rewrite dropWhile_head.
  - apply rev_involutive.
  - intros c Hc. apply Hlast. rewrite <- Hc.
    rewrite <- (last_rev_head (rev s)). by rewrite rev_involutive.
Qed.

Lemma replace_runs_outside P least rep (s : jsstring) :
  Forall (fun c => P c = false) s -> replace_runs P least rep s = s.
Proof.
  intros Hs. rewrite <- (concat_runs P s) at 2. unfold replace_runs.
  f_equal. apply map_ext_in. intros [b g] Hrun.
  destruct (runs_wf_In P _ b g (runs_wf_runs P s) Hrun) as [Hg Hall].
  assert (Hin : Forall (fun c => P c = false) g).
  { pose proof (Forall_runs _ P s Hs) as Hruns.
    rewrite Forall_forall in Hruns.
    apply (Hruns (b, g)). by apply list_elem_of_In. }
  destruct g as [|c g]; [done|].
  apply Forall_cons in Hall as [Hc _]. apply Forall_cons in Hin as [Hc' _].
  assert (b = false) as -> by congruence. done.
Qed.

Lemma collapse_single P rep (rs : list (bool * jsstring)) :
  runs_wf P rs -> adjacent P (concat (map snd rs)) = false ->
  concat (map (fun '(b, g) => if b && (2 <=? length g)%nat then rep else g)
              rs)
  = concat (map snd rs).
Proof.
  induction rs as [|[b g] rest IH]; [done|].
  intros (Hg & Hall & _ & Hrest) Hadj. cbn [map concat snd] in *.
  rewrite IH; [|done | by apply (adjacent_suffix P g)]. f_equal.
  destruct b; [|done]. cbn [andb].
  destruct g as [|x [|y g]]; [done..|]. exfalso.
  apply Forall_cons in Hall as [Hx Hall].
  apply Forall_cons in Hall as [Hy _].
  change ((x :: y :: g) ++ concat (map snd rest))
    with (x :: y :: (g ++ concat (map snd rest))) in Hadj.
  rewrite adjacent_cons, Hx, Hy in Hadj. done.
Qed.

Lemma replace_runs_single P rep (s : jsstring) :
  adjacent P s = false -> replace_runs P 2 rep s = s.
Proof.
  intros Hadj. unfold replace_runs.
  rewrite (collapse_single P);
    [apply concat_runs | apply runs_wf_runs | by rewrite concat_runs].
Qed.

(** X3. [cleanToolName] leaves a name as it is when [toLowerCase] does, its
    code units are of [[a-z0-9_-]], no underscore or hyphen is its first or
    last code unit or next to another, and it has at most 64 code units. *)
Theorem cleanToolName_keeps_clean_name (name : jsstring) :
  toLowerCase name = name ->
  Forall (fun c => is_name_char c = true) name ->
  adjacent is_sep name = false ->
  (forall c, head name = Some c -> is_sep c = false) ->
  (forall c, last name = Some c -> is_sep c = false) ->
  (length name <= 64)%nat ->
  cleanToolName name = name.
Proof.
  intros Hlower Hchars Hadj Hhead Hlast Hlen.
  assert (Hnospace : forall c, In c name -> is_space c = false).
  { intros c Hin. rewrite Forall_forall in Hchars.
    specialize (Hchars c (proj2 (list_elem_of_In _ _) Hin)).
    rewrite is_name_char_alnum_or_sep in Hchars.
    apply orb_true_iff in Hchars as [Hc|Hc];
      [by apply is_alnum_not_space|].
    unfold is_sep, underscore, hyphen in Hc.
    rewrite orb_true_iff, !N.eqb_eq in Hc. by destruct Hc as [->| ->]. }
  assert (Htrim : trim name = name).
  { unfold trim. rewrite dropWhile_head.
    - apply dropWhileEnd_last. intros c Hc. apply Hnospace.
      apply list_elem_of_In. by apply last_Some_elem_of.
    - intros c Hc. apply Hnospace. destruct name; [done|].
      injection Hc as ->. by left. }
  unfold cleanToolName. rewrite Htrim, Hlower.
  rewrite (replace_runs_outside is_space)
    by (apply Forall_forall; intros c Hc; apply Hnospace;
        by apply list_elem_of_In).
  assert (Hkeep : replace_outside is_name_char underscore name = name).
  { unfold replace_outside. rewrite <- (map_id name) at 2.
    apply map_ext_in. intros c Hc. rewrite Forall_forall in Hchars.
    by rewrite (Hchars c (proj2 (list_elem_of_In _ _) Hc)). }
  rewrite Hkeep, (replace_runs_single _ _ _ Hadj).
  unfold strip_ends. rewrite (dropWhile_head _ _ Hhead).
  rewrite (dropWhileEnd_last _ _ Hlast). unfold slice0. by apply take_ge.
Qed.

(** ** Tool definitions and the configuration *)

Lemma processToolDefinitions_from_spec tools toolNames toolBlockIds
      toolDefinitions :
  processToolDefinitions_from tools toolNames toolBlockIds toolDefinitions
  = (tools ++ map toolOf toolDefinitions,
     foldl (fun names td => <[cleanToolName (td_name td) := td_name td]> names)
           toolNames toolDefinitions,
     foldl (fun ids td => <[cleanToolName (td_name td) := td_blockId td]> ids)
           toolBlockIds toolDefinitions).
Proof.
  revert tools toolNames toolBlockIds.
  induction toolDefinitions as [|td rest IH];
    intros tools toolNames toolBlockIds.
  - simpl. by rewrite app_nil_r.
  - cbn [processToolDefinitions_from]. rewrite IH. simpl.
    by rewrite <- app_assoc.
Qed.

Lemma foldl_insert_last {V} (value : ToolDefinition -> V)
      (start : gmap jsstring V) toolDefinitions cleanedName :
  foldl (fun acc td => <[cleanToolName (td_name td) := value td]> acc)
        start toolDefinitions !! cleanedName
  = match last (definitionsNamed cleanedName toolDefinitions) with
    | Some td => Some (value td)
    | None => start !! cleanedName
    end.
Proof.
  revert start. induction toolDefinitions as [|td rest IH]; intros start;
    [done|].
  simpl. rewrite IH. unfold definitionsNamed. simpl.
  fold (definitionsNamed cleanedName rest).
  destruct (bool_decide_reflect (cleanToolName (td_name td) = cleanedName))
    as [Heq|Hne].
  - destruct (definitionsNamed cleanedName rest) as [|td' rest'] eqn:E.
    + simpl. rewrite <- Heq. apply lookup_insert_eq.
    + rewrite last_cons_cons. destruct (last (td' :: rest')) eqn:El; [done|].
      by apply last_None in El.
  - destruct (last _); [done|]. by apply lookup_insert_ne.
Qed.

(** X4. [processToolDefinitions] answers one tool per definition, in their
    order, also when two definitions clean to the same name; [toolNames] and
    [toolBlockIds] hold for a cleaned name the name and the block of the last
    definition that cleans to it, and nothing for a name that no definition
    cleans to. *)
Theorem processToolDefinitions_later_definition_wins
        (toolDefinitions : list ToolDefinition) :
  let '(tools, toolNames, toolBlockIds) :=
    processToolDefinitions toolDefinitions in
  tools = map toolOf toolDefinitions
  /\ forall cleanedName,
       toolNames !! cleanedName
       = td_name <$> last (definitionsNamed cleanedName toolDefinitions)
       /\ toolBlockIds !! cleanedName
          = td_blockId <$> last (definitionsNamed cleanedName toolDefinitions).
Proof.
  unfold processToolDefinitions. rewrite processToolDefinitions_from_spec.
  split; [done|]. intros cleanedName. rewrite !foldl_insert_last.
  destruct (last (definitionsNamed cleanedName toolDefinitions)); by split.
Qed.

Lemma thinking_check (budget maxTokens : Q) :
  negb (truthy_number budget) || ge budget maxTokens = false
  <-> ~ (budget == 0)%Q /\ (budget < maxTokens)%Q.
Proof.
  rewrite orb_false_iff, negb_false_iff, truthy_number_spec. unfold ge.
  split; intros [Hnz Hlt]; (split; [done|]).
  - apply Qnot_le_lt. intros Hle%Qle_bool_iff. congruence.
  - apply not_true_is_false. intros Hle%Qle_bool_iff.
    by apply (Qlt_not_le _ _ Hlt).
Qed.

Lemma validateConfig_inr_iff (appConfig : AppConfig)
        (inputConfig : InputConfig) :
  (exists apiKey settings,
     validateConfig appConfig inputConfig
     = inr (apiKey, ic_prompt inputConfig, settings)
     /\ anthropicApiKey appConfig = Some apiKey
     /\ configuredModel appConfig inputConfig = Some (model settings)
     /\ maxRetries settings = default 1%Q (ic_maxRetries inputConfig)
     /\ toolDefinitions settings = default [] (ic_toolDefinitions inputConfig)
     /\ mcpServers settings = default [] (ic_mcpServers inputConfig))
  <-> truthy_string (anthropicApiKey appConfig) = true
      /\ truthy_string (configuredModel appConfig inputConfig) = true
      /\ thinkingWithinBudget inputConfig.
Proof.
  unfold validateConfig, thinkingWithinBudget.
  fold (configuredModel appConfig inputConfig).
  destruct (anthropicApiKey appConfig) as [[|k key]|];
    cbn [truthy_string negb];
    try (split; [intros (? & ? & ? & _) | intros (? & _)]; discriminate).
  destruct (configuredModel appConfig inputConfig) as [[|c m]|];
    cbn [truthy_string negb];
    try (split; [intros (? & ? & ? & _) | intros (_ & ? & _)]; discriminate).
  destruct (ic_thinking inputConfig) as [[|]|].
  - destruct (ic_thinkingBudget inputConfig) as [budget|].
    + destruct (negb (truthy_number budget)
                || ge budget (ic_maxTokens inputConfig)) eqn:Hcheck.
      * split; [intros (? & ? & ? & _); discriminate|].
        intros (_ & _ & Hb). destruct (Hb eq_refl) as (b' & [= <-] & Hok).
        apply thinking_check in Hok. congruence.
      * split; [|intros _; eexists _, _; by repeat split].
        intros _. split; [done|]. split; [done|]. intros _.
        exists budget. split; [done|]. by apply thinking_check.
    + split; [intros (? & ? & ? & _); discriminate|].
      intros (_ & _ & Hb). by destruct (Hb eq_refl) as (b & [=] & _).
  - split; [|intros _; eexists _, _; by repeat split].
    intros _. by repeat split.
  - split; [|intros _; eexists _, _; by repeat split].
    intros _. by repeat split.
Qed.

(** X5. [validateConfig] accepts a configuration exactly when the API key is
    a string that is not empty, the model (the one of the input, the default
    of the app when the input has none) is a string that is not empty, and
    thinking is not asked for or has a budget that is not zero and is below
    the maximum of tokens; a negative budget is accepted. It then answers
    that key and model and the prompt, with 1 for [maxRetries], no tool and
    no MCP server where the input sets none. *)
Theorem validateConfig_accepts (appConfig : AppConfig)
        (inputConfig : InputConfig) :
  (exists apiKey settings,
     validateConfig appConfig inputConfig
     = inr (apiKey, ic_prompt inputConfig, settings)
     /\ anthropicApiKey appConfig = Some apiKey
     /\ configuredModel appConfig inputConfig = Some (model settings)
     /\ maxRetries settings = default 1%Q (ic_maxRetries inputConfig)
     /\ toolDefinitions settings = default [] (ic_toolDefinitions inputConfig)
     /\ mcpServers settings = default [] (ic_mcpServers inputConfig))
  <-> truthy_string (anthropicApiKey appConfig) = true
      /\ truthy_string (configuredModel appConfig inputConfig) = true
      /\ thinkingWithinBudget inputConfig.
Proof. apply validateConfig_inr_iff. Qed.

(** X6. What [validateConfig] throws is the error of the first check that
    fails, in the order API key, model, thinking budget. *)
Theorem validateConfig_rejects (appConfig : AppConfig)
        (inputConfig : InputConfig) (e : Error) :
  validateConfig appConfig inputConfig = inl e ->
  (truthy_string (anthropicApiKey appConfig) = false
   /\ message e = js "Anthropic API key is required")
  \/ (truthy_string (anthropicApiKey appConfig) = true
      /\ truthy_string (configuredModel appConfig inputConfig) = false
      /\ message e = js "Model is required")
  \/ (truthy_string (anthropicApiKey appConfig) = true
      /\ truthy_string (configuredModel appConfig inputConfig) = true
      /\ ~ thinkingWithinBudget inputConfig
      /\ message e
         = js "You need to set thinking budget to a value less than max tokens").
Proof.
  intros Hrejected.
  destruct (truthy_string (anthropicApiKey appConfig)) eqn:Hkey.
  - right.
    destruct (truthy_string (configuredModel appConfig inputConfig)) eqn:Hmodel.
    + right. repeat split.
      * intros Hbudget.
        destruct (proj2 (validateConfig_inr_iff appConfig inputConfig))
          as (? & ? & Haccepted & _); [done|]. congruence.
      * unfold validateConfig in Hrejected.
        fold (configuredModel appConfig inputConfig) in Hrejected.
        rewrite Hkey, Hmodel in Hrejected. cbn [negb] in Hrejected.
        destruct (match ic_thinking inputConfig with
                  | Some true => _
                  | _ => _
                  end);
          [by injection Hrejected as <- | discriminate].
    + left. repeat split. unfold validateConfig in Hrejected.
      fold (configuredModel appConfig inputConfig) in Hrejected.
      rewrite Hkey, Hmodel in Hrejected. by injection Hrejected as <-.
  - left. split; [done|]. unfold validateConfig in Hrejected.
    rewrite Hkey in Hrejected. by injection Hrejected as <-.
Qed.

(** ** The store *)

Lemma loadCallState_run eventId w :
  loadCallState eventId w
  = (match kv_value <$> kv w !! callKey eventId with
     | Some (VCallState state) => Return state
     | _ => Throw {| message := js "Call state not found" |}
     end, w).
Proof.
  unfold loadCallState. rewrite bind_run. unfold kv_get.
  by destruct (kv_value <$> kv w !! callKey eventId) as [[]|].
Qed.

(** X7. The call states are kept by event: after [storeCallState] for an
    event, [loadCallState] answers the state stored for that event, and for
    every other event what it answered before; after [deleteCallState] it
    throws "Call state not found" for that event, and answers as before for
    every other. *)
Theorem callState_store_load_delete (eventId eventId' : jsstring)
        (state : CallState) (w : World) :
  fst (loadCallState eventId' (snd (storeCallState eventId state w)))
  = (if bool_decide (eventId' = eventId) then Return state
     else fst (loadCallState eventId' w))
  /\ fst (loadCallState eventId' (snd (deleteCallState eventId w)))
     = (if bool_decide (eventId' = eventId)
        then Throw {| message := js "Call state not found" |}
        else fst (loadCallState eventId' w)).
Proof.
  rewrite !loadCallState_run. cbn [fst].
  unfold storeCallState, deleteCallState, kv_set, kv_delete. cbn [snd kv].
  destruct (bool_decide_reflect (eventId' = eventId)) as [->|Hne].
  - by rewrite lookup_insert_eq, lookup_delete_eq.
  - assert (Hkey : callKey eventId <> callKey eventId')
      by (intros E; by apply callKey_inj in E).
    by rewrite lookup_insert_ne, lookup_delete_ne.
Qed.

(** X8. The locks are kept by event: after [setTimerLock] for an event,
    [isTimerLocked] answers true for that event, after [clearTimerLock]
    false, and for every other event what it answered before. *)
Theorem timerLock_set_clear (eventId eventId' : jsstring) (w : World) :
  fst (isTimerLocked eventId' (snd (setTimerLock eventId w)))
  = (if bool_decide (eventId' = eventId) then Return true
     else fst (isTimerLocked eventId' w))
  /\ fst (isTimerLocked eventId' (snd (clearTimerLock eventId w)))
     = (if bool_decide (eventId' = eventId) then Return false
        else fst (isTimerLocked eventId' w)).
Proof.
  unfold isTimerLocked, setTimerLock, clearTimerLock, kv_get, kv_set,
    kv_delete.
  rewrite !bind_run. cbn [fst snd kv ret].
  destruct (bool_decide_reflect (eventId' = eventId)) as [->|Hne].
  - rewrite lookup_insert_eq, lookup_delete_eq. split; [|done].
    by rewrite bool_decide_eq_true_2 by (simpl; eauto).
  - assert (Hkey : lockKey eventId <> lockKey eventId')
      by (intros E; by apply lockKey_inj in E).
    by rewrite lookup_insert_ne, lookup_delete_ne.
Qed.

(** X9. The keys of the store do not collide: the key of a call state, of a
    timeout handle and of a lock each determine their event, the key of a
    result determines the turn and the tool call among the keys of one
    event, and no key of one of the four kinds is a key of another kind. *)
Theorem store_keys_distinct :
  (forall e e', callKey e = callKey e' -> e = e')
  /\ (forall e e', timerKey e = timerKey e' -> e = e')
  /\ (forall e e', lockKey e = lockKey e' -> e = e')
  /\ (forall e turn id turn' id',
        resultKey e turn id = resultKey e turn' id' ->
        turn = turn' /\ id = id')
  /\ (forall e e' turn id,
        callKey e <> timerKey e' /\ callKey e <> lockKey e'
        /\ timerKey e <> lockKey e' /\ resultKey e turn id <> callKey e'
        /\ resultKey e turn id <> timerKey e'
        /\ resultKey e turn id <> lockKey e').
Proof.
  split; [exact callKey_inj|]. split; [exact timerKey_inj|].
  split; [exact lockKey_inj|]. split.
  - intros e turn id turn' id' E.
    pose proof (resultKey_inj_turn _ _ _ _ _ E) as ->.
    split; [done|]. by apply resultKey_inj_id in E.
  - intros e e' turn id. repeat split; discriminate.
Qed.

(** X10. When the identifier that [timers.set] hands out is not in use,
    [setTimeoutTimer] schedules one timer more, and [clearTimeoutTimer]
    after it leaves the timers as they were before the two. The handle stays
    in the store, and a second [clearTimeoutTimer] changes nothing. *)
Theorem clearTimeoutTimer_after_set (eventId : jsstring) (w : World) :
  timers w !! next_id w = None ->
  let w1 := snd (setTimeoutTimer eventId w) in
  let w2 := snd (clearTimeoutTimer eventId w1) in
  timers w1 = <[next_id w := eventId]> (timers w)
  /\ timers w2 = timers w
  /\ kv_value <$> kv w2 !! timerKey eventId = Some (VTimerId (next_id w))
  /\ clearTimeoutTimer eventId w2 = (Return tt, w2).
Proof.
  intros Hfresh w1 w2.
  assert (Hhandle : kv_value <$> kv w1 !! timerKey eventId
                    = Some (VTimerId (next_id w))).
  { unfold w1, setTimeoutTimer, timers_set, kv_set. rewrite bind_run.
    cbn [snd kv]. by rewrite lookup_insert_eq. }
  assert (Hw2 : w2 = snd (timers_unset (next_id w) w1)).
  { unfold w2, clearTimeoutTimer, kv_get. rewrite bind_run. cbn [fst snd].
    by rewrite Hhandle. }
  assert (Htimers1 : timers w1 = <[next_id w := eventId]> (timers w)) by done.
  assert (Htimers2 : timers w2 = timers w).
  { rewrite Hw2. unfold timers_unset. cbn [snd timers]. rewrite Htimers1.
    by rewrite delete_insert_id. }
  assert (Hkv2 : kv w2 = kv w1) by (by rewrite Hw2).
  split; [done|]. split; [done|]. split; [by rewrite Hkv2|].
  unfold clearTimeoutTimer, kv_get. rewrite bind_run. cbn [fst snd].
  rewrite Hkv2, Hhandle. unfold timers_unset. f_equal.
  destruct w2 as [kv2 timers2 next2 calls2 effects2]. cbn in *. f_equal.
  rewrite Htimers2. by apply delete_id.
Qed.

(** ** The effects of a turn *)

Global Instance issues_preorder I : PreOrder (issues I).
Proof.
  split.
  - intros w. exists []. by rewrite app_nil_r.
  - intros w1 w2 w3 (es & E & Hes) (es' & E' & Hes'). exists (es ++ es').
    split; [by rewrite E', E, app_assoc | by apply Forall_app].
Qed.

Lemma silent_issues {A} I (m : M A) :
  (forall w, effects (snd (m w)) = effects w) -> preserves (issues I) m.
Proof. intros Hm w. exists []. by rewrite Hm, app_nil_r. Qed.

Lemma perform_issues I e : I e -> preserves (issues I) (perform e).
Proof. intros He w. exists [e]. split; [done | by repeat constructor]. Qed.

Lemma streamMessage_issues I params :
  I (ApiCall (stream_request params)) ->
  preserves (issues I) (streamMessage params).
Proof.
  intros He w. exists [ApiCall (stream_request params)].
  split; [done | by repeat constructor].
Qed.

Lemma finalMessage_issues I stream : preserves (issues I) (finalMessage stream).
Proof.
  unfold finalMessage. destruct (final stream);
    [apply preserves_throw | apply preserves_ret].
Qed.

Lemma kv_get_issues I key : preserves (issues I) (kv_get key).
Proof. by apply silent_issues. Qed.

Lemma kv_set_issues I key value ttl :
  preserves (issues I) (kv_set key value ttl).
Proof. by apply silent_issues. Qed.

Lemma kv_delete_issues I key : preserves (issues I) (kv_delete key).
Proof. by apply silent_issues. Qed.

Lemma kv_list_issues I keyPrefix : preserves (issues I) (kv_list keyPrefix).
Proof. by apply silent_issues. Qed.

Lemma timers_set_issues I seconds eventId :
  preserves (issues I) (timers_set seconds eventId).
Proof. by apply silent_issues. Qed.

Lemma timers_unset_issues I id : preserves (issues I) (timers_unset id).
Proof. by apply silent_issues. Qed.

(** Splits a computation along its binds and its case distinctions. *)
Ltac split_step :=
  first
    [ apply preserves_ret
    | apply preserves_throw
    | apply preserves_bind; [|intros ?]
    | apply preserves_try_catch; [|intros ?|intros ?]
    | apply preserves_when
    | apply preserves_forEach; intros ?
    | match goal with
      | |- preserves _ (match ?x with _ => _ end) => destruct x
      | |- preserves _ (let '(_, _) := ?x in _) => destruct x
      end ].

(** The same down to the calls of the SDK; what is left to show is that each
    effect performed is in the class. *)
Ltac issue_step :=
  first
    [ split_step
    | apply kv_get_issues
    | apply kv_set_issues
    | apply kv_delete_issues
    | apply kv_list_issues
    | apply timers_set_issues
    | apply timers_unset_issues
    | apply finalMessage_issues
    | apply perform_issues
    | apply streamMessage_issues ].

Lemma syncPendingEvents_issues I pendingId lastTool events :
  (forall status, I (UpdatePending pendingId status)) ->
  preserves (issues I) (syncPendingEvents pendingId lastTool events).
Proof.
  intros HU. revert lastTool.
  induction events as [|event rest IH]; intros lastTool; simpl;
    [apply preserves_ret|].
  destruct event; unfold events_updatePending; repeat issue_step;
    first [apply HU | apply IH].
Qed.

Lemma syncPendingEventWithStream_issues I pendingId stream :
  (forall status, I (UpdatePending pendingId status)) ->
  preserves (issues I) (syncPendingEventWithStream pendingId stream).
Proof.
  intros HU. unfold syncPendingEventWithStream.
  apply preserves_bind; [by apply syncPendingEvents_issues | intros _].
  repeat issue_step.
Qed.

Lemma generateObject_loop_issues I finalText params remaining retryCount
      inputTokens outputTokens lastError :
  (forall status, I (UpdatePending (op_pendingId params) status)) ->
  (forall reason, I (CancelPending (op_pendingId params) reason)) ->
  I (ApiCall (stream_request (objectStreamParams params))) ->
  (forall object i o,
     validate object (op_schema params) = inr true ->
     I (Emit (Some finalText) (Some object) i o (op_pendingId params)
             (op_parentEventId params))) ->
  preserves (issues I)
            (generateObject_loop finalText params remaining retryCount
                                 inputTokens outputTokens lastError).
Proof.
  intros HU HC HA HE.
  assert (Hfailed : forall lastError,
            preserves (issues I) (generateObject_failed params lastError)).
  { intros e. unfold generateObject_failed, events_cancelPending.
    repeat issue_step; apply HC. }
  revert retryCount inputTokens outputTokens lastError.
  induction remaining as [|remaining IH];
    intros retryCount inputTokens outputTokens lastError; simpl;
    [apply Hfailed|].
  apply preserves_try_catch.
  - unfold events_updatePending. repeat issue_step; [apply HU | apply HA].
  - intros message.
    destruct (validObject params message) as [error|[object|]] eqn:E;
      [destruct (ge _ _); [apply Hfailed | apply IH] | | apply IH].
    unfold emitResult. apply perform_issues, HE.
    unfold validObject in E. destruct (stop_reason message); try done.
    destruct (find is_tool_use (msg_content message)); [|done].
    destruct (validate _ _) as [?|[]] eqn:Ev; try done.
    by injection E as <-.
  - intros error. destruct (ge _ _); [apply Hfailed | apply IH].
Qed.

Lemma handleModelResponse_issues I message params :
  (forall status, I (UpdatePending (tp_pendingId params) status)) ->
  (forall reason, I (CancelPending (tp_pendingId params) reason)) ->
  (forall text object i o,
     match object with
     | Some object =>
         exists schema', schema (tp_settings params) = Some schema'
                         /\ validate object schema' = inr true
     | None => schema (tp_settings params) = None
     end ->
     I (Emit (Some text) object i o (tp_pendingId params)
             (tp_eventId params))) ->
  (forall parameters toolCallId blockIds,
     I (SendToBlocks (tp_blockId params) (tp_eventId params) parameters
                     toolCallId blockIds)) ->
  (forall schema',
     schema (tp_settings params) = Some schema' ->
     I (ApiCall (stream_request
                   (objectStreamParams
                      (objectParamsOf params schema' message))))) ->
  preserves (issues I) (handleModelResponse message params).
Proof.
  intros HU HC HE HS HO. unfold handleModelResponse.
  destruct (processToolDefinitions _) as [[tools toolNames] toolBlockIds].
  destruct (stop_reason message).
  - destruct (lastText message) as [text|]; [|apply preserves_throw].
    destruct (schema (tp_settings params)) as [schema'|] eqn:Hschema.
    + apply generateObject_loop_issues; try done.
      * by apply (HO schema').
      * intros object i o Hvalid. apply HE. by exists schema'.
    + unfold emitResult. by apply perform_issues, HE.
  - unfold events_updatePending, storeCallState, setTimeoutTimer.
    repeat issue_step; first [apply HU | apply HS].
  - unfold events_cancelPending, deleteCallState.
    repeat issue_step; apply HC.
Qed.

Lemma executeTurn_failed_issues I params lastError :
  (forall reason, I (CancelPending (tp_pendingId params) reason)) ->
  preserves (issues I) (executeTurn_failed params lastError).
Proof.
  intros HC. unfold executeTurn_failed, events_cancelPending, deleteCallState.
  repeat issue_step; apply HC.
Qed.

Lemma executeTurn_loop_issues I params remaining retryCount lastError :
  (forall status, I (UpdatePending (tp_pendingId params) status)) ->
  (forall reason, I (CancelPending (tp_pendingId params) reason)) ->
  I (ApiCall (stream_request (turnStreamParams params))) ->
  (forall n, I (Sleep (backoffDelay n))) ->
  (forall message, preserves (issues I) (handleModelResponse message params)) ->
  preserves (issues I) (executeTurn_loop params remaining retryCount lastError).
Proof.
  intros HU HC HA HSl Hhandle. revert retryCount lastError.
  induction remaining as [|remaining IH]; intros retryCount lastError; simpl;
    [by apply executeTurn_failed_issues|].
  apply preserves_try_catch.
  - unfold events_updatePending.
    repeat first [ apply syncPendingEventWithStream_issues | issue_step ];
      first [apply HU | apply HA].
  - apply Hhandle.
  - intros error. destruct (_ || _); [by apply executeTurn_failed_issues|].
    unfold sleep. repeat issue_step; [apply HSl | apply IH].
Qed.

Lemma syncPendingEvents_run pendingId events :
  forall lastTool w,
    exists statuses,
      syncPendingEvents pendingId lastTool events w
      = (Return tt,
         {| kv := kv w; timers := timers w; next_id := next_id w;
            api_calls := api_calls w;
            effects := effects w ++ map (UpdatePending pendingId) statuses |})
      /\ (length (List.filter announces events) <= length statuses
          <= length events)%nat.
Proof.
  assert (Hstep : forall status rest lastTool w,
            (forall lastTool w,
               exists statuses,
                 syncPendingEvents pendingId lastTool rest w
                 = (Return tt,
                    {| kv := kv w; timers := timers w; next_id := next_id w;
                       api_calls := api_calls w;
                       effects :=
                         effects w ++ map (UpdatePending pendingId) statuses |})
                 /\ (length (List.filter announces rest) <= length statuses
                     <= length rest)%nat) ->
            exists statuses,
              (events_updatePending pendingId status ;;;
               syncPendingEvents pendingId lastTool rest) w
              = (Return tt,
                 {| kv := kv w; timers := timers w; next_id := next_id w;
                    api_calls := api_calls w;
                    effects :=
                      effects w ++ map (UpdatePending pendingId) statuses |})
              /\ (S (length (List.filter announces rest)) <= length statuses
                  <= S (length rest))%nat).
  { intros status rest lastTool w IH. rewrite bind_run.
    unfold events_updatePending, perform at 1.
    destruct (IH lastTool (issued (UpdatePending pendingId status) w))
      as (statuses & -> & Hlen).
    exists (status :: statuses). cbn [issued kv timers next_id api_calls
                                       effects map length].
    rewrite <- app_assoc. split; [done | lia]. }
  induction events as [|event rest IH]; intros lastTool w.
  - exists []. simpl. unfold ret. rewrite app_nil_r.
    split; [by destruct w | lia].
  - destruct event; cbn [syncPendingEvents List.filter announces length];
      try (by apply Hstep).
    + rewrite bind_run.
      destruct (match lastTool with Some t => _ | None => _ end).
      * cbn [when]. unfold events_updatePending, perform at 1.
        destruct (IH lastTool
                    (issued (UpdatePending pendingId
                               (template
                                  [js "Received result of ";
                                   quoted (from_option lt_name [] lastTool);
                                   js " from ";
                                   quoted (from_option lt_serverName []
                                                       lastTool)])) w))
          as (statuses & -> & Hlen).
        eexists (_ :: statuses).
        cbn [issued kv timers next_id api_calls effects map length].
        rewrite <- app_assoc. split; [done | lia].
      * cbn [when]. unfold ret at 1.
        destruct (IH lastTool w) as (statuses & -> & Hlen).
        exists statuses. split; [done | lia].
    + destruct (IH lastTool w) as (statuses & -> & Hlen).
      exists statuses. split; [done | lia].
    + destruct (IH lastTool w) as (statuses & -> & Hlen).
      exists statuses. split; [done | lia].
Qed.

(** X11. [syncPendingEventWithStream] changes nothing but the status of
    the given pending event: it sets it once for every MCP tool use, text
    and thinking block that starts, once at most for any other event, and
    ends as the stream does, throwing the error of a stream that fails after
    the updates. *)
Theorem syncPendingEventWithStream_reports (pendingId : jsstring)
        (stream : ApiOutcome) (w : World) :
  exists statuses,
    syncPendingEventWithStream pendingId stream w
    = (match final stream with
       | inl e => Throw e
       | inr _ => Return tt
       end,
       {| kv := kv w; timers := timers w; next_id := next_id w;
          api_calls := api_calls w;
          effects := effects w ++ map (UpdatePending pendingId) statuses |})
    /\ (length (List.filter announces (streamed stream)) <= length statuses
        <= length (streamed stream))%nat.
Proof.
  unfold syncPendingEventWithStream. rewrite bind_run.
  destruct (syncPendingEvents_run pendingId (streamed stream) None w)
    as (statuses & -> & Hlen).
  exists statuses. split; [|done]. by destruct (final stream).
Qed.

Lemma cleanToolName_allowed name : nameAllowed (cleanToolName name).
Proof.
  unfold nameAllowed, cleanToolName, slice0, strip_ends. split.
  - rewrite length_take. lia.
  - apply Forall_take, Forall_dropWhileEnd, Forall_dropWhile.
    apply Forall_replace_runs; [by repeat constructor|].
    by apply Forall_replace_outside.
Qed.

Lemma withoutThinking_spec msg :
  role (withoutThinking msg) = role msg
  /\ has_thinking (withoutThinking msg) = false.
Proof.
  split; [done|]. unfold has_thinking, withoutThinking. simpl.
  destruct (content msg) as [s|blocks]; [done|].
  induction blocks as [|block blocks IH]; [done|].
  simpl. by destruct block.
Qed.

Lemma objectRequest_shape finalText params :
  objectEffect finalText params
    (ApiCall (stream_request (objectStreamParams params))).
Proof.
  repeat split.
  - simpl. rewrite map_map. apply map_ext. intros msg.
    apply withoutThinking_spec.
  - simpl. apply Forall_fmap, Forall_true. intros msg.
    apply withoutThinking_spec.
Qed.

(** X12. Every effect of [generateObject] is on its own pending event.
    Each request forces the tool [json] with the schema as its input schema,
    has no system prompt, temperature, thinking or MCP server, and carries
    the messages given, role by role, with no thinking block left. What is
    emitted is the text given, with an object that validates against the
    schema. *)
Theorem generateObject_effects (finalText : jsstring) (params : ObjectParams)
        (inputTokens outputTokens : nat) (w : World) :
  exists es,
    effects (snd (generateObject finalText params inputTokens outputTokens w))
    = effects w ++ es
    /\ Forall (objectEffect finalText params) es.
Proof.
  apply (generateObject_loop_issues (objectEffect finalText params)); try done.
  - apply objectRequest_shape.
  - intros object i o Hvalid. repeat split. by exists object.
Qed.

Lemma turnStreamParams_tools params :
  sp_tools (turnStreamParams params)
  = map toolOf (toolDefinitions (tp_settings params)).
Proof.
  unfold turnStreamParams, processToolDefinitions.
  by rewrite processToolDefinitions_from_spec.
Qed.

Lemma stream_request_tool_choice params :
  req_tool_choice (stream_request params) = None <-> sp_tools params = [].
Proof.
  unfold stream_request. simpl. destruct (sp_tools params) as [|tool tools];
    [done|]. simpl. by destruct (sp_force params) as [[]|].
Qed.

Lemma stream_request_mcp_servers params :
  req_mcp_servers (stream_request params) <> Some [].
Proof.
  unfold stream_request. simpl. by destruct (sp_mcpServers params).
Qed.

Lemma stream_request_parallel params choice :
  req_tool_choice (stream_request params) = Some choice ->
  parallelDisabled choice
  = bool_decide (is_Some (req_mcp_servers (stream_request params))).
Proof.
  unfold stream_request. simpl.
  destruct (sp_tools params) as [|tool tools]; [done|]. simpl.
  destruct (sp_mcpServers params) as [|server servers];
    destruct (sp_force params) as [[]|]; simpl; intros [= <-];
    reflexivity.
Qed.

Lemma stream_request_thinking params budget :
  req_thinking (stream_request params) = Some budget ->
  sp_thinking params = Some true /\ sp_thinkingBudget params = Some budget
  /\ ~ (budget == 0)%Q.
Proof.
  unfold stream_request. simpl.
  destruct (sp_thinking params) as [[]|]; try done.
  destruct (sp_thinkingBudget params) as [b|]; try done.
  destruct (truthy_number b) eqn:Hb; [|done].
  intros [= <-]. repeat split. by apply truthy_number_spec.
Qed.

Lemma turnRequest_turn params :
  turnRequest params (stream_request (turnStreamParams params)).
Proof.
  unfold turnRequest.
  split; [|split; [|split; [|split; [|split; [|split; [|split]]]]]].
  - unfold turnStreamParams.
    by destruct (processToolDefinitions _) as [[tools ?] ?].
  - unfold turnStreamParams.
    by destruct (processToolDefinitions _) as [[tools ?] ?].
  - unfold turnStreamParams.
    by destruct (processToolDefinitions _) as [[tools ?] ?].
  - change (req_tools (stream_request (turnStreamParams params)))
      with (sp_tools (turnStreamParams params)).
    rewrite turnStreamParams_tools. apply Forall_fmap, Forall_true.
    intros td. apply cleanToolName_allowed.
  - apply stream_request_tool_choice.
  - apply stream_request_mcp_servers.
  - apply stream_request_parallel.
  - intros budget Hb. apply stream_request_thinking in Hb.
    unfold turnStreamParams in Hb.
    by destruct (processToolDefinitions _) as [[tools ?] ?].
Qed.

Lemma turnRequest_object params schema' message :
  turnRequest params
    (stream_request
       (objectStreamParams (objectParamsOf params schema' message))).
Proof.
  assert (Hjson : nameAllowed (js "json"))
    by (split; [vm_compute; lia | by repeat constructor]).
  unfold turnRequest.
  split; [done|]. split; [done|]. split; [done|].
  split; [by repeat constructor|]. split; [done|]. split; [done|].
  split; [|done]. by intros choice [= <-].
Qed.

Lemma executeTurn_issues params :
  preserves (issues (turnEffect params)) (executeTurn params).
Proof.
  apply executeTurn_loop_issues; try done.
  - apply turnRequest_turn.
  - intros n. unfold turnEffect, backoffDelay. apply N.le_min_r.
  - intros message. apply handleModelResponse_issues; try done.
    intros schema' _. apply turnRequest_object.
Qed.

(** X13. Every effect of [executeTurn] is on the pending event, the event
    and the block of its parameters, and none creates a pending event. Each
    request has the API key, the model and the maximum of tokens of the
    turn, tools whose names have at most 64 code units of [[a-z0-9_-]], a
    tool choice exactly when it has tools (one that disables parallel tool
    use exactly when MCP servers are sent), no empty list of MCP servers,
    and thinking only when it is configured with a budget that is not zero
    (a negative one is sent as it is). An object is emitted only when a
    schema is set, and validates against it. No sleep is longer than 10
    seconds. *)
Theorem executeTurn_effects (params : TurnParams) (w : World) :
  exists es,
    effects (snd (executeTurn params w)) = effects w ++ es
    /\ Forall (turnEffect params) es.
Proof. apply executeTurn_issues. Qed.

(** ** The ends of a turn *)

Lemma forEach_perform_run {A} (l : list A) (f : A -> Effect) w :
  forEach l (fun a => perform (f a)) w
  = (Return tt,
     {| kv := kv w; timers := timers w; next_id := next_id w;
        api_calls := api_calls w; effects := effects w ++ map f l |}).
Proof.
  revert w. induction l as [|a l IH]; intros w.
  - simpl. unfold ret. rewrite app_nil_r. by destruct w.
  - cbn [forEach]. rewrite bind_run. unfold perform at 1. rewrite IH.
    cbn [issued kv timers next_id api_calls effects map].
    by rewrite <- app_assoc.
Qed.

Lemma toolBlockIds_spec toolDefinitions :
  forall cleanedName,
    snd (processToolDefinitions toolDefinitions) !! cleanedName
    = td_blockId <$> last (definitionsNamed cleanedName toolDefinitions).
Proof.
  intros cleanedName. unfold processToolDefinitions.
  rewrite processToolDefinitions_from_spec. cbn [snd].
  rewrite foldl_insert_last. by destruct (last _).
Qed.

(** [handleModelResponse] on an answer that asks for tools. *)
Lemma handleModelResponse_tool_use message params w :
  stop_reason message = tool_use ->
  handleModelResponse message params w
  = (Return tt,
     {| kv :=
          <[timerKey (tp_eventId params) :=
              {| kv_value := VTimerId (next_id w); kv_ttl := None |}]>
            (<[callKey (tp_eventId params) :=
                 {| kv_value := VCallState (suspendedState params message);
                    kv_ttl := None |}]> (kv w));
        timers := <[next_id w := tp_eventId params]> (timers w);
        next_id := S (next_id w);
        api_calls := api_calls w;
        effects :=
          effects w
          ++ UpdatePending (tp_pendingId params) (callingStatus params message)
             :: map (toolMessage params)
                    (List.filter is_tool_use (msg_content message)) |}).
Proof.
  intros Hstop. unfold handleModelResponse, callingStatus.
  pose proof (toolBlockIds_spec (toolDefinitions (tp_settings params)))
    as Hids.
  destruct (processToolDefinitions _) as [[tools toolNames] toolBlockIds].
  cbn [fst snd] in *. rewrite Hstop.
  set (toolCalls := List.filter is_tool_use (msg_content message)).
  rewrite bind_run. unfold events_updatePending, perform at 1.
  rewrite bind_run, forEach_perform_run. rewrite bind_run.
  unfold storeCallState, kv_set at 1.
  unfold setTimeoutTimer. rewrite bind_run. unfold timers_set, kv_set.
  cbn [issued kv timers next_id api_calls effects].
  rewrite <- app_assoc. cbn [app]. unfold suspendedState, toolMessage.
  fold toolCalls. do 3 f_equal. f_equal.
  apply map_ext. intros toolCall. by rewrite Hids.
Qed.



Lemma turnAttempted_issues params retryCount w :
  issues (fun e => match e with
                   | ApiCall _ => True
                   | UpdatePending pendingId _ =>
                       pendingId = tp_pendingId params
                   | _ => False
                   end)
         w (turnAttempted params retryCount w).
Proof.
  unfold turnAttempted. set (J := fun e : Effect => _).
  set (w0 := if (0 <? retryCount)%nat then _ else w).
  assert (H0 : issues J w w0).
  { unfold w0. destruct (0 <? retryCount)%nat; [|reflexivity].
    by apply (perform_issues J (UpdatePending _ _)). }
  etransitivity; [exact H0|].
  etransitivity;
    [apply (streamMessage_issues J (turnStreamParams params) Logic.I w0)|].
  apply (syncPendingEvents_issues J); done.
Qed.

(** X15. An answer that ends the turn without a text is not retried:
    [executeTurn] throws "Model did not respond with text" after this one
    request, whatever [maxRetries]; the store and the timers are as before,
    and nothing but the request and status updates has been issued, so the
    pending event is neither completed nor cancelled. *)
Theorem executeTurn_answer_without_text (params : TurnParams) (w : World)
        (answer : Message) :
  (0 < maxRetries (tp_settings params))%Q ->
  final (api (api_calls w)) = inr answer ->
  stop_reason answer = end_turn ->
  lastText answer = None ->
  exists w' es,
    executeTurn params w
    = (Throw {| message := js "Model did not respond with text" |}, w')
    /\ kv w' = kv w /\ timers w' = timers w
    /\ api_calls w' = S (api_calls w)
    /\ effects w' = effects w ++ es
    /\ Forall (fun e => match e with
                        | ApiCall _ | UpdatePending _ _ => True
                        | _ => False
                        end) es.
Proof.
  intros Hretries%attempts_pos Hfinal Hstop Htext. unfold executeTurn.
  destruct (attempts (maxRetries (tp_settings params))) as [|remaining];
    [lia|].
  rewrite (executeTurn_loop_success _ _ _ _ _ answer Hfinal).
  destruct (turnAttempted_spec params 0 w) as (Hkv & Htimers & _ & Hcalls & _).
  destruct (turnAttempted_issues params 0 w) as (es & Heffects & Hes).
  exists (turnAttempted params 0 w), es.
  split; [|repeat split; try done].
  - unfold handleModelResponse.
    destruct (processToolDefinitions _) as [[tools toolNames] toolBlockIds].
    by rewrite Hstop, Htext.
  - eapply Forall_impl; [exact Hes|]. by intros [].
Qed.

Lemma generateObject_settles finalText params inputTokens outputTokens w w' :
  generateObject finalText params inputTokens outputTokens w = (Return tt, w')
  -> (exists text object i o,
        last (effects w')
        = Some (Emit text object i o (op_pendingId params)
                     (op_parentEventId params)))
     \/ (exists reason,
           last (effects w')
           = Some (CancelPending (op_pendingId params) reason)).
Proof.
  unfold generateObject. intros Hrun.
  destruct (generateObject_loop_spec finalText params
              (attempts (op_maxRetries params))
              0 inputTokens outputTokens None w eq_refl)
    as (w1 & _ & _ & Hspec).
  destruct (first_valid params _) as [[j object]|].
  - destruct Hspec as (Hrun1 & _ & Hlast). rewrite Hrun1 in Hrun.
    injection Hrun as <-. left. eauto.
  - destruct Hspec as (Hrun1 & _ & Hlast). rewrite Hrun1 in Hrun.
    injection Hrun as _ <-. right. eauto.
Qed.

Lemma handleModelResponse_settles message params w w' :
  handleModelResponse message params w = (Return tt, w') -> settled params w'.
Proof.
  destruct (stop_reason message) as [| |reason] eqn:Hstop.
  - unfold handleModelResponse.
    destruct (processToolDefinitions _) as [[tools toolNames] toolBlockIds].
    rewrite Hstop. destruct (lastText message) as [text|]; [|done].
    destruct (schema (tp_settings params)) as [schema'|].
    + intros Hrun. apply generateObject_settles in Hrun.
      destruct Hrun as [Hemit|Hcancel]; [by left | right; by left].
    + unfold emitResult, perform. intros [= <-]. left.
      eexists _, _, _, _. cbn [issued effects]. apply last_snoc.
  - rewrite (handleModelResponse_tool_use message params w Hstop).
    intros [= <-]. right; right.
    exists (suspendedState params message), (next_id w). cbn [kv timers].
    rewrite lookup_insert_eq.
    rewrite lookup_insert_ne by (symmetry; apply callKey_not_timerKey).
    by rewrite !lookup_insert_eq.
  - rewrite (handleModelResponse_unexpected _ _ _ reason Hstop).
    intros [= <-]. right; left. eexists. cbn. apply last_snoc.
Qed.

Lemma executeTurn_loop_returns params remaining retryCount lastError w w' :
  executeTurn_loop params remaining retryCount lastError w = (Return tt, w') ->
  exists message w1,
    handleModelResponse message params w1 = (Return tt, w').
Proof.
  revert retryCount lastError w.
  induction remaining as [|remaining IH]; intros retryCount lastError w;
    cbn [executeTurn_loop]; [by rewrite executeTurn_failed_run|].
  rewrite try_catch_run, turn_attempt_run.
  destruct (final (api (api_calls w))) as [e|message]; [|eauto].
  destruct (_ || _); [by rewrite executeTurn_failed_run|].
  rewrite bind_run. unfold sleep, perform at 1. apply IH.
Qed.

(** X16. When [executeTurn] returns, its pending event is settled: the
    last effect is an emit that completes it or a cancellation of it, or the
    call state of the next turn is stored with a timeout scheduled for the
    event. *)
Theorem executeTurn_settles (params : TurnParams) (w w' : World) :
  executeTurn params w = (Return tt, w') -> settled params w'.
Proof.
  intros Hrun. apply executeTurn_loop_returns in Hrun as (message & w1 & Hrun).
  by apply handleModelResponse_settles in Hrun.
Qed.

Lemma issues_without_sleep w w' :
  issues (fun e => match e with Sleep _ => False | _ => True end) w w' ->
  sleeps (effects w') = sleeps (effects w).
Proof.
  intros (es & -> & Hes). rewrite sleeps_app.
  assert (sleeps es = []) as ->; [|apply app_nil_r].
  induction Hes as [|e es He Hes IH]; [done|]. by destruct e.
Qed.

Lemma generateObject_calls finalText params inputTokens outputTokens w :
  let w' := snd (generateObject finalText params inputTokens outputTokens w) in
  (api_calls w <= api_calls w'
   <= api_calls w + attempts (op_maxRetries params))%nat.
Proof.
  unfold generateObject.
  destruct (generateObject_loop_spec finalText params
              (attempts (op_maxRetries params))
              0 inputTokens outputTokens None w eq_refl)
    as (w1 & _ & _ & Hspec).
  destruct (first_valid params _) as [[j object]|] eqn:Hvalid.
  - apply first_valid_lt in Hvalid. rewrite length_next_outcomes in Hvalid.
    destruct Hspec as (-> & Hcalls & _). simpl. lia.
  - destruct Hspec as (-> & Hcalls & _). simpl. lia.
Qed.

Lemma handleModelResponse_calls message params w :
  let w' := snd (handleModelResponse message params w) in
  (api_calls w <= api_calls w'
   <= api_calls w + objectRetries (tp_settings params))%nat
  /\ sleeps (effects w') = sleeps (effects w).
Proof.
  split.
  - destruct (stop_reason message) as [| |reason] eqn:Hstop.
    + unfold handleModelResponse, objectRetries.
      destruct (processToolDefinitions _) as [[tools toolNames] toolBlockIds].
      rewrite Hstop. destruct (lastText message) as [text|]; [|simpl; lia].
      destruct (schema (tp_settings params)) as [schema'|]; [|simpl; lia].
      apply (generateObject_calls text (objectParamsOf params schema' message)).
    + rewrite (handleModelResponse_tool_use message params w Hstop).
      simpl. lia.
    + rewrite (handleModelResponse_unexpected _ _ _ reason Hstop). simpl. lia.
  - apply issues_without_sleep. by apply handleModelResponse_issues.
Qed.

Lemma executeTurn_loop_bounded params remaining :
  forall retryCount lastError w,
    (retryCount + remaining = attempts (maxRetries (tp_settings params)))%nat ->
    let w' := snd (executeTurn_loop params remaining retryCount lastError w) in
    (api_calls w <= api_calls w'
     <= api_calls w + remaining + objectRetries (tp_settings params))%nat
    /\ exists delays,
         sleeps (effects w') = sleeps (effects w) ++ delays
         /\ (length delays <= remaining - 1)%nat
         /\ Forall (fun ms => ms <= 10000) delays.
Proof.
  induction remaining as [|remaining IH]; intros retryCount lastError w Hcount;
    cbn [executeTurn_loop].
  - rewrite executeTurn_failed_run. cbn [snd].
    destruct (turnFailed_spec params lastError w) as (_ & _ & -> & -> & _).
    split; [lia|]. exists []. by rewrite app_nil_r.
  - rewrite try_catch_run, turn_attempt_run.
    destruct (turnAttempted_spec params retryCount w)
      as (_ & _ & _ & Hcalls & Hsleeps).
    set (w1 := turnAttempted params retryCount w) in *.
    destruct (final (api (api_calls w))) as [e|message].
    + rewrite ge_of_nat.
      destruct (negb (isRetryable e)
                || (attempts (maxRetries (tp_settings params))
                    <=? S retryCount)%nat)
        eqn:Hfatal.
      * rewrite executeTurn_failed_run. cbn [snd].
        destruct (turnFailed_spec params (Some e) w1) as (_ & _ & -> & -> & _).
        split; [lia|]. exists []. rewrite app_nil_r.
        split; [done|]. split; [simpl; lia | done].
      * apply orb_false_iff in Hfatal as [_ Hmore].
        apply Nat.leb_gt in Hmore.
        rewrite bind_run. unfold sleep, perform. cbv beta iota.
        set (w2 := issued _ w1).
        destruct (IH (S retryCount) (Some e) w2 ltac:(lia))
          as (Hbound & delays & Hdelays & Hlen & Hall).
        assert (Hcalls2 : api_calls w2 = S (api_calls w)) by done.
        split; [lia|].
        exists (backoffDelay (S retryCount) :: delays).
        split; [|split].
        -- rewrite Hdelays. unfold w2. cbn [issued effects].
           rewrite sleeps_app, Hsleeps. simpl. by rewrite <- app_assoc.
        -- simpl. lia.
        -- constructor; [apply N.le_min_r | done].
    + destruct (handleModelResponse_calls message params w1)
        as (Hbound & Hquiet).
      split; [lia|]. exists []. rewrite app_nil_r.
      split; [congruence|]. split; [simpl; lia | done].
Qed.

(** X17. [executeTurn] sends at most [maxRetries] requests, rounded up to
    a whole number, for the turn and, when a schema is set, at most as many
    more for the object; it sleeps at most once less than that, 10 seconds
    at most each. With [maxRetries] at 1.5 that is two requests and a
    sleep. *)
Theorem executeTurn_bounded (params : TurnParams) (w : World) :
  let w' := snd (executeTurn params w) in
  let retries := attempts (maxRetries (tp_settings params)) in
  (api_calls w <= api_calls w'
   <= api_calls w + retries + objectRetries (tp_settings params))%nat
  /\ exists delays,
       sleeps (effects w') = sleeps (effects w) ++ delays
       /\ (length delays <= retries - 1)%nat
       /\ Forall (fun ms => ms <= 10000) delays.
Proof. by apply executeTurn_loop_bounded. Qed.

Lemma answered_blocks (toolCallIds : list jsstring)
      (toolResults : gmap jsstring jsstring) :
  Forall (fun id => is_Some (getProperty toolResults id)) toolCallIds ->
  Forall2 (fun id block =>
             exists result, getProperty toolResults id = Some result
                            /\ block = BToolResult id result)
          toolCallIds
          (omap (fun id => BToolResult id <$> getProperty toolResults id)
                toolCallIds).
Proof.
  induction 1 as [|id ids [result Hid] Hids IH]; [constructor|].
  simpl. rewrite Hid. simpl. constructor; [eauto | exact IH].
Qed.

(** X18. When [loadToolResults] has answered that all results are in,
    [continueTurn] with these results sets the status and runs the turn with
    one user message more, which holds one [tool_result] block per tool call
    identifier, in the order of the identifiers, each with what the
    aggregate reads for it. *)
Theorem continueTurn_answers_every_call (params : TurnParams)
        (eventId : jsstring) (turn : nat) (toolCallIds : list jsstring)
        (toolResults : gmap jsstring jsstring) (w0 w : World) :
  fst (loadToolResults eventId turn toolCallIds w0)
  = Return (true, toolResults) ->
  exists blocks,
    continueTurn params toolCallIds toolResults w
    = executeTurn
        (withMessage params {| role := user; content := CBlocks blocks |})
        (issued (UpdatePending (tp_pendingId params)
                   (resultsStatus toolCallIds)) w)
    /\ Forall2 (fun id block =>
                  exists result, getProperty toolResults id = Some result
                                 /\ block = BToolResult id result)
               toolCallIds blocks.
Proof.
  rewrite loadToolResults_run. cbn [fst]. intros [= Hall <-].
  eexists. split; [reflexivity|]. apply answered_blocks.
  apply Forall_forall. intros id Hid.
  rewrite forallb_forall in Hall.
  specialize (Hall id (proj1 (list_elem_of_In _ _) Hid)).
  by apply bool_decide_eq_true in Hall.
Qed.

(** ** The handlers *)

Lemma events_createPending_run status w :
  exists pendingId w1,
    events_createPending status w = (Return pendingId, w1)
    /\ effects w1 = effects w ++ [CreatePending pendingId status]
    /\ kv w1 = kv w /\ timers w1 = timers w /\ api_calls w1 = api_calls w.
Proof. by eexists _, _. Qed.

(** X19. [onEvent] throws what [validateConfig] throws, with no effect.
    On a valid configuration its first effect creates the pending event, and
    every later effect is one of the turn it starts for it; a request with
    thinking has a budget that is not zero and is below its maximum of
    tokens. *)
Theorem onEvent_creates_one_pending_event (input : EventInput) (w : World) :
  match validateConfig (ev_appConfig input) (ev_inputConfig input) with
  | inl e => onEvent input w = (Throw e, w)
  | inr (apiKey, _, settings) =>
      exists pendingId es,
        effects (snd (onEvent input w))
        = effects w
          ++ CreatePending pendingId (js "Calling Anthropic model...") :: es
        /\ Forall (turnEffect (startedTurn input pendingId apiKey settings)) es
        /\ Forall (fun e =>
                     match e with
                     | ApiCall request =>
                         forall budget,
                           req_thinking request = Some budget ->
                           ~ (budget == 0)%Q
                           /\ (budget < req_max_tokens request)%Q
                     | _ => True
                     end) es
  end.
Proof.
  unfold onEvent.
  destruct (validateConfig _ _) as [e|[[apiKey prompt] settings]] eqn:Hvalid;
    [done|].
  assert (Hbudget : forall budget,
            thinking settings = Some true ->
            thinkingBudget settings = Some budget ->
            (budget < maxTokens settings)%Q).
  { unfold validateConfig in Hvalid.
    destruct (negb _); [done|]. destruct (negb _); [done|].
    destruct (match ic_thinking _ with Some true => _ | _ => _ end) eqn:Hcheck;
      [done|].
    injection Hvalid as _ _ <-. simpl. intros budget Hthinking Hb.
    rewrite Hthinking, Hb in Hcheck. by apply thinking_check in Hcheck as [_ ?]. }
  assert (Hprompt : prompt = ic_prompt (ev_inputConfig input)).
  { unfold validateConfig in Hvalid.
    destruct (negb _); [done|]. destruct (negb _); [done|].
    destruct (match ic_thinking _ with Some true => _ | _ => _ end); [done|].
    by injection Hvalid as _ <- _. }
  subst prompt. rewrite bind_run.
  destruct (events_createPending_run (js "Calling Anthropic model...") w)
    as (pendingId & w1 & -> & Heffects & _).
  fold (startedTurn input pendingId apiKey settings).
  destruct (executeTurn_issues (startedTurn input pendingId apiKey settings) w1)
    as (es & Hes & Hall).
  exists pendingId, es. rewrite Hes, Heffects, <- app_assoc.
  split; [done|]. split; [done|].
  eapply Forall_impl; [exact Hall|]. intros [] He; try done.
  destruct He as (_ & _ & Hmax & _ & _ & _ & _ & Hthinking).
  intros budget Hb. destruct (Hthinking budget Hb) as (Hon & Hset & Hpos).
  rewrite Hmax. split; [done|]. by apply Hbudget.
Qed.

Lemma onInternalMessage_same_on (K : jsstring -> Prop) input :
  ~ K (callKey (mi_eventId input)) -> ~ K (timerKey (mi_eventId input)) ->
  (forall turn,
     ~ K (resultKey (mi_eventId input) turn (mi_toolCallId input))) ->
  preserves (kv_same_on K) (onInternalMessage input).
Proof.
  intros Hcall Htimer Hresult.
  unfold onInternalMessage, isTimerLocked, loadCallState, storeToolResult,
    loadToolResults.
  repeat first [ apply kv_set_same_on; apply Hresult
               | apply clearTimeoutTimer_same_on
               | apply setTimeoutTimer_same_on; assumption
               | apply continueTurn_same_on; assumption
               | apply kv_get_same_on
               | apply kv_list_same_on
               | split_step ].
Qed.

(** X20. A handler writes the entries of its own event only: [onEvent]
    leaves every key but the call state and the timeout handle of its event
    as it is, [onTimer] every key but these and the lock of its event,
    [onInternalMessage] every key but these and the keys of results of its
    tool call for its event. *)
Theorem handlers_keep_other_entries (key : jsstring) (w : World) :
  (forall input,
     key <> callKey (ev_id input) -> key <> timerKey (ev_id input) ->
     kv (snd (onEvent input w)) !! key = kv w !! key)
  /\ (forall input,
        key <> callKey (ti_eventId input) ->
        key <> timerKey (ti_eventId input) ->
        key <> lockKey (ti_eventId input) ->
        kv (snd (onTimer input w)) !! key = kv w !! key)
  /\ (forall input,
        key <> callKey (mi_eventId input) ->
        key <> timerKey (mi_eventId input) ->
        (forall turn,
           key <> resultKey (mi_eventId input) turn (mi_toolCallId input)) ->
        kv (snd (onInternalMessage input w)) !! key = kv w !! key).
Proof.
  split; [|split].
  - intros input Hcall Htimer.
    apply (onEvent_same_on (fun k => k = key) input); try done;
      by intros <-.
  - intros input Hcall Htimer Hlock.
    apply (onTimer_same_on (fun k => k = key) input); try done;
      by intros <-.
  - intros input Hcall Htimer Hresult.
    apply (onInternalMessage_same_on (fun k => k = key) input); try done;
      first [by intros <- | intros turn <-; by apply (Hresult turn)].
Qed.

Lemma awaited_not_collected eventId turn toolCallId w :
  awaited eventId turn toolCallId w ->
  collectResults (pairsWithPrefix (resultPrefix eventId turn) (kv w))
  !! toolCallId = None.
Proof.
  intros Hawaited.
  destruct (collectResults _ !! toolCallId) as [result|] eqn:E; [|done].
  apply collectResults_Some in E as [k Hin].
  apply elem_of_pairsWithPrefix in Hin as [Hk [ttl Hs]].
  by rewrite (Hawaited _ _ _ Hs) in Hk.
Qed.

Lemma awaited_incomplete eventId turn toolCallId toolCallIds w :
  In toolCallId toolCallIds -> toolCallId ∉ objectPrototype ->
  awaited eventId turn toolCallId w ->
  forallb
    (hasResult
       (collectResults (pairsWithPrefix (resultPrefix eventId turn) (kv w))))
    toolCallIds = false.
Proof.
  intros Hin Hown Hawaited. apply not_true_is_false. intros Hall.
  rewrite forallb_forall in Hall. specialize (Hall _ Hin).
  apply bool_decide_eq_true in Hall.
  rewrite getProperty_own in Hall by done.
  rewrite (awaited_not_collected _ _ _ _ Hawaited) in Hall.
  by destruct Hall.
Qed.

(** X21. When the timer of an event fires while a tool call of the stored
    call state has no result listed (and its identifier is no name that every
    object inherits, which would read as a result), [onTimer] cancels the
    pending event with the reason "Timeout" and returns: no request is sent,
    the lock is released, and the call state, the results and the timers
    stay as they are. *)
Theorem onTimer_times_out (input : TimerInput) (state : CallState)
        (toolCallId : jsstring) (w : World) :
  kv_value <$> kv w !! callKey (ti_eventId input) = Some (VCallState state) ->
  In toolCallId (cs_toolCallIds state) ->
  toolCallId ∉ objectPrototype ->
  awaited (ti_eventId input) (cs_turn state) toolCallId w ->
  exists w',
    onTimer input w = (Return tt, w')
    /\ effects w'
       = effects w ++ [CancelPending (cs_pendingId state) (js "Timeout")]
    /\ kv w' = delete (lockKey (ti_eventId input)) (kv w)
    /\ timers w' = timers w
    /\ api_calls w' = api_calls w.
Proof.
  intros Hstate Hin Hown Hawaited. unfold onTimer.
  set (eventId := ti_eventId input) in *.
  rewrite bind_run. unfold setTimerLock at 1, kv_set at 1.
  set (w1 := {| kv := _ |}).
  assert (Hstate1 : kv_value <$> kv w1 !! callKey eventId
                    = Some (VCallState state)).
  { unfold w1. cbn [kv].
    by rewrite lookup_insert_ne by apply lockKey_not_callKey. }
  assert (Hawaited1 : awaited eventId (cs_turn state) toolCallId w1).
  { intros key result ttl. unfold w1. cbn [kv].
    destruct (decide (key = lockKey eventId)) as [->|Hne].
    - by rewrite lookup_insert_eq.
    - rewrite lookup_insert_ne by done. apply Hawaited. }
  rewrite bind_run, loadCallState_run, Hstate1.
  rewrite bind_run, loadToolResults_run.
  rewrite (awaited_incomplete _ _ _ _ _ Hin Hown Hawaited1). cbn [negb].
  eexists. split; [reflexivity|]. cbn.
  repeat split. apply delete_insert_eq.
Qed.

(** X22. A result that comes in for an event with no lock and no call
    state is not stored: [onInternalMessage] throws "Call state not found"
    and leaves the world as it is. *)
Theorem onInternalMessage_without_call_state (input : MessageInput)
        (w : World) :
  kv w !! lockKey (mi_eventId input) = None ->
  kv w !! callKey (mi_eventId input) = None ->
  onInternalMessage input w
  = (Throw {| message := js "Call state not found" |}, w).
Proof.
  intros Hlock Hstate. unfold onInternalMessage, isTimerLocked.
  rewrite !bind_run. unfold kv_get at 1. rewrite Hlock.
  cbn [fmap option_fmap option_map ret bool_decide].
  rewrite bool_decide_eq_false_2 by (by intros [? ?]).
  rewrite bind_run, loadCallState_run. by rewrite Hstate.
Qed.

Lemma clearTimeoutTimer_effects eventId w :
  effects (snd (clearTimeoutTimer eventId w)) = effects w.
Proof.
  unfold clearTimeoutTimer, kv_get. rewrite bind_run. cbn [fst snd].
  by destruct (kv_value <$> kv w !! timerKey eventId) as [[]|].
Qed.

Lemma clearTimeoutTimer_next_id eventId w :
  next_id (snd (clearTimeoutTimer eventId w)) = next_id w.
Proof.
  unfold clearTimeoutTimer, kv_get. rewrite bind_run. cbn [fst snd].
  by destruct (kv_value <$> kv w !! timerKey eventId) as [[]|].
Qed.

Lemma awaited_delivered input state toolCallId w :
  toolCallId <> mi_toolCallId input ->
  awaited (mi_eventId input) (cs_turn state) toolCallId w ->
  awaited (mi_eventId input) (cs_turn state) toolCallId
          (delivered input state w).
Proof.
  intros Hother Hawaited key result ttl. rewrite delivered_kv.
  destruct (decide (key = resultKey (mi_eventId input) (cs_turn state)
                                    (mi_toolCallId input))) as [->|Hne].
  - rewrite lookup_insert_eq. intros [= Heq _ _]. by destruct Hother.
  - rewrite lookup_insert_ne by done. apply Hawaited.
Qed.

(** X23. While another tool call of the call state has no result listed
    (and its identifier is no name that every object inherits, which would
    read as a result), [onInternalMessage] stores the result under the turn
    of the call state with 300 seconds to live, unsets the timeout of the
    event and schedules a new one whose handle it stores, issues no effect
    and sends no request. *)
Theorem onInternalMessage_waits_for_the_rest (input : MessageInput)
        (state : CallState) (toolCallId : jsstring) (w : World) :
  kv w !! lockKey (mi_eventId input) = None ->
  kv_value <$> kv w !! callKey (mi_eventId input) = Some (VCallState state) ->
  In toolCallId (cs_toolCallIds state) ->
  toolCallId <> mi_toolCallId input ->
  toolCallId ∉ objectPrototype ->
  awaited (mi_eventId input) (cs_turn state) toolCallId w ->
  exists w',
    onInternalMessage input w = (Return tt, w')
    /\ kv w'
       = <[timerKey (mi_eventId input) :=
             {| kv_value := VTimerId (next_id w); kv_ttl := None |}]>
           (<[resultKey (mi_eventId input) (cs_turn state)
                        (mi_toolCallId input) :=
                {| kv_value :=
                     VToolResult (mi_toolCallId input) (mi_result input);
                   kv_ttl := Some 300%nat |}]> (kv w))
    /\ timers w'
       = <[next_id w := mi_eventId input]>
           (timers (snd (clearTimeoutTimer (mi_eventId input) w)))
    /\ effects w' = effects w
    /\ api_calls w' = api_calls w.
Proof.
  intros Hlock Hstate Hin Hother Hown Hawaited.
  rewrite (onInternalMessage_run input state w Hlock Hstate). cbv zeta.
  rewrite (awaited_incomplete _ _ _ _ _ Hin Hown
             (awaited_delivered input state toolCallId w Hother Hawaited)).
  assert (Hnext : next_id (delivered input state w) = next_id w).
  { unfold delivered, storeToolResult, kv_set. cbn [snd next_id].
    apply clearTimeoutTimer_next_id. }
  set (w0 := delivered input state w) in *.
  exists {| kv := <[timerKey (mi_eventId input) :=
                     {| kv_value := VTimerId (next_id w0); kv_ttl := None |}]>
                  (kv w0);
            timers := <[next_id w0 := mi_eventId input]> (timers w0);
            next_id := S (next_id w0); api_calls := api_calls w0;
            effects := effects w0 |}.
  split; [reflexivity|]. cbn [kv timers effects api_calls].
  rewrite Hnext. unfold w0. rewrite delivered_kv.
  split; [done|]. split; [done|].
  split; [cbn; apply clearTimeoutTimer_effects | apply delivered_api_calls].
Qed.

End FurtherProperties.

(** ** The tool block *)

Section ToolBlock.
Context `{ToolDefinitionBlock.Crypto}.
Import ToolDefinitionBlock.

Lemma tool_onEvent_stored input executionKey entry w :
  ri_echo input = Some executionKey ->
  tool_kv w !! executionKey = Some entry ->
  ToolDefinitionBlock.onEvent input w
  = (Return tt,
     {| tool_kv := tool_kv w; uuids_drawn := uuids_drawn w;
        tool_effects :=
          tool_effects w
          ++ [SendResult (resultText (ri_result input))
                (ex_eventId (ex_value entry)) (ex_toolCallId (ex_value entry))
                [ex_blockId (ex_value entry)];
              EmitResult (resultText (ri_result input))] |}).
Proof.
  intros Hecho Hstored. unfold ToolDefinitionBlock.onEvent.
  by rewrite Hecho, Hstored.
Qed.

Lemma tool_result_returns_to_caller_run (body : CallBody)
      (value : ResultValue) (w : ToolWorld) :
  let w1 := snd (ToolDefinitionBlock.onInternalMessage body w) in
  exists executionKey,
    ToolDefinitionBlock.onEvent
      {| ri_result := value; ri_echo := Some executionKey |} w1
    = (Return tt,
       {| tool_kv := tool_kv w1; uuids_drawn := uuids_drawn w1;
          tool_effects :=
            tool_effects w1
            ++ [SendResult (resultText value) (cb_eventId body)
                  (cb_toolCallId body) [cb_blockId body];
                EmitResult (resultText value)] |}).
Proof.
  intros w1. exists (executionKeyOf (randomUUID (uuids_drawn w))).
  assert (Hstored : tool_kv w1 !! executionKeyOf (randomUUID (uuids_drawn w))
                    = Some {| ex_value :=
                                {| ex_eventId := cb_eventId body;
                                   ex_toolCallId := cb_toolCallId body;
                                   ex_blockId := cb_blockId body |};
                              ex_ttl := Some 3600%nat |}).
  { unfold w1, ToolDefinitionBlock.onInternalMessage. cbn [snd tool_kv].
    apply lookup_insert_eq. }
  by rewrite (tool_onEvent_stored
                {| ri_result := value;
                   ri_echo := Some (executionKeyOf
                                      (randomUUID (uuids_drawn w))) |}
                _ _ w1 eq_refl Hstored).
Qed.

(** X24. A call that comes in at a tool block is emitted under an
    execution key, and a result processed for the echo of that key is sent
    to the block that called, with the event and the tool call identifier of
    the call, and emitted. The execution is kept. *)
Theorem tool_result_returns_to_caller (body : CallBody) (value : ResultValue)
        (w : ToolWorld) :
  let w1 := snd (ToolDefinitionBlock.onInternalMessage body w) in
  exists executionKey,
    tool_effects w1
    = tool_effects w
      ++ [EmitCall executionKey (cb_parameters body) (cb_eventId body)]
    /\ ToolDefinitionBlock.onEvent
         {| ri_result := value; ri_echo := Some executionKey |} w1
       = (Return tt,
          {| tool_kv := tool_kv w1; uuids_drawn := uuids_drawn w1;
             tool_effects :=
               tool_effects w1
               ++ [SendResult (resultText value) (cb_eventId body)
                     (cb_toolCallId body) [cb_blockId body];
                   EmitResult (resultText value)] |}).
Proof.
  intros w1. exists (executionKeyOf (randomUUID (uuids_drawn w))).
  split; [done|].
  assert (Hstored : tool_kv w1 !! executionKeyOf (randomUUID (uuids_drawn w))
                    = Some {| ex_value :=
                                {| ex_eventId := cb_eventId body;
                                   ex_toolCallId := cb_toolCallId body;
                                   ex_blockId := cb_blockId body |};
                              ex_ttl := Some 3600%nat |}).
  { unfold w1, ToolDefinitionBlock.onInternalMessage. cbn [snd tool_kv].
    apply lookup_insert_eq. }
  by rewrite (tool_onEvent_stored
                {| ri_result := value;
                   ri_echo := Some (executionKeyOf
                                      (randomUUID (uuids_drawn w))) |}
                _ _ w1 eq_refl Hstored).
Qed.

(** X25. [processResult] throws "This block should not be called
    directly" for an event that is no echo, and drops the result of an echo
    whose execution key is not stored: it returns with no effect. *)
Theorem processResult_without_execution (input : ResultInput) (w : ToolWorld) :
  (ri_echo input = None ->
   ToolDefinitionBlock.onEvent input w
   = (Throw {| message := js "This block should not be called directly" |},
      w))
  /\ (forall executionKey,
        ri_echo input = Some executionKey ->
        tool_kv w !! executionKey = None ->
        ToolDefinitionBlock.onEvent input w = (Return tt, w)).
Proof.
  unfold ToolDefinitionBlock.onEvent. split.
  - by intros ->.
  - intros executionKey -> Hnone. by rewrite Hnone.
Qed.

Lemma executionKeyOf_inj executionId executionId' :
  executionKeyOf executionId = executionKeyOf executionId' ->
  executionId = executionId'.
Proof.
  unfold executionKeyOf, template. cbn [concat]. rewrite !app_nil_r.
  apply app_inv_head.
Qed.

Lemma afterCalls_cons body bodies w :
  afterCalls (body :: bodies) w
  = afterCalls bodies (snd (ToolDefinitionBlock.onInternalMessage body w)).
Proof. reflexivity. Qed.

Lemma afterCalls_keeps bodies :
  forall w executionId,
    (forall k, (k < length bodies)%nat ->
               randomUUID (uuids_drawn w + k) <> executionId) ->
    tool_kv (afterCalls bodies w) !! executionKeyOf executionId
    = tool_kv w !! executionKeyOf executionId.
Proof.
  induction bodies as [|body bodies IH]; intros w executionId Hfresh; [done|].
  rewrite afterCalls_cons, IH.
  - unfold ToolDefinitionBlock.onInternalMessage. cbn [snd tool_kv].
    apply lookup_insert_ne. intros E. apply executionKeyOf_inj in E.
    apply (Hfresh 0%nat); [simpl; lia|]. by rewrite Nat.add_0_r.
  - intros k Hk. unfold ToolDefinitionBlock.onInternalMessage.
    cbn [snd uuids_drawn].
    replace (S (uuids_drawn w) + k)%nat with (uuids_drawn w + S k)%nat by lia.
    apply Hfresh. simpl. lia.
Qed.

(** X26. Calls that come in later do not disturb an execution, as long as
    their UUIDs differ from its own: its result still goes to the block that
    called, with the identifiers of its call. *)
Theorem earlier_execution_is_kept (body : CallBody) (bodies : list CallBody)
        (value : ResultValue) (w : ToolWorld) :
  (forall k, (0 < k <= length bodies)%nat ->
             randomUUID (uuids_drawn w + k) <> randomUUID (uuids_drawn w)) ->
  let executionKey := executionKeyOf (randomUUID (uuids_drawn w)) in
  let w' :=
    afterCalls bodies (snd (ToolDefinitionBlock.onInternalMessage body w)) in
  exists w'',
    ToolDefinitionBlock.onEvent
      {| ri_result := value; ri_echo := Some executionKey |} w'
    = (Return tt, w'')
    /\ tool_effects w''
       = tool_effects w'
         ++ [SendResult (resultText value) (cb_eventId body)
               (cb_toolCallId body) [cb_blockId body];
             EmitResult (resultText value)].
Proof.
  intros Hfresh executionKey w'.
  assert (Hstored : tool_kv w' !! executionKey
                    = Some {| ex_value :=
                                {| ex_eventId := cb_eventId body;
                                   ex_toolCallId := cb_toolCallId body;
                                   ex_blockId := cb_blockId body |};
                              ex_ttl := Some 3600%nat |}).
  { unfold w', executionKey. rewrite afterCalls_keeps.
    - unfold ToolDefinitionBlock.onInternalMessage. cbn [snd tool_kv].
      apply lookup_insert_eq.
    - intros k Hk. unfold ToolDefinitionBlock.onInternalMessage.
      cbn [snd uuids_drawn].
      replace (S (uuids_drawn w) + k)%nat with (uuids_drawn w + S k)%nat
        by lia.
      apply Hfresh. lia. }
  eexists. split.
  - by rewrite (tool_onEvent_stored
                  {| ri_result := value; ri_echo := Some executionKey |}
                  _ _ w' eq_refl Hstored).
  - done.
Qed.

End ToolBlock.

(** ** From the model to the tool and back *)

Section EndToEnd.
Context `{Host} `{ToolDefinitionBlock.Crypto}.

(** X27. From the model to the tool and back: the message
    [handleModelResponse] sends for a tool call, taken in by a tool block
    and answered through [processResult], comes back to the block of the
    turn with the event and the identifier of the call; that identifier is
    one the stored call state waits for, and [onInternalMessage] stores the
    result for it under the turn of that call state. *)
Theorem tool_call_is_answered_where_it_is_awaited
        (answer : Message) (params : TurnParams) (toolCall : Block)
        (value : ToolDefinitionBlock.ResultValue) (apiKey : jsstring)
        (w : World) (tw : ToolDefinitionBlock.ToolWorld) :
  stop_reason answer = tool_use ->
  In toolCall (List.filter is_tool_use (msg_content answer)) ->
  kv w !! lockKey (tp_eventId params) = None ->
  let w1 := snd (handleModelResponse answer params w) in
  let result := ToolDefinitionBlock.resultText value in
  exists body executionKey sent input,
    In (toolMessage params toolCall) (effects w1)
    /\ callBodyOf (toolMessage params toolCall) = Some body
    /\ (let tw1 := snd (ToolDefinitionBlock.onInternalMessage body tw) in
        ToolDefinitionBlock.tool_effects
          (snd (ToolDefinitionBlock.onEvent
                  {| ToolDefinitionBlock.ri_result := value;
                     ToolDefinitionBlock.ri_echo := Some executionKey |} tw1))
        = ToolDefinitionBlock.tool_effects tw1
          ++ [sent; ToolDefinitionBlock.EmitResult result])
    /\ sent
       = ToolDefinitionBlock.SendResult result (tp_eventId params)
           (block_id toolCall) [tp_blockId params]
    /\ deliveryOf sent apiKey (tp_blockId params) = Some input
    /\ In (mi_toolCallId input) (cs_toolCallIds (suspendedState params answer))
    /\ stored_fragment (tp_eventId params) (tp_turn params + 1)
         (block_id toolCall) result (snd (onInternalMessage input w1)).
Proof.
  intros Hstop Hin Hlock w1 result.
  pose proof (handleModelResponse_tool_use answer params w Hstop) as Hrun.
  set (status := callingStatus params answer) in Hrun.
  assert (Hkv1 : kv w1
                 = <[timerKey (tp_eventId params) :=
                       {| kv_value := VTimerId (next_id w); kv_ttl := None |}]>
                     (<[callKey (tp_eventId params) :=
                          {| kv_value :=
                               VCallState (suspendedState params answer);
                             kv_ttl := None |}]> (kv w)))
    by (unfold w1; by rewrite Hrun).
  assert (Heffects1 : effects w1
                      = effects w
                        ++ UpdatePending (tp_pendingId params) status
                           :: map (toolMessage params)
                                  (List.filter is_tool_use (msg_content answer)))
    by (unfold w1; by rewrite Hrun).
  clearbody w1.
  set (body := {| ToolDefinitionBlock.cb_eventId := tp_eventId params;
                  ToolDefinitionBlock.cb_toolCallId := block_id toolCall;
                  ToolDefinitionBlock.cb_parameters := block_input toolCall;
                  ToolDefinitionBlock.cb_blockId := tp_blockId params |}).
  set (input := {| mi_result := result; mi_eventId := tp_eventId params;
                   mi_toolCallId := block_id toolCall; mi_apiKey := apiKey;
                   mi_blockId := tp_blockId params |}).
  destruct (tool_result_returns_to_caller_run body value tw)
    as (executionKey & Hanswer).
  exists body, executionKey,
    (ToolDefinitionBlock.SendResult result (tp_eventId params)
       (block_id toolCall) [tp_blockId params]), input.
  split; [|split; [done|]; split; [|split; [done|]; split; [done|]; split]].
  - rewrite Heffects1. apply in_or_app. right. right. by apply in_map.
  - cbv zeta. by rewrite Hanswer.
  - cbn [suspendedState cs_toolCallIds mi_toolCallId input]. by apply in_map.
  - assert (Hlock1 : kv w1 !! lockKey (mi_eventId input) = None).
    { rewrite Hkv1. cbn [mi_eventId input].
      rewrite lookup_insert_ne by (symmetry; apply lockKey_not_timerKey).
      by rewrite lookup_insert_ne by (symmetry; apply lockKey_not_callKey). }
    assert (Hstate1 : kv_value <$> kv w1 !! callKey (mi_eventId input)
                      = Some (VCallState (suspendedState params answer))).
    { rewrite Hkv1. cbn [mi_eventId input].
      rewrite lookup_insert_ne by (symmetry; apply callKey_not_timerKey).
      by rewrite lookup_insert_eq. }
    rewrite (onInternalMessage_run input _ w1 Hlock1 Hstate1). cbv zeta.
    exists (Some 300%nat).
    set (key := resultKey (tp_eventId params) (tp_turn params + 1)
                          (block_id toolCall)).
    rewrite (resumption_same_on (fun k => k = key) input
               (suspendedState params answer) _ _ _); try done.
    rewrite delivered_kv. apply lookup_insert_eq.
Qed.

End EndToEnd.


(** ** The remote MCP server and the app *)

Section McpServer.
Context `{RemoteMcpServer.Network}.
Import RemoteMcpServer.

Lemma find_missing_None (toolNames allowed : list jsstring) :
  List.find (fun toolName => negb (bool_decide (toolName ∈ toolNames))) allowed
  = None
  <-> Forall (fun toolName => toolName ∈ toolNames) allowed.
Proof.
  induction allowed as [|toolName allowed IH]; [done|]. simpl.
  destruct (bool_decide_reflect (toolName ∈ toolNames)) as [Hin|Hout]; simpl.
  - rewrite IH. split; [by constructor | by inversion 1].
  - split; [done | by inversion 1].
Qed.

Lemma find_missing_Some (toolNames allowed : list jsstring) toolName :
  List.find (fun toolName => negb (bool_decide (toolName ∈ toolNames))) allowed
  = Some toolName ->
  exists earlier later,
    allowed = earlier ++ toolName :: later
    /\ Forall (fun toolName => toolName ∈ toolNames) earlier
    /\ toolName ∉ toolNames.
Proof.
  induction allowed as [|first allowed IH]; [done|]. simpl.
  destruct (bool_decide_reflect (first ∈ toolNames)) as [Hin|Hout]; simpl.
  - intros Hfind. destruct (IH Hfind) as (earlier & later & -> & Hall & Hout).
    exists (first :: earlier), later. split; [done|].
    split; [by constructor | done].
  - intros [= <-]. by exists [], allowed.
Qed.

(** X28. [onSync] of a remote MCP server answers [ready] exactly when the
    URL parses, the client connects (over streamable HTTP, over SSE only
    when that connection fails), the tools are listed over this connection
    and every allowed tool is among them; it then signals the definition as
    configured and the tools listed. *)
Theorem remoteMcpServer_ready_iff (input : McpSyncInput)
        (definition : MCPServer) (availableTools : list McpTool) :
  RemoteMcpServer.onSync input = Ready definition availableTools
  <-> parses (ms_url input) = true
      /\ (exists transport,
            listTools transport (ms_url input) = Some availableTools
            /\ (transport = StreamableHTTP
                /\ connects StreamableHTTP (ms_url input) = true
                \/ transport = SSE
                   /\ connects StreamableHTTP (ms_url input) = false
                   /\ connects SSE (ms_url input) = true))
      /\ Forall (fun toolName => toolName ∈ map mt_name availableTools)
                (default [] (ms_allowedTools input))
      /\ definition
         = {| mcp_name := ms_name input; mcp_url := ms_url input;
              mcp_authorizationToken := ms_authorizationToken input;
              mcp_allowedTools := ms_allowedTools input |}.
Proof.
  unfold RemoteMcpServer.onSync, connected.
  destruct (parses (ms_url input)); cbn [negb];
    [|split; [done | by intros [? _]]].
  split.
  - destruct (connects StreamableHTTP (ms_url input)) eqn:Hhttp.
    + destruct (listTools StreamableHTTP (ms_url input)) as [tools|] eqn:Hlist;
        [|done].
      destruct (List.find _ _) eqn:Hfind; [done|].
      intros [= <- <-]. apply find_missing_None in Hfind.
      split; [done|]. split; [|done]. exists StreamableHTTP. split; [done|].
      by left.
    + destruct (connects SSE (ms_url input)) eqn:Hsse; [|done].
      destruct (listTools SSE (ms_url input)) as [tools|] eqn:Hlist; [|done].
      destruct (List.find _ _) eqn:Hfind; [done|].
      intros [= <- <-]. apply find_missing_None in Hfind.
      split; [done|]. split; [|done]. exists SSE. split; [done|]. by right.
  - intros (_ & (transport & Hlist & Hconnected) & Hall & ->).
    apply find_missing_None in Hall.
    destruct Hconnected as [[-> Hhttp]|(-> & Hhttp & Hsse)].
    + rewrite Hhttp, Hlist. cbv zeta. by rewrite Hall.
    + rewrite Hhttp, Hsse, Hlist. cbv zeta. by rewrite Hall.
Qed.

(** X29. When [onSync] of a remote MCP server fails, it is with "Failed
    to connect" or with the first of the allowed tools that the server does
    not list, by its name. *)
Theorem remoteMcpServer_names_first_missing_tool (input : McpSyncInput)
        (description : jsstring) :
  RemoteMcpServer.onSync input = Failed description ->
  description = js "Failed to connect"
  \/ exists transport tools toolName earlier later,
       connected (ms_url input) = Some transport
       /\ listTools transport (ms_url input) = Some tools
       /\ default [] (ms_allowedTools input) = earlier ++ toolName :: later
       /\ Forall (fun name => name ∈ map mt_name tools) earlier
       /\ (toolName ∉ map mt_name tools)
       /\ description
          = template [js "Tool "; [34]; toolName; [34]; js " not found"].
Proof.
  unfold RemoteMcpServer.onSync.
  destruct (parses (ms_url input)); cbn [negb]; [|intros [= <-]; by left].
  destruct (connected (ms_url input)) as [transport|] eqn:Hconnected;
    [|intros [= <-]; by left].
  destruct (listTools transport (ms_url input)) as [tools|] eqn:Hlist;
    [|intros [= <-]; by left].
  cbv zeta. destruct (List.find _ _) as [toolName|] eqn:Hfind; [|done].
  intros [= <-]. right.
  destruct (find_missing_Some _ _ _ Hfind)
    as (earlier & later & Hsplit & Hall & Hout).
  by exists transport, tools, toolName, earlier, later.
Qed.

End McpServer.

Section AppSync.
Context `{App.TokenCounter}.
Import App.

(** X30. [onSync] of the app answers [ready] exactly when the API key is
    a string that is not empty and counting tokens with it answers a number
    above zero. It counts once, for the default model configured or for
    claude-3-5-sonnet-20241022, and not at all without a key. *)
Theorem app_onSync_ready_iff (config : AppConfig) :
  (fst (App.onSync config) = App.Ready
   <-> exists apiKey inputTokens,
         anthropicApiKey config = Some apiKey /\ apiKey <> []
         /\ countTokens apiKey (checkedModel config) = Some inputTokens
         /\ (0 < inputTokens)%Z)
  /\ snd (App.onSync config)
     = match anthropicApiKey config with
       | Some (c :: key) => [(c :: key, checkedModel config)]
       | _ => []
       end.
Proof.
  unfold App.onSync. split.
  - destruct (anthropicApiKey config) as [[|c key]|]; cbn [fst].
    + split; [done | by intros (? & ? & [= <-] & ? & _)].
    + destruct (countTokens (c :: key) (checkedModel config))
        as [inputTokens|] eqn:Hcount.
      * destruct (Z.leb_spec inputTokens 0) as [Hle|Hlt].
        -- split; [done|].
           intros (apiKey & n & [= <-] & _ & Hn & Hpos).
           rewrite Hcount in Hn. injection Hn as <-. lia.
        -- split; [|done]. intros _. by exists (c :: key), inputTokens.
      * split; [done|]. intros (apiKey & n & [= <-] & _ & Hn & _).
        by rewrite Hcount in Hn.
    + split; [done | by intros (? & ? & [=] & _)].
  - by destruct (anthropicApiKey config) as [[|c key]|].
Qed.

End AppSync.

(** * The further properties on the scenarios *)

(** The name [look-up_the_weather_v2] is clean, and kept. *)
Lemma cleanToolName_keeps_clean_name_witness :
  let H := scripted [] (failure "unused") in
  let name := js "look-up_the_weather_v2" in
  toLowerCase name = name /\ cleanToolName name = name.
Proof.
  intros H name.
  assert (Hlower : toLowerCase name = name) by (vm_compute; reflexivity).
  split; [exact Hlower|].
  apply (cleanToolName_keeps_clean_name name Hlower).
  - unfold name. cbv [js]. repeat constructor.
  - vm_compute. reflexivity.
  - intros c Hc. vm_compute in Hc. injection Hc as <-. reflexivity.
  - intros c Hc. vm_compute in Hc. injection Hc as <-. reflexivity.
  - vm_compute. lia.
Defined.

(** Without an API key the configuration is rejected for the key, whatever
    else it holds. *)
Lemma validateConfig_rejects_witness :
  let appConfig := ev_appConfig keylessEvent in
  let inputConfig := ev_inputConfig keylessEvent in
  let e := {| message := js "Anthropic API key is required" |} in
  validateConfig appConfig inputConfig = inl e
  /\ ((truthy_string (anthropicApiKey appConfig) = false
       /\ message e = js "Anthropic API key is required")
      \/ (truthy_string (anthropicApiKey appConfig) = true
          /\ truthy_string (configuredModel appConfig inputConfig) = false
          /\ message e = js "Model is required")
      \/ (truthy_string (anthropicApiKey appConfig) = true
          /\ truthy_string (configuredModel appConfig inputConfig) = true
          /\ ~ thinkingWithinBudget inputConfig
          /\ message e
             = js "You need to set thinking budget to a value less than max tokens")).
Proof.
  intros appConfig inputConfig e.
  assert (Hrejected : validateConfig appConfig inputConfig = inl e)
    by reflexivity.
  split; [exact Hrejected|].
  exact (validateConfig_rejects appConfig inputConfig e Hrejected).
Defined.

(** A timeout set and cleared in the empty world leaves no timer. *)
Lemma clearTimeoutTimer_after_set_witness :
  timers empty_world !! next_id empty_world = None
  /\ timers (snd (clearTimeoutTimer (js "e1")
                    (snd (setTimeoutTimer (js "e1") empty_world))))
     = timers empty_world.
Proof.
  assert (Hfresh : timers empty_world !! next_id empty_world = None)
    by apply lookup_empty.
  split; [exact Hfresh|].
  exact (proj1 (proj2 (clearTimeoutTimer_after_set (js "e1") empty_world
                         Hfresh))).
Defined.


(** Three attempts allowed, and an answer with no content: one request. *)
Lemma executeTurn_answer_without_text_witness :
  let H := scripted [{| streamed := []; final := inr emptyAnswer |}]
                    (failure "unused") in
  lastText emptyAnswer = None
  /\ exists w',
       executeTurn (firstTurn 3) empty_world
       = (Throw {| message := js "Model did not respond with text" |}, w')
       /\ api_calls w' = 1%nat.
Proof.
  intros H. split; [reflexivity|].
  destruct (executeTurn_answer_without_text (firstTurn 3) empty_world
              emptyAnswer)
    as (w' & es & Hrun & _ & _ & Hcalls & _);
    [reflexivity | reflexivity | reflexivity | reflexivity |].
  exists w'. split; [exact Hrun | exact Hcalls].
Defined.

(** A turn that ends with a text has completed its pending event. *)
Lemma executeTurn_settles_witness :
  let H := scripted [answer [BText (js "Hi")] end_turn 3 5]
                    (failure "unused") in
  let w' := snd (executeTurn (firstTurn 1) empty_world) in
  executeTurn (firstTurn 1) empty_world = (Return tt, w')
  /\ settled (firstTurn 1) w'.
Proof.
  intros H w'.
  assert (Hrun : executeTurn (firstTurn 1) empty_world = (Return tt, w'))
    by (vm_compute; reflexivity).
  split; [exact Hrun|].
  exact (executeTurn_settles (firstTurn 1) empty_world w' Hrun).
Defined.

(** The result of [toolu_1] is in: the resumed turn answers that call. *)
Lemma continueTurn_answers_every_call_witness :
  let H := scripted [] (failure "unused") in
  let w := complete_world 1 None in
  let toolResults :=
    collectResults (pairsWithPrefix (resultPrefix (js "e1") 1) (kv w)) in
  fst (loadToolResults (js "e1") 1 [js "toolu_1"] w)
  = Return (true, toolResults)
  /\ exists blocks,
       continueTurn (resumedTurn 1) [js "toolu_1"] toolResults w
       = executeTurn
           (withMessage (resumedTurn 1)
              {| role := user; content := CBlocks blocks |})
           (issued (UpdatePending (tp_pendingId (resumedTurn 1))
                      (resultsStatus [js "toolu_1"])) w)
       /\ Forall2 (fun id block =>
                     exists result, getProperty toolResults id = Some result
                                    /\ block = BToolResult id result)
                  [js "toolu_1"] blocks.
Proof.
  intros H w toolResults.
  assert (Hloaded : fst (loadToolResults (js "e1") 1 [js "toolu_1"] w)
                    = Return (true, toolResults))
    by (vm_compute; reflexivity).
  split; [exact Hloaded|].
  exact (continueTurn_answers_every_call (resumedTurn 1) (js "e1") 1
           [js "toolu_1"] toolResults w w Hloaded).
Defined.

Lemma with_call_state_awaited state eventId turn toolCallId :
  awaited eventId turn toolCallId
    (with_kv [(js "call-e1",
               {| kv_value := VCallState state; kv_ttl := None |})]).
Proof.
  intros key result ttl. unfold with_kv. simpl.
  destruct (decide (key = js "call-e1")) as [->|Hne].
  - rewrite lookup_insert_eq. discriminate.
  - rewrite lookup_insert_ne by done. by rewrite lookup_empty.
Qed.

(** The timer of [e1] fires before the result of [toolu_1] is in. *)
Lemma onTimer_times_out_witness :
  let H := scripted [] (failure "unused") in
  let w := waiting_world 1 None in
  (js "toolu_1" ∉ objectPrototype)
  /\ awaited (js "e1") 1 (js "toolu_1") w
  /\ exists w',
       onTimer timer_e1 w = (Return tt, w')
       /\ effects w' = [CancelPending (js "pending-0") (js "Timeout")]
       /\ api_calls w' = 0%nat.
Proof.
  intros H w.
  assert (Hawaited : awaited (js "e1") 1 (js "toolu_1") w)
    by apply with_call_state_awaited.
  assert (Hown : js "toolu_1" ∉ objectPrototype)
    by (apply (bool_decide_unpack _); vm_compute; exact I).
  split; [exact Hown|]. split; [exact Hawaited|].
  destruct (onTimer_times_out timer_e1 (suspended 1 None) (js "toolu_1") w)
    as (w' & Hrun & Heffects & _ & _ & Hcalls);
    [reflexivity | by left | exact Hown | exact Hawaited |].
  exists w'. split; [exact Hrun|]. split; [exact Heffects | exact Hcalls].
Defined.

(** Without the condition on the identifier this fails. A turn waits for a
    tool call named [constructor], and nothing is stored for it: the
    aggregate reads the inherited property as its result, so that the timer
    that fires resumes the turn instead of timing it out. *)
Example onTimer_resumes_for_inherited_name :
  let H := scripted [answer [BText (js "Done")] end_turn 5 3]
                    (failure "unused") in
  let state :=
    {| cs_messages := cs_messages (suspended 1 None);
       cs_toolCallIds := [js "constructor"];
       cs_pendingId := js "pending-0";
       cs_turn := 1;
       cs_originalEventId := js "e1";
       cs_settings := plainSettings 1 None |} in
  let w := with_kv [(js "call-e1",
                     {| kv_value := VCallState state; kv_ttl := None |})] in
  awaited (js "e1") 1 (js "constructor") w
  /\ exists w',
       onTimer timer_e1 w = (Return tt, w')
       /\ api_calls w' = 1%nat
       /\ last (effects w')
          = Some (Emit (Some (js "Done")) None 5 3 (js "pending-0")
                    (js "e1")).
Proof.
  intros H state w. split; [apply with_call_state_awaited|].
  eexists. split; [vm_compute; reflexivity|].
  split; vm_compute; reflexivity.
Qed.

(** A result for an event nothing is stored for. *)
Lemma onInternalMessage_without_call_state_witness :
  let H := scripted [] (failure "unused") in
  onInternalMessage (result_e1 "42") empty_world
  = (Throw {| message := js "Call state not found" |}, empty_world).
Proof.
  intros H.
  apply (onInternalMessage_without_call_state (result_e1 "42") empty_world);
    apply lookup_empty.
Defined.

(** The result of [toolu_1] comes in while [toolu_2] is still out. *)
Lemma onInternalMessage_waits_for_the_rest_witness :
  let H := scripted [] (failure "unused") in
  let w := waiting_for_two in
  (js "toolu_2" ∉ objectPrototype)
  /\ awaited (js "e1") 1 (js "toolu_2") w
  /\ exists w',
       onInternalMessage (result_e1 "42") w = (Return tt, w')
       /\ stored_fragment (js "e1") 1 (js "toolu_1") (js "42") w'
       /\ effects w' = [] /\ api_calls w' = 0%nat.
Proof.
  intros H w.
  assert (Hawaited : awaited (js "e1") 1 (js "toolu_2") w)
    by apply with_call_state_awaited.
  assert (Hown : js "toolu_2" ∉ objectPrototype)
    by (apply (bool_decide_unpack _); vm_compute; exact I).
  split; [exact Hown|]. split; [exact Hawaited|].
  destruct (onInternalMessage_waits_for_the_rest (result_e1 "42")
              suspendedOnTwo (js "toolu_2") w)
    as (w' & Hrun & Hkv & _ & Heffects & Hcalls);
    [reflexivity | reflexivity | right; by left | discriminate
    | exact Hown | exact Hawaited |].
  exists w'. split; [exact Hrun|]. split; [|split; assumption].
  exists (Some 300%nat). rewrite Hkv.
  rewrite lookup_insert_ne by discriminate. apply lookup_insert_eq.
Defined.

(** A second call does not disturb the execution of the first. *)
Lemma earlier_execution_is_kept_witness :
  let C := countingUUIDs in
  let w' :=
    afterCalls [otherBody]
      (snd (ToolDefinitionBlock.onInternalMessage lookupBody
              empty_tool_world)) in
  exists w'',
    ToolDefinitionBlock.onEvent
      {| ToolDefinitionBlock.ri_result :=
           ToolDefinitionBlock.ResultString (js "42");
         ToolDefinitionBlock.ri_echo :=
           Some (ToolDefinitionBlock.executionKeyOf (decimal 0)) |} w'
    = (Return tt, w'')
    /\ ToolDefinitionBlock.tool_effects w''
       = ToolDefinitionBlock.tool_effects w'
         ++ [ToolDefinitionBlock.SendResult (js "42") (js "e1") (js "toolu_1")
               [js "block-generate"];
             ToolDefinitionBlock.EmitResult (js "42")].
Proof.
  intros C w'.
  assert (Hfresh : forall k,
            (0 < k <= length [otherBody])%nat ->
            ToolDefinitionBlock.randomUUID
              (ToolDefinitionBlock.uuids_drawn empty_tool_world + k)
            <> ToolDefinitionBlock.randomUUID
                 (ToolDefinitionBlock.uuids_drawn empty_tool_world)).
  { intros k Hk. assert (k = 1%nat) as -> by (simpl in Hk; lia).
    intros E. vm_compute in E. discriminate E. }
  exact (earlier_execution_is_kept lookupBody [otherBody]
           (ToolDefinitionBlock.ResultString (js "42")) empty_tool_world
           Hfresh).
Defined.

(** The call of [Lookup], answered with 42 through a tool block, is stored
    where the suspended turn waits for it. *)
Lemma tool_call_is_answered_where_it_is_awaited_witness :
  let H := scripted [] (failure "unused") in
  let C := countingUUIDs in
  let w1 := snd (handleModelResponse toolAnswer (firstTurn 1) empty_world) in
  stored_fragment (js "e1") 1 (js "toolu_1") (js "42")
                  (snd (onInternalMessage (result_e1 "42") w1)).
Proof.
  intros H C w1.
  destruct (tool_call_is_answered_where_it_is_awaited toolAnswer (firstTurn 1)
              lookupCall (ToolDefinitionBlock.ResultString (js "42"))
              (js "sk-ant-key") empty_world empty_tool_world)
    as (body & executionKey & sent & input & _ & _ & _ & Hsent & Hinput & _
        & Hstored);
    [reflexivity | by left | apply lookup_empty |].
  rewrite Hsent in Hinput. injection Hinput as <-. exact Hstored.
Defined.

(** The server lists [search] only: the allowed tool [fetch] is missing. *)
Lemma remoteMcpServer_names_first_missing_tool_witness :
  let N := searchServer in
  let description :=
    template [js "Tool "; [34]; js "fetch"; [34]; js " not found"] in
  RemoteMcpServer.onSync searchAndFetch = RemoteMcpServer.Failed description
  /\ (description = js "Failed to connect"
      \/ exists transport tools toolName earlier later,
           RemoteMcpServer.connected (RemoteMcpServer.ms_url searchAndFetch)
           = Some transport
           /\ RemoteMcpServer.listTools transport
             (RemoteMcpServer.ms_url searchAndFetch) = Some tools
           /\ default [] (RemoteMcpServer.ms_allowedTools searchAndFetch)
              = earlier ++ toolName :: later
           /\ Forall (fun name =>
                        name ∈ map RemoteMcpServer.mt_name tools) earlier
           /\ (toolName ∉ map RemoteMcpServer.mt_name tools)
           /\ description
              = template [js "Tool "; [34]; toolName; [34];
                          js " not found"]).
Proof.
  intros N description.
  assert (Hfailed : RemoteMcpServer.onSync searchAndFetch
                    = RemoteMcpServer.Failed description)
    by (vm_compute; reflexivity).
  split; [exact Hfailed|].
  exact (remoteMcpServer_names_first_missing_tool searchAndFetch description
           Hfailed).
Defined.
